(** * Algorithm playground backend: a shallow embedding of [handler.ts]

    The development follows the source file top-down: the values the
    handler receives (parsed JSON), the option validator of
    [AlgorithmBase], the minimum-cut algorithm ([KargerMinCutAlgorithm]),
    the request handler with its result store, and the canonical encoder
    used for cache keys.

    Conventions.
    - A JavaScript string is a [string]; every [ascii] stands for one
      code unit (the model covers code units below 256).
    - A JavaScript number is a [Z]: the model covers the numbers with an
      integer value; numbers with a fraction, and with them options of
      type [number], are outside it.  An integer beyond 2^53 that no
      double holds is printed as the double nearest to it.
    - [undefined] is [None] wherever the source reads a property.
    - An object is the list of its own entries in enumeration order
      (the order of [Object.entries]); keys are pairwise distinct.
    - Functions of the platform whose code is not part of the repository
      (collation, hashing, URL and JSON parsing, numeric literals, the
      random source) are parameters: section variables of the functions
      that call them, gathered in the record [Platform] for the handler.
    - The store, the clock and the count of random numbers drawn make up
      the [World] that the handler reads and writes.

    The model comes first, then the notions the statements use and the
    data of the worked examples, then the properties. *)

From Stdlib Require Import ZArith List Ascii String Bool Lia Permutation.
From stdpp Require Import gmap strings list sorting pretty.

Open Scope string_scope.
Open Scope Z_scope.

(** ** Strings *)

Definition dquote : ascii := "034"%char.
Definition backslash : ascii := "092"%char.

(** [arr.join(sep)] on an array of strings. *)
Definition join (sep : string) (parts : list string) : string :=
  String.concat sep parts.

(** Template literals and [+] on strings. *)
Definition cat (parts : list string) : string := String.concat EmptyString parts.

Definition hexDigit (n : N) : ascii :=
  match n with
  | 0%N => "0" | 1%N => "1" | 2%N => "2" | 3%N => "3" | 4%N => "4"
  | 5%N => "5" | 6%N => "6" | 7%N => "7" | 8%N => "8" | 9%N => "9"
  | 10%N => "a" | 11%N => "b" | 12%N => "c" | 13%N => "d" | 14%N => "e"
  | _ => "f"
  end%char.

(** One code unit inside a JSON string literal, as [JSON.stringify]
    writes it. *)
Definition escapeCodeUnit (c : ascii) : string :=
  let n := N_of_ascii c in
  if (n =? 8)%N then String backslash "b"
  else if (n =? 9)%N then String backslash "t"
  else if (n =? 10)%N then String backslash "n"
  else if (n =? 12)%N then String backslash "f"
  else if (n =? 13)%N then String backslash "r"
  else if (n =? 34)%N then String backslash (String dquote EmptyString)
  else if (n =? 92)%N then String backslash (String backslash EmptyString)
  else if (n <? 32)%N then
    String backslash
      (String "u" (String "0" (String "0"
         (String (hexDigit (n / 16)) (String (hexDigit (n mod 16)) EmptyString)))))
  else String c EmptyString.

Fixpoint escapeString (s : string) : string :=
  match s with
  | EmptyString => EmptyString
  | String c rest => escapeCodeUnit c +:+ escapeString rest
  end.

(** [JSON.stringify(s)] for a string [s]. *)
Definition quoteJSONString (s : string) : string :=
  String dquote (escapeString s +:+ String dquote EmptyString).

(** ** Parsed JSON values *)

#[warnings="-register-all"]
Inductive json : Type :=
| JNull
| JBool (b : bool)
| JNumber (n : Z)
| JString (s : string)
| JArray (items : list json)
| JObject (entries : list (string * json)).

(** The recursor that also descends into arrays and objects. *)
Section JsonInduction.
Variable P : json -> Prop.
Hypothesis Hnull : P JNull.
Hypothesis Hbool : forall b, P (JBool b).
Hypothesis Hnumber : forall n, P (JNumber n).
Hypothesis Hstring : forall s, P (JString s).
Hypothesis Harray : forall items, Forall P items -> P (JArray items).
Hypothesis Hobject :
  forall entries, Forall (fun kv => P (snd kv)) entries -> P (JObject entries).

Fixpoint json_deep_ind (v : json) : P v :=
  match v with
  | JNull => Hnull
  | JBool b => Hbool b
  | JNumber n => Hnumber n
  | JString s => Hstring s
  | JArray items =>
      Harray items
        ((fix go (l : list json) : Forall P l :=
            match l with
            | [] => @List.Forall_nil _ P
            | x :: l' => @List.Forall_cons _ P x l' (json_deep_ind x) (go l')
            end) items)
  | JObject entries =>
      Hobject entries
        ((fix go (l : list (string * json)) : Forall (fun kv => P (snd kv)) l :=
            match l with
            | [] => @List.Forall_nil _ _
            | kv :: l' =>
                @List.Forall_cons _ (fun kv => P (snd kv)) kv l'
                  (json_deep_ind (snd kv)) (go l')
            end) entries)
  end.
End JsonInduction.

(** ** Exceptions *)

(** What a [throw] can carry: an instance of [ClientError] (status code
    400), any other [Error], or a value that is not an [Error]. *)
Inductive thrown : Type :=
| ClientError (message : string)
| OtherError (message : string)
| NotAnError.

Inductive outcome (A : Type) : Type :=
| Returns (a : A)
| Throws (e : thrown).
Arguments Returns {A} a.
Arguments Throws {A} e.

Definition obind {A B : Type} (m : outcome A) (k : A -> outcome B) : outcome B :=
  match m with
  | Returns a => k a
  | Throws e => Throws e
  end.

#[global] Instance outcome_bind : MBind outcome := fun A B k m => obind m k.
#[global] Instance outcome_ret : MRet outcome := fun A a => Returns a.

(** The [TypeError] of a conversion to a primitive value that finds no
    method to call. *)
Definition typeError : thrown := OtherError "Cannot convert object to primitive value".


(** ** Reading and converting values *)

(** [o[key]] on the entries of an object; [None] is [undefined]. *)
Fixpoint obj_get (entries : list (string * json)) (key : string) : option json :=
  match entries with
  | [] => None
  | (k, v) :: rest => if String.eqb k key then Some v else obj_get rest key
  end.

(** [o[key] = value] and the spread [{...o, key: value}] for a key that
    is an ordinary name ([ordinaryKey] below; such are all the keys that
    the handler writes): an existing key keeps its place, a new key goes
    last.  A key made of digits would be enumerated first, and an
    assignment to [__proto__] makes no entry. *)
Fixpoint obj_set (entries : list (string * json)) (key : string) (value : json)
  : list (string * json) :=
  match entries with
  | [] => [(key, value)]
  | (k, v) :: rest =>
      if String.eqb k key then (k, value) :: rest
      else (k, v) :: obj_set rest key value
  end.

(** [value.key] and [value[key]] for the property names the handler
    reads ([edges], [vertices], [from], [algorithmId], [iterations],
    ...): only a plain object can have them, as an entry of its own.
    This is not the reading of a name that objects inherit
    ([constructor], [toString], ...), nor that of [length] or of an
    index on an array. *)
Definition prop (value : json) (key : string) : option json :=
  match value with
  | JObject entries => obj_get entries key
  | _ => None
  end.





(** [a ?? b] *)
Definition nullish (a : option json) (b : option json) : option json :=
  match a with
  | None | Some JNull => b
  | Some _ => a
  end.

(** Truthiness ([!value] is its negation). *)
Definition truthy (value : json) : bool :=
  match value with
  | JNull => false
  | JBool b => b
  | JNumber n => negb (n =? 0)
  | JString s => negb (String.eqb s EmptyString)
  | JArray _ | JObject _ => true
  end.

(** [typeof value === 'object' && value] *)
Definition isObjectLike (value : json) : bool :=
  match value with
  | JArray _ | JObject _ => true
  | _ => false
  end.

(** The double nearest to a non-negative integer, ties to the even
    mantissa of 53 bits. *)
Definition roundToDouble (v : Z) : Z :=
  let bits := Z.log2 v + 1 in
  if bits <=? 53 then v
  else
    let shift := bits - 53 in
    let mantissa := Z.shiftr v shift in
    let rest := v - Z.shiftl mantissa shift in
    let half := Z.shiftl 1 (shift - 1) in
    let mantissa :=
      if (half <? rest) || ((rest =? half) && Z.odd mantissa) then mantissa + 1
      else mantissa in
    Z.shiftl mantissa shift.

(** The decimal numbers of [k] digits followed by zeros, up to the
    length [digits] of [x], that read back as [x]: the one nearest to
    [x], the even one of two equally near.  The result is the digits and
    the length of the number they stand for. *)
Definition shortestWith (x : Z) (digits k : nat) : option (Z * nat) :=
  let unit := 10 ^ Z.of_nat (digits - k) in
  let lo := x / unit in
  let hi := lo + 1 in
  let okLo := roundToDouble (lo * unit) =? x in
  let okHi := roundToDouble (hi * unit) =? x in
  let pick := fun s : Z => if s =? 10 ^ Z.of_nat k then (1, S digits) else (s, digits) in
  if okLo && okHi then
    if x - lo * unit <? hi * unit - x then Some (pick lo)
    else if hi * unit - x <? x - lo * unit then Some (pick hi)
    else if Z.even lo then Some (pick lo) else Some (pick hi)
  else if okLo then Some (pick lo)
  else if okHi then Some (pick hi)
  else None.

(** The least number of digits that reads back as [x]. *)
Fixpoint shortestFrom (x : Z) (digits k fuel : nat) : option (Z * nat) :=
  match fuel with
  | O => None
  | S fuel' =>
      match shortestWith x digits k with
      | Some found => Some found
      | None => shortestFrom x digits (S k) fuel'
      end
  end.

Fixpoint zeros (n : nat) : string :=
  match n with
  | O => EmptyString
  | S n' => String "0" (zeros n')
  end.

(** [Number::toString] for a number with an integer value.  Up to 2^53
    these are the decimal digits of the value.  Above, they are the
    fewest digits that read back as the same double, followed by zeros
    for a number below 10^21 and by an exponent from 10^21 on. *)
Definition Number_toString (n : Z) : string :=
  if Z.abs n <=? 2 ^ 53 then pretty n
  else
    let x := roundToDouble (Z.abs n) in
    let digits := String.length (pretty x) in
    match shortestFrom x digits 1 digits with
    | Some (s, len) =>
        let text := pretty s in
        let sign := if n <? 0 then "-" else EmptyString in
        if (len <=? 21)%nat then cat [sign; text; zeros (len - String.length text)]
        else
          match text with
          | String first EmptyString =>
              cat [sign; String first EmptyString; "e+"; pretty (len - 1)%nat]
          | String first rest =>
              cat [sign; String first EmptyString; "."; rest; "e+"; pretty (len - 1)%nat]
          | EmptyString => pretty n
          end
    | None => pretty n
    end.

(** [String(value)].  An array prints its elements joined by commas,
    with [null] elements printed as the empty string.  An object prints
    as a fixed tag, unless it has an entry of its own under [toString]:
    that entry hides the method and is not a function, so the conversion
    throws a [TypeError]. *)
Fixpoint JS_String (value : json) : outcome string :=
  match value with
  | JNull => Returns "null"
  | JBool true => Returns "true"
  | JBool false => Returns "false"
  | JNumber n => Returns (Number_toString n)
  | JString s => Returns s
  | JArray items =>
      texts ←
        (fix elements (l : list json) : outcome (list string) :=
           match l with
           | [] => Returns []
           | x :: rest =>
               text ← match x with JNull => Returns EmptyString | _ => JS_String x end;
               texts ← elements rest;
               Returns (text :: texts)
           end) items;
      Returns (join "," texts)
  | JObject entries =>
      match obj_get entries "toString" with
      | Some _ => Throws typeError
      | None => Returns "[object Object]"
      end
  end.

(** The text that [Array.prototype.join] takes for an element: empty
    for [null], the conversion to a string otherwise. *)
Definition elementText (x : json) : outcome string :=
  match x with JNull => Returns EmptyString | _ => JS_String x end.

(** [JSON.stringify(value)] without indentation. *)
Fixpoint JSON_stringify (value : json) : string :=
  match value with
  | JNull => "null"
  | JBool true => "true"
  | JBool false => "false"
  | JNumber n => Number_toString n
  | JString s => quoteJSONString s
  | JArray items => cat ["["; join "," (map JSON_stringify items); "]"]
  | JObject entries =>
      cat ["{";
           join ","
             (map (fun kv => cat [quoteJSONString (fst kv); ":"; JSON_stringify (snd kv)])
                entries);
           "}"]
  end.

(** ** [Array.prototype.sort]

    The sort is stable; with a comparator that is a consistent ordering
    every stable sort returns the same array, which is computed here by
    insertion.  The comparator returns the sign of the number the
    callback returns. *)
Section ArraySort.
Context {A : Type} (cmp : A -> A -> comparison).

Fixpoint sort_insert (x : A) (sorted : list A) : list A :=
  match sorted with
  | [] => [x]
  | y :: rest =>
      match cmp x y with
      | Gt => y :: sort_insert x rest
      | _ => x :: y :: rest
      end
  end.

Fixpoint Array_sort (l : list A) : list A :=
  match l with
  | [] => []
  | x :: rest => sort_insert x (Array_sort rest)
  end.
End ArraySort.

(** ** Canonical encoder and cache key *)

Section CanonicalEncoder.
(** [keyA.localeCompare(keyB)]: the collation of the host. *)
Variable localeCompare : string -> string -> comparison.
(** [createHash('sha256').update(text).digest('hex')] *)
Variable sha256_hex : string -> string.

(** [Object.entries(value).sort(([keyA], [keyB]) => keyA.localeCompare(keyB))] *)
Definition sortedEntries {V : Type} (entries : list (string * V)) : list (string * V) :=
  Array_sort (fun a b => localeCompare (fst a) (fst b)) entries.

(** The values of an object are encoded before the entries are sorted,
    so that the recursion is on the entries as given; the sort looks at
    the keys only ([stableStringify_JObject] below gives the encoding
    with the entries sorted first, as the source computes it). *)
Fixpoint stableStringify (value : json) : string :=
  match value with
  | JNull => "null"
  | JBool _ | JNumber _ | JString _ => JSON_stringify value
  | JArray items => cat ["["; join "," (map stableStringify items); "]"]
  | JObject entries =>
      cat ["{";
           join ","
             (map (fun kv => cat [quoteJSONString (fst kv); ":"; snd kv])
                (sortedEntries (map (fun kv => (fst kv, stableStringify (snd kv))) entries)));
           "}"]
  end.

Definition createCacheKey (algorithmId : string) (input options : json) : string :=
  let payload :=
    JObject [("algorithmId", JString algorithmId);
             ("input", JString (stableStringify input));
             ("options", JString (stableStringify options))] in
  sha256_hex (JSON_stringify payload).
End CanonicalEncoder.

(** [array.map(f)] for a callback that may throw; the callback receives
    the element and its index, and the first throw ends the traversal. *)
Fixpoint mapM_index {A B : Type} (f : A -> nat -> outcome B) (index : nat) (l : list A)
  : outcome (list B) :=
  match l with
  | [] => Returns []
  | x :: rest =>
      y ← f x index;
      ys ← mapM_index f (S index) rest;
      Returns (y :: ys)
  end.

(** ** Option validator ([AlgorithmBase.parseOptions]) *)

(** The types of options that the model covers: [integer], [string]
    and [boolean].  An option of type [number] takes values with a
    fraction, which [json] does not hold; no algorithm of the program
    declares one.  The bounds of an option are integers. *)
Inductive optionType : Type := TInteger | TString | TBoolean.

Record AlgorithmOptionDefinition : Type := {
  key : string;
  label : string;
  type : optionType;
  description : string;
  defaultValue : json;
  minimum : option Z;
  maximum : option Z
}.

Definition dq : string := String dquote EmptyString.

Definition isWhiteSpace (c : ascii) : bool :=
  let n := N_of_ascii c in
  ((9 <=? n)%N && (n <=? 13)%N) || (n =? 32)%N || (n =? 160)%N.

Fixpoint trimStart (s : string) : string :=
  match s with
  | String c rest => if isWhiteSpace c then trimStart rest else s
  | EmptyString => EmptyString
  end.

Fixpoint trimEnd (s : string) : string :=
  match s with
  | EmptyString => EmptyString
  | String c rest =>
      match trimEnd rest with
      | EmptyString => if isWhiteSpace c then EmptyString else String c EmptyString
      | rest' => String c rest'
      end
  end.

Definition trim (s : string) : string := trimEnd (trimStart s).

Definition toLowerCaseUnit (c : ascii) : ascii :=
  let n := N_of_ascii c in
  if ((65 <=? n)%N && (n <=? 90)%N)
     || ((192 <=? n)%N && (n <=? 222)%N && negb (n =? 215)%N)
  then ascii_of_N (n + 32) else c.

Fixpoint toLowerCase (s : string) : string :=
  match s with
  | EmptyString => EmptyString
  | String c rest => String (toLowerCaseUnit c) (toLowerCase rest)
  end.

Section OptionValidator.
(** [Number(text)] when it is a finite number with an integer value;
    [None] when it is [NaN], an infinity or a number with a fraction. *)
Variable StringToNumber : string -> option Z.

(** [Number(value)]: an array or an object is converted to a string
    first, which throws for an object with an entry of its own under
    [toString]; [None] is as for [StringToNumber]. *)
Definition Number (value : json) : outcome (option Z) :=
  match value with
  | JNull => Returns (Some 0)
  | JBool true => Returns (Some 1)
  | JBool false => Returns (Some 0)
  | JNumber n => Returns (Some n)
  | JString s => Returns (StringToNumber s)
  | JArray _ | JObject _ =>
      text ← JS_String value;
      Returns (StringToNumber text)
  end.

Definition checkMinimum (def : AlgorithmOptionDefinition) (num : Z) : outcome unit :=
  match minimum def with
  | Some lo =>
      if num <? lo
      then Throws (ClientError
             (cat ["Option "; dq; label def; dq; " must be >= "; Number_toString lo; "."]))
      else Returns tt
  | None => Returns tt
  end.

Definition checkMaximum (def : AlgorithmOptionDefinition) (num : Z) : outcome unit :=
  match maximum def with
  | Some hi =>
      if num >? hi
      then Throws (ClientError
             (cat ["Option "; dq; label def; dq; " must be <= "; Number_toString hi; "."]))
      else Returns tt
  | None => Returns tt
  end.

(** The body of the loop of [parseOptions] for a supplied [value]. *)
Definition parseOption (def : AlgorithmOptionDefinition) (value : json) : outcome json :=
  match type def with
  | TInteger =>
      num ← Number value;
      match num with
      | None =>
          Throws (ClientError
            (cat ["Option "; dq; label def; dq; " must be an integer value."]))
      | Some num =>
          _ ← checkMinimum def num;
          _ ← checkMaximum def num;
          Returns (JNumber num)
      end
  | TBoolean =>
      match value with
      | JBool b => Returns (JBool b)
      | JString s =>
          let normalized := toLowerCase (trim s) in
          if String.eqb normalized "true" || String.eqb normalized "1"
          then Returns (JBool true)
          else if String.eqb normalized "false" || String.eqb normalized "0"
          then Returns (JBool false)
          else Throws (ClientError
                 (cat ["Option "; dq; label def; dq; " must be a boolean."]))
      | JNumber n => Returns (JBool (negb (n =? 0)))
      | _ => Throws (ClientError
               (cat ["Option "; dq; label def; dq; " must be a boolean."]))
      end
  | TString =>
      text ← JS_String value;
      Returns (JString text)
  end.

(** [value === undefined || value === null || value === ''] *)
Definition isUnsupplied (value : option json) : bool :=
  match value with
  | None | Some JNull => true
  | Some (JString s) => String.eqb s EmptyString
  | Some _ => false
  end.

(** The loop of [parseOptions] over the declared options.  The
    registered algorithm declares the key [iterations]; for definitions
    in general the loop is that of the source when every declared key
    is an [ordinaryKey] and the payload is not an array. *)
Fixpoint parseOptionsLoop (defs : list AlgorithmOptionDefinition)
    (provided : json) (parsed : list (string * json)) : outcome (list (string * json)) :=
  match defs with
  | [] => Returns parsed
  | def :: rest =>
      let value := prop provided (key def) in
      if isUnsupplied value
      then parseOptionsLoop rest provided (obj_set parsed (key def) (defaultValue def))
      else
        match value with
        | Some supplied =>
            v ← parseOption def supplied;
            parseOptionsLoop rest provided (obj_set parsed (key def) v)
        | None =>
            parseOptionsLoop rest provided (obj_set parsed (key def) (defaultValue def))
        end
  end.

Definition parseOptions (defs : list AlgorithmOptionDefinition) (raw : json)
  : outcome (list (string * json)) :=
  let provided := if truthy raw && isObjectLike raw then raw else JObject [] in
  parseOptionsLoop defs provided [].
End OptionValidator.

(** ** Insertion-ordered sets and maps of the runtime *)

(** [Set<string>]: the members in insertion order. *)
Definition Set_has (members : list string) (x : string) : bool :=
  bool_decide (x ∈ members).

Definition Set_add (members : list string) (x : string) : list string :=
  if Set_has members x then members else members ++ [x].

(** [new Set(items)] *)
Definition Set_from (items : list string) : list string :=
  fold_left Set_add items [].

(** [Map<string, Set<string>>]: the entries in insertion order. *)
Definition ComponentMap : Type := list (string * list string).

Fixpoint Map_get (m : ComponentMap) (k : string) : option (list string) :=
  match m with
  | [] => None
  | (k', v) :: rest => if String.eqb k' k then Some v else Map_get rest k
  end.

Definition Map_has (m : ComponentMap) (k : string) : bool :=
  match Map_get m k with Some _ => true | None => false end.

Fixpoint Map_delete (m : ComponentMap) (k : string) : ComponentMap :=
  match m with
  | [] => []
  | (k', v) :: rest =>
      if String.eqb k' k then Map_delete rest k else (k', v) :: Map_delete rest k
  end.

(** [m.set(k, v)]: a key already present keeps its position. *)
Fixpoint Map_set (m : ComponentMap) (k : string) (v : list string) : ComponentMap :=
  match m with
  | [] => [(k, v)]
  | (k', v') :: rest =>
      if String.eqb k' k then (k', v) :: rest else (k', v') :: Map_set rest k v
  end.

Definition Map_values (m : ComponentMap) : list (list string) := map snd m.
Definition Map_keys (m : ComponentMap) : list string := map fst m.

(** ** Minimum cut by random contraction ([KargerMinCutAlgorithm]) *)

Record KargerInput : Type := {
  vertices : list string;
  edges : list (string * string)
}.

Definition optionDefinitions : list AlgorithmOptionDefinition :=
  [ {| key := "iterations";
       label := "Iterations";
       type := TInteger;
       description := "Number of random contraction runs to perform. More iterations increase the probability of finding the true minimum cut.";
       defaultValue := JNumber 40;
       minimum := Some 1;
       maximum := Some 1000 |} ].

Definition karger_id : string := "karger-min-cut".

(** The callback of [rawEdges.map] in [parseInput]. *)
Definition parseEdge (edge : json) (index : nat) : outcome (string * string) :=
  let fail :=
    Throws (ClientError
      (cat ["Edge at index "; pretty index;
            " must be an array like [from, to] or an object with from/to keys."])) in
  match edge with
  | JArray [from; to] =>
      from ← JS_String from;
      to ← JS_String to;
      Returns (from, to)
  | _ =>
      if truthy edge && isObjectLike edge then
        let from := nullish (nullish (prop edge "from") (prop edge "source")) (prop edge "u") in
        let to := nullish (nullish (prop edge "to") (prop edge "target")) (prop edge "v") in
        match from, to with
        | Some f, Some t =>
            from ← JS_String f;
            to ← JS_String t;
            Returns (from, to)
        | _, _ => fail
        end
      else fail
  end.

Definition parseInput (raw : json) : outcome KargerInput :=
  if negb (truthy raw && isObjectLike raw) then
    Throws (ClientError
      (cat ["Input must be a JSON object with an "; dq; "edges"; dq; " property."]))
  else
    match prop raw "edges" with
    | Some (JArray (e :: es)) =>
        let rawEdges := e :: es in
        edges ← mapM_index parseEdge 0%nat rawEdges;
        explicitVertices ←
          match prop raw "vertices" with
          | Some (JArray vs) => mapM JS_String vs
          | _ => Returns []
          end;
        let vertices :=
          Set_from (explicitVertices ++ flat_map (fun e => [fst e; snd e]) edges) in
        if (length vertices <? 2)%nat then
          Throws (ClientError "The graph must contain at least two vertices.")
        else Returns {| vertices := vertices; edges := edges |}
    | _ =>
        Throws (ClientError
          (cat ["Input must include a non-empty "; dq; "edges"; dq; " array."]))
    end.

Definition resolveIterations (input : KargerInput) (options : list (string * json)) : Z :=
  match obj_get options "iterations" with
  | Some (JNumber provided) =>
      if 1 <=? provided then provided
      else
        let n := Z.of_nat (length (vertices input)) in
        Z.max 1 (Z.min 1000 (n * n))
  | _ =>
      let n := Z.of_nat (length (vertices input)) in
      Z.max 1 (Z.min 1000 (n * n))
  end.

Definition findRepresentative (label : string) (components : ComponentMap) : outcome string :=
  if Map_has components label then Returns label
  else
    match find (fun entry => Set_has (snd entry) label) components with
    | Some (key, _) => Returns key
    | None =>
        Throws (OtherError (cat ["Vertex "; label; " is missing from the component map."]))
    end.

Definition mergeComponents (from to : string) (components : ComponentMap) (step : nat)
  : outcome (string * ComponentMap) :=
  match Map_get components from, Map_get components to with
  | Some fromSet, Some toSet =>
      let components := Map_delete (Map_delete components from) to in
      let mergedSet := Set_from (fromSet ++ toSet) in
      let mergedLabel :=
        cat [join "|" (Array_sort String.compare mergedSet); "#"; pretty step] in
      Returns (mergedLabel, Map_set components mergedLabel mergedSet)
  | _, _ => Throws (OtherError "Attempted to merge components that do not exist.")
  end.

Definition computeCutSize (partA partB : list string) (edges : list (string * string)) : nat :=
  fold_left
    (fun cut edge =>
       let inA := Set_has partA (fst edge) in
       let inB := Set_has partB (fst edge) in
       let outA := Set_has partA (snd edge) in
       let outB := Set_has partB (snd edge) in
       if (inA && outB) || (inB && outA) then S cut else cut)
    edges 0%nat.

(** The rewriting of the working edge list after a merge. *)
Definition relabel (from to mergedLabel : string) (edges : list (string * string))
  : list (string * string) :=
  filter (fun e => fst e ≠ snd e)
    (map (fun e =>
            let newA := if String.eqb (fst e) from || String.eqb (fst e) to
                        then mergedLabel else fst e in
            let newB := if String.eqb (snd e) from || String.eqb (snd e) to
                        then mergedLabel else snd e in
            (newA, newB))
       edges).

(** ** The world outside the handler

    The result store (a DynamoDB table read and written through
    [dynamo.send]), the count of numbers drawn from [Math.random()], and
    the clock. *)
Record World : Type := {
  table : gmap string json;
  getFault : option thrown;
  putFault : option thrown;
  randomCalls : nat;
  clock : string
}.

(** The world after [n] more numbers have been drawn. *)
Definition advance (n : nat) (w : World) : World :=
  {| table := table w; getFault := getFault w; putFault := putFault w;
     randomCalls := (n + randomCalls w)%nat; clock := clock w |}.

(** The world after an item has been written under [id]. *)
Definition withItem (id : string) (item : json) (w : World) : World :=
  {| table := <[id := item]> (table w); getFault := getFault w; putFault := putFault w;
     randomCalls := randomCalls w; clock := clock w |}.

(** A computation that reads and writes the world and may throw. *)
Definition M (A : Type) : Type := World -> outcome A * World.

#[global] Instance M_bind : MBind M := fun A B k m w =>
  match m w with
  | (Returns a, w') => k a w'
  | (Throws e, w') => (Throws e, w')
  end.
#[global] Instance M_ret : MRet M := fun A a w => (Returns a, w).

Definition lift {A : Type} (o : outcome A) : M A := fun w => (o, w).

Section Contraction.
(** The random source: [Math_random k] stands for the [k]-th number
    drawn from [Math.random()]; the index it selects in an array of
    length [n] is [Math_random k mod n], so every index can occur. *)
Variable Math_random : nat -> nat.

(** [Math.floor(Math.random() * n)] *)
Definition randomIndexBelow (n : nat) : M nat := fun w =>
  (Returns (Math_random (randomCalls w) mod n)%nat, advance 1 w).

(** The [while] loop of [singleRun].  Every iteration lowers
    [length components + length edges]; [fuel] bounds the number of
    iterations. *)
Fixpoint contractLoop (fuel step : nat)
    (components : ComponentMap) (edges : list (string * string)) : M ComponentMap :=
  match fuel with
  | O => mret components
  | S fuel' =>
      if (2 <? length components)%nat && (0 <? length edges)%nat then
        let step := S step in
        randomIndex ← randomIndexBelow (length edges);
        match edges !! randomIndex with
        | None => lift (Throws (OtherError "undefined is not iterable"))
        | Some (rawFrom, rawTo) =>
            from ← lift (findRepresentative rawFrom components);
            to ← lift (findRepresentative rawTo components);
            if String.eqb from to then
              contractLoop fuel' step components (delete randomIndex edges)
            else
              merged ← lift (mergeComponents from to components step);
              contractLoop fuel' step (snd merged) (relabel from to (fst merged) edges)
        end
      else mret components
  end.

Definition initialComponents (input : KargerInput) : ComponentMap :=
  fold_left (fun components vertex => Map_set components vertex (Set_from [vertex]))
    (vertices input) [].

(** The loop of [singleRun] with enough fuel to reach its exit. *)
Definition contract (input : KargerInput) : M ComponentMap :=
  let components := initialComponents input in
  contractLoop (length components + length (edges input)) 0 components (edges input).

(** What [singleRun] returns once the loop has ended. *)
Definition partitionsOf (components : ComponentMap) (input : KargerInput)
  : nat * (list string * list string) :=
  match Map_values components with
  | [partA; partB] => (computeCutSize partA partB (edges input), (partA, partB))
  | [only] => (0%nat, (only, []))
  | remaining => (0%nat, (concat remaining, []))
  end.

Definition singleRun (input : KargerInput) : M (nat * (list string * list string)) :=
  components ← contract input;
  mret (partitionsOf components input).

(** The variables of the loop of [execute]; [bestCut = None] is
    [Number.POSITIVE_INFINITY]. *)
Record Best : Type := {
  bestCut : option nat;
  bestPartitions : list string * list string;
  bestIteration : nat;
  runHistory : list (nat * nat)
}.

Fixpoint runIterations (remaining iteration : nat) (input : KargerInput) (best : Best)
  : M Best :=
  match remaining with
  | O => mret best
  | S remaining' =>
      run ← singleRun input;
      let cut := fst run in
      let history := (runHistory best ++ [(iteration, cut)])%list in
      let improves :=
        match bestCut best with
        | None => true
        | Some b => (cut <? b)%nat
        end in
      runIterations remaining' (S iteration) input
        (if improves
         then {| bestCut := Some cut; bestPartitions := snd run;
                 bestIteration := iteration; runHistory := history |}
         else {| bestCut := bestCut best; bestPartitions := bestPartitions best;
                 bestIteration := bestIteration best; runHistory := history |})
  end.

Definition stringsJson (l : list string) : json := JArray (map JString l).

(** The [AlgorithmRunResult] built at the end of [execute]. *)
Definition runResult (iterations : Z) (best : Best) : json :=
  let cutText := match bestCut best with Some c => pretty c | None => "Infinity" end in
  JObject
    [("output",
       JObject
         [("minCut", match bestCut best with
                     | Some c => JNumber (Z.of_nat c)
                     | None => JNull
                     end);
          ("partitions",
             JArray [stringsJson (fst (bestPartitions best));
                     stringsJson (snd (bestPartitions best))])]);
     ("summary",
       JString (cat ["Estimated minimum cut is "; cutText; " based on ";
                     Number_toString iterations; " iteration";
                     if iterations =? 1 then EmptyString else "s"; "."]));
     ("diagnostics",
       JObject
         [("iterations", JNumber iterations);
          ("bestIteration", JNumber (Z.of_nat (bestIteration best)));
          ("runHistory",
             JArray (map (fun r => JObject [("iteration", JNumber (Z.of_nat (fst r)));
                                            ("cut", JNumber (Z.of_nat (snd r)))])
                       (runHistory best)))])].

Definition execute (input : KargerInput) (options : list (string * json)) : M json :=
  let iterations := resolveIterations input options in
  best ← runIterations (Z.to_nat iterations) 1 input
            {| bestCut := None; bestPartitions := ([], []);
               bestIteration := 0%nat; runHistory := [] |};
  mret (runResult iterations best).
End Contraction.

(** ** Algorithm metadata and registry *)

Definition optionTypeName (t : optionType) : string :=
  match t with
  | TInteger => "integer"
  | TString => "string"
  | TBoolean => "boolean"
  end.

Definition optionDefinitionJson (def : AlgorithmOptionDefinition) : json :=
  JObject
    ([("key", JString (key def));
      ("label", JString (label def));
      ("type", JString (optionTypeName (type def)));
      ("description", JString (description def));
      ("defaultValue", defaultValue def)]
     ++ match minimum def with Some lo => [("minimum", JNumber lo)] | None => [] end
     ++ match maximum def with Some hi => [("maximum", JNumber hi)] | None => [] end)%list.

(** A [KargerInput] as the plain object it is at run time. *)
Definition inputJson (input : KargerInput) : json :=
  JObject
    [("vertices", stringsJson (vertices input));
     ("edges", JArray (map (fun e => JArray [JString (fst e); JString (snd e)]) (edges input)))].

Definition inputExample : KargerInput :=
  {| vertices := ["A"; "B"; "C"; "D"];
     edges := [("A", "B"); ("A", "C"); ("B", "C"); ("B", "D"); ("C", "D")] |}.

Definition getMetadata : json :=
  JObject
    [("id", JString karger_id);
     ("name", JString "Karger's Minimum Cut");
     ("description",
        JString (cat ["Estimates the minimum cut of an undirected graph using K";
                      String (ascii_of_N 228) EmptyString;
                      "rger's randomized contraction algorithm."]));
     ("inputExplanation",
        JString (cat ["Provide the undirected graph as a JSON object with an optional ";
                      dq; "vertices"; dq; " array and a required "; dq; "edges"; dq;
                      " array of [source, target] pairs. Vertices not listed will be inferred from the edges."]));
     ("inputExample", inputJson inputExample);
     ("options", JArray (map optionDefinitionJson optionDefinitions))].

(** [registry.get(id)]: the registry holds the one algorithm registered
    at start-up. *)
Definition registry_has (algorithmId : string) : bool := String.eqb algorithmId karger_id.

(** ** Request handling *)

Record LambdaFunctionUrlEvent : Type := {
  method : option string;
  path : option string;
  body : option string
}.

Record LambdaResponse : Type := {
  statusCode : Z;
  headers : list (string * string);
  responseBody : string
}.

Definition baseHeaders : list (string * string) :=
  [("Content-Type", "application/json");
   ("Access-Control-Allow-Origin", "*");
   ("Access-Control-Allow-Methods", "GET,POST,OPTIONS");
   ("Access-Control-Allow-Headers", "*")].

Definition buildResponse (statusCode : Z) (body : string) : LambdaResponse :=
  {| statusCode := statusCode; headers := baseHeaders; responseBody := body |}.

Definition messageBody (message : string) : string :=
  JSON_stringify (JObject [("message", JString message)]).

(** [text.replace(/\/+$/, '')]: the whole run of slashes at the end goes. *)
Fixpoint stripTrailingSlashes (text : string) : string :=
  match text with
  | EmptyString => EmptyString
  | String c rest =>
      match stripTrailingSlashes rest with
      | EmptyString => if Ascii.eqb c "/" then EmptyString else String c EmptyString
      | rest' => String c rest'
      end
  end.

(** [text || '/'] *)
Definition orSlash (text : string) : string :=
  match text with
  | EmptyString => "/"
  | _ => text
  end.

(** [{...value}]: the own enumerable entries of a value. *)
Fixpoint charEntries (index : nat) (s : string) : list (string * json) :=
  match s with
  | EmptyString => []
  | String c rest => (pretty index, JString (String c EmptyString)) :: charEntries (S index) rest
  end.

Definition spread (value : option json) : list (string * json) :=
  match value with
  | Some (JObject entries) => entries
  | Some (JArray items) => imap (fun index item => (pretty index, item)) items
  | Some (JString s) => charEntries 0 s
  | _ => []
  end.

Definition augmentResultWithOptions (result : json) (options : list (string * json)) : json :=
  JObject
    (obj_set (spread (Some result)) "diagnostics"
       (JObject (obj_set (spread (prop result "diagnostics")) "optionsUsed" (JObject options)))).

(** [dynamo.send(new GetCommand(...))], reduced to the item read. *)
Definition dynamoGet (id : string) : M (option json) := fun w =>
  match getFault w with
  | Some e => (Throws e, w)
  | None => (Returns (table w !! id), w)
  end.

(** [dynamo.send(new PutCommand(...))] *)
Definition dynamoPut (id : string) (item : json) : M unit := fun w =>
  match putFault w with
  | Some e => (Throws e, w)
  | None => (Returns tt, withItem id item w)
  end.

(** [cached.Item?.result] when it is truthy. *)
Definition cachedResult (item : option json) : option json :=
  match item ≫= (fun item => prop item "result") with
  | Some stored => if truthy stored then Some stored else None
  | None => None
  end.

(** [new Date().toISOString()] *)
Definition toISOString : M string := fun w => (Returns (clock w), w).

(** The functions of the host that the handler calls. *)
Record Platform : Type := {
  localeCompare : string -> string -> comparison;
  sha256_hex : string -> string;
  (** [new URL(path, 'https://placeholder').pathname]; [None] when the
      constructor throws *)
  URL_pathname : string -> option string;
  StringToNumber : string -> option Z;
  (** [JSON.parse(text)]; [None] is a [SyntaxError] *)
  JSON_parse : string -> option json;
  Math_random : nat -> nat
}.

Section Handler.
Variable host : Platform.

Definition normalisePath (path : option string) : string :=
  match path with
  | None | Some EmptyString => "/"
  | Some path =>
      match URL_pathname host path with
      | Some pathname => orSlash (stripTrailingSlashes pathname)
      | None => orSlash (stripTrailingSlashes path)
      end
  end.

Definition parseJson (body : string) : outcome json :=
  if String.eqb body EmptyString then Throws (ClientError "Request body is required.")
  else
    match JSON_parse host body with
    | None => Throws (ClientError "Request body contains invalid JSON.")
    | Some parsed =>
        if negb (truthy parsed && isObjectLike parsed)
        then Throws (ClientError "JSON payload must be an object.")
        else Returns parsed
    end.

(** [algorithm.prepare(rawInput, rawOptions)] *)
Definition prepare (rawInput rawOptions : json)
  : outcome (KargerInput * list (string * json)) :=
  input ← parseInput rawInput;
  options ← parseOptions (StringToNumber host) optionDefinitions rawOptions;
  Returns (input, options).

Definition handleListAlgorithms : M LambdaResponse :=
  mret (buildResponse 200 (JSON_stringify (JObject [("algorithms", JArray [getMetadata])]))).

Definition handleRunAlgorithm (body : string) : M LambdaResponse :=
  match parseJson body with
  | Throws (ClientError message) | Throws (OtherError message) =>
      mret (buildResponse 400 (messageBody message))
  | Throws NotAnError => mret (buildResponse 400 (messageBody "Invalid JSON payload"))
  | Returns payload =>
      match prop payload "algorithmId" with
      | Some (JString (String c rest)) =>
          let algorithmId := String c rest in
          if negb (registry_has algorithmId) then
            mret (buildResponse 404
                    (messageBody (cat ["Algorithm with id "; dq; algorithmId; dq;
                                       " was not found."])))
          else
            let rawInput := default (JObject []) (nullish (prop payload "input") None) in
            let rawOptions := default (JObject []) (nullish (prop payload "options") None) in
            prepared ← lift (prepare rawInput rawOptions);
            let cacheKey :=
              createCacheKey (localeCompare host) (sha256_hex host) algorithmId
                (inputJson (fst prepared)) (JObject (snd prepared)) in
            cached ← dynamoGet cacheKey;
            match cachedResult cached with
            | Some stored =>
                let result := augmentResultWithOptions stored (snd prepared) in
                mret (buildResponse 200
                        (JSON_stringify
                           (JObject [("algorithmId", JString algorithmId);
                                     ("cached", JBool true);
                                     ("result", result)])))
            | None =>
                runResult ← execute (Math_random host) (fst prepared) (snd prepared);
                let result := augmentResultWithOptions runResult (snd prepared) in
                createdAt ← toISOString;
                _ ← dynamoPut cacheKey
                      (JObject [("id", JString cacheKey);
                                ("algorithmId", JString algorithmId);
                                ("createdAt", JString createdAt);
                                ("result", result)]);
                mret (buildResponse 200
                        (JSON_stringify
                           (JObject [("algorithmId", JString algorithmId);
                                     ("cached", JBool false);
                                     ("result", result)])))
            end
      | _ =>
          mret (buildResponse 400
                  (messageBody (cat ["Missing required property "; dq; "algorithmId"; dq; "."])))
      end
  end.

(** The [catch] block of [handler]. *)
Definition respondToError (error : thrown) : LambdaResponse :=
  match error with
  | ClientError message => buildResponse 400 (messageBody message)
  | OtherError message => buildResponse 500 (messageBody message)
  | NotAnError => buildResponse 500 (messageBody "Internal server error")
  end.

(** The [try] block of [handler]. *)
Definition route (method path : string) (event : LambdaFunctionUrlEvent) : M LambdaResponse :=
  if String.eqb method "GET" && String.eqb path "/algorithms" then handleListAlgorithms
  else if String.eqb method "POST" && String.eqb path "/run"
  then handleRunAlgorithm (default EmptyString (body event))
  else if String.eqb method "GET" && String.eqb path "/health"
  then mret (buildResponse 200 (JSON_stringify (JObject [("status", JString "ok")])))
  else mret (buildResponse 404 (messageBody "Not Found")).

Definition handler (event : LambdaFunctionUrlEvent) (w : World) : LambdaResponse * World :=
  let method := default "GET" (method event) in
  let path := normalisePath (path event) in
  if String.eqb method "OPTIONS" then (buildResponse 204 EmptyString, w)
  else
    match route method path event w with
    | (Returns response, w') => (response, w')
    | (Throws error, w') => (respondToError error, w')
    end.
End Handler.


(** ** The registry in general ([AlgorithmRegistry]) and [run] *)

(** An algorithm as the registry sees it: its [id] and what
    [getMetadata()] returns. *)
Record Algorithm : Type := {
  algorithm_id : string;
  algorithm_metadata : json
}.

(** [Map<string, AlgorithmBase>]: the entries in insertion order. *)
Definition AlgorithmRegistry : Type := list (string * Algorithm).

Definition registry_get (algorithms : AlgorithmRegistry) (id : string) : option Algorithm :=
  snd <$> find (fun entry => String.eqb (fst entry) id) algorithms.

(** [register(algorithm)]; the id is not in the map when [set] is
    reached, so the entry goes last. *)
Definition register (algorithm : Algorithm) (algorithms : AlgorithmRegistry)
  : outcome AlgorithmRegistry :=
  match registry_get algorithms (algorithm_id algorithm) with
  | Some _ =>
      Throws (OtherError
        (cat ["Algorithm with id "; algorithm_id algorithm; " is already registered."]))
  | None => Returns (algorithms ++ [(algorithm_id algorithm, algorithm)])%list
  end.

Definition registry_list (algorithms : AlgorithmRegistry) : list json :=
  map (fun entry => algorithm_metadata (snd entry)) algorithms.

Definition kargerMinCut : Algorithm :=
  {| algorithm_id := karger_id; algorithm_metadata := getMetadata |}.

(** The registry after start-up. *)
Definition registry : outcome AlgorithmRegistry := register kargerMinCut [].

(** [algorithm.runWithPrepared(prepared)] and [algorithm.run(rawInput, rawOptions)] *)
Definition runWithPrepared (host : Platform) (prepared : KargerInput * list (string * json))
  : M json :=
  execute (Math_random host) (fst prepared) (snd prepared).

Definition run (host : Platform) (rawInput rawOptions : json) : M json :=
  prepared ← lift (prepare host rawInput rawOptions);
  runWithPrepared host prepared.


(** * Notions used in the statements *)

(** ** Runs of the algorithm *)

(** Every endpoint in the working edge list is a key of the component
    map. *)
Definition labelsKnown (components : ComponentMap) (edges : list (string * string)) : Prop :=
  ∀ e, e ∈ edges -> Map_has components (fst e) = true ∧ Map_has components (snd e) = true.

(** What [parseInput] guarantees of its result: the vertices are
    pairwise distinct, there are at least two of them, and every
    endpoint of an edge is among them. *)
Definition validInput (input : KargerInput) : Prop :=
  NoDup (vertices input)
  ∧ (2 <= length (vertices input))%nat
  ∧ edges input ≠ []
  ∧ ∀ e, e ∈ edges input -> fst e ∈ vertices input ∧ snd e ∈ vertices input.



(** [n] slashes. *)
Fixpoint slashes (n : nat) : string :=
  match n with
  | O => EmptyString
  | S n' => String "/" (slashes n')
  end.

(** ** Cuts *)

(** An edge crosses between two partitions when one endpoint lies in
    one and the other endpoint in the other. *)
Definition crosses (partA partB : list string) (edge : string * string) : Prop :=
  (fst edge ∈ partA ∧ snd edge ∈ partB) ∨ (fst edge ∈ partB ∧ snd edge ∈ partA).

#[global] Instance crosses_dec partA partB edge : Decision (crosses partA partB edge).
Proof. unfold crosses. apply _. Defined.

(** The number of edges of a list that cross between two partitions. *)
Definition crossingEdges (partA partB : list string) (edges : list (string * string)) : nat :=
  length (filter (crosses partA partB) edges).

(** ** Groups as a partition of the vertices *)

Fixpoint containsUnit (c : ascii) (s : string) : bool :=
  match s with
  | EmptyString => false
  | String c' rest => Ascii.eqb c' c || containsUnit c rest
  end.

(** A name without the separator that merged labels carry. *)
Definition plainName (s : string) : Prop := containsUnit "#" s = false.

(** The label of a group merged at [step] out of plain names. *)
Definition mergedLabelAt (step : nat) (k : string) : Prop :=
  ∃ stem at_step, plainName stem ∧ (at_step <= step)%nat
                  ∧ k = stem +:+ String "#" (pretty at_step).

(** The groups of the component map partition the vertex list: the
    keys are pairwise distinct, no group is empty, and the groups
    together hold every vertex exactly once. *)
Record partitionOf (vertices : list string) (components : ComponentMap) : Prop := {
  keys_distinct : NoDup (Map_keys components);
  groups_nonempty : ∀ g, g ∈ Map_values components -> g ≠ [];
  groups_cover : concat (Map_values components) ≡ₚ vertices
}.

(** What holds of the state of the loop of [singleRun] after [step]
    iterations, on a graph whose vertex names are plain. *)
Record loopInvariant (vertices : list string) (step : nat)
    (components : ComponentMap) (edges : list (string * string)) : Prop := {
  inv_partition : partitionOf vertices components;
  inv_labels : labelsKnown components edges;
  inv_keys : ∀ k g, (k, g) ∈ components -> (g = [k] ∧ plainName k) ∨ mergedLabelAt step k;
  inv_size : (2 <= length components)%nat
}.

(** ** The rule for rejected inputs *)

Definition isPresent (value : option json) : bool :=
  match value with Some _ => true | None => false end.

Definition isNonNull (value : option json) : bool :=
  match value with Some JNull | None => false | Some _ => true end.

(** The endpoint an edge object yields under three property names: the
    first name with a value other than [null], else the second such,
    else whatever the third holds. *)
Definition endpointValue (edge : json) (first second third : string) : option json :=
  nullish (nullish (prop edge first) (prop edge second)) (prop edge third).

(** An edge has two endpoints when it is an array of two elements, or
    an object in which [from] or [source] is not [null] or [u] is
    present, and [to] or [target] is not [null] or [v] is present. *)
Definition destructurable (edge : json) : bool :=
  match edge with
  | JArray [_; _] => true
  | JObject _ =>
      (isNonNull (prop edge "from") || isNonNull (prop edge "source")
       || isPresent (prop edge "u"))
      && (isNonNull (prop edge "to") || isNonNull (prop edge "target")
          || isPresent (prop edge "v"))
  | _ => false
  end.

(** The text of a value that can be converted to a string. *)
Definition textOf (value : json) : string :=
  match JS_String value with
  | Returns text => text
  | Throws _ => EmptyString
  end.

Definition convertible (value : json) : bool :=
  match JS_String value with
  | Returns _ => true
  | Throws _ => false
  end.

(** The two values that a destructurable edge gives as its endpoints. *)
Definition endpointValuesOf (edge : json) : list json :=
  match edge with
  | JArray [from; to] => [from; to]
  | _ =>
      match endpointValue edge "from" "source" "u", endpointValue edge "to" "target" "v" with
      | Some from, Some to => [from; to]
      | _, _ => []
      end
  end.


(** The endpoints of a destructurable edge, as strings. *)
Definition endpointsOf (edge : json) : list string := map textOf (endpointValuesOf edge).

Definition listedVerticesOf (raw : json) : list json :=
  match prop raw "vertices" with
  | Some (JArray vs) => vs
  | _ => []
  end.

Definition explicitVerticesOf (raw : json) : list string := map textOf (listedVerticesOf raw).

(** Every endpoint and every listed vertex of an input can be converted
    to a string: none is an object with an entry of its own under
    [toString], or an array that holds one. *)
Definition allConvertible (raw : json) : bool :=
  forallb convertible
    (match prop raw "edges" with
     | Some (JArray rawEdges) => flat_map endpointValuesOf rawEdges
     | _ => []
     end ++ listedVerticesOf raw).

(** The vertices of an input, as a finite set. *)
Definition vertexSet (raw : json) (rawEdges : list json) : gset string :=
  list_to_set (explicitVerticesOf raw ++ flat_map endpointsOf rawEdges).

(** The inputs that are rejected with a client error, among those whose
    endpoints and vertices can be converted to strings: those that are
    not objects, those whose [edges] is not a non-empty array, those
    with an edge that is not destructurable, and those with fewer than
    two distinct vertices. *)
Definition inputRejected (raw : json) : bool :=
  negb (isObjectLike raw)
  || match prop raw "edges" with
     | Some (JArray (e :: es)) =>
         negb (forallb destructurable (e :: es))
         || (size (vertexSet raw (e :: es)) <? 2)%nat
     | _ => true
     end.

(** The rule as the specification words it, for a reading [supplied] of
    when a property of an edge object counts as supplied: an edge has
    two endpoints when it is an array of two elements or an object
    supplying one of [from], [source], [u] and one of [to], [target],
    [v]. *)
Section ClaimedRule.
Variable supplied : option json -> bool.

Definition claimedEndpoint (edge : json) (names : list string) : option string :=
  match filter (fun value => supplied value = true) (map (prop edge) names) with
  | Some value :: _ => Some (textOf value)
  | _ => None
  end.

Definition claimedEndpoints (edge : json) : option (list string) :=
  match edge with
  | JArray [from; to] => Some [textOf from; textOf to]
  | JObject _ =>
      match claimedEndpoint edge ["from"; "source"; "u"],
            claimedEndpoint edge ["to"; "target"; "v"] with
      | Some from, Some to => Some [from; to]
      | _, _ => None
      end
  | _ => None
  end.

Definition claimedRejected (raw : json) : bool :=
  match prop raw "edges" with
  | Some (JArray (e :: es)) =>
      match mapM claimedEndpoints (e :: es) with
      | Some endpoints =>
          (size (list_to_set (C := gset string) (explicitVerticesOf raw ++ concat endpoints)) <? 2)%nat
      | None => true
      end
  | _ => true
  end.
End ClaimedRule.

(** ** Values up to the order of object keys *)

(** Structural equality up to the order in which the entries of objects
    are enumerated. *)
#[warnings="-register-all"]
Inductive jsonEquiv : json -> json -> Prop :=
| equiv_null : jsonEquiv JNull JNull
| equiv_bool b : jsonEquiv (JBool b) (JBool b)
| equiv_number n : jsonEquiv (JNumber n) (JNumber n)
| equiv_string s : jsonEquiv (JString s) (JString s)
| equiv_array xs ys :
    Forall2 jsonEquiv xs ys -> jsonEquiv (JArray xs) (JArray ys)
| equiv_object es fs gs :
    es ≡ₚ fs ->
    Forall2 (fun e g => fst e = fst g ∧ jsonEquiv (snd e) (snd g)) fs gs ->
    jsonEquiv (JObject es) (JObject gs).

(** Every object inside the value has pairwise distinct keys. *)
Fixpoint uniqueKeys (value : json) : bool :=
  match value with
  | JArray items => forallb uniqueKeys items
  | JObject entries =>
      bool_decide (NoDup (map fst entries))
      && forallb (fun kv => uniqueKeys (snd kv)) entries
  | _ => true
  end.

Definition isGt (c : comparison) : bool :=
  match c with Gt => true | _ => false end.

(** The collation is a consistent comparator on [keys]: swapping the
    arguments reverses the result, and the order is transitive. *)
Definition consistentOn (lc : string -> string -> comparison) (keys : list string) : bool :=
  forallb (fun a =>
    forallb (fun b =>
      bool_decide (lc b a = CompOpp (lc a b))
      && forallb (fun c => isGt (lc a b) || isGt (lc b c) || negb (isGt (lc a c))) keys)
      keys) keys.

(** No two different keys among [keys] compare equal. *)
Definition distinguishes (lc : string -> string -> comparison) (keys : list string) : bool :=
  forallb (fun a =>
    forallb (fun b => match lc a b with Eq => String.eqb a b | _ => true end) keys) keys.

(** Every object inside the value has pairwise distinct keys, which the
    collation orders consistently and tells apart. *)
Fixpoint keysOrdered (lc : string -> string -> comparison) (value : json) : bool :=
  match value with
  | JArray items => forallb (keysOrdered lc) items
  | JObject entries =>
      bool_decide (NoDup (map fst entries))
      && consistentOn lc (map fst entries)
      && distinguishes lc (map fst entries)
      && forallb (fun kv => keysOrdered lc (snd kv)) entries
  | _ => true
  end.

(** The order of the collation on entries, by their keys. *)
Definition entryLe {V : Type} (lc : string -> string -> comparison) (a b : string * V) : Prop :=
  lc (fst a) (fst b) ≠ Gt.

(** The same order, between entries of a given list only. *)
Definition entryLeWithin {V : Type} (lc : string -> string -> comparison)
    (entries : list (string * V)) (a b : string * V) : Prop :=
  a ∈ entries ∧ b ∈ entries ∧ entryLe lc a b.

(** ** Validated options *)



(** ** The best run *)

(** The run of a history that [execute] keeps: a run with the least cut
    size, and among those the earliest. *)
Definition firstBest (history : list (nat * nat)) (iteration cut : nat) : Prop :=
  (iteration, cut) ∈ history
  ∧ ∀ r, r ∈ history -> (cut <= snd r)%nat ∧ (snd r = cut -> (iteration <= fst r)%nat).

(** The variables of the loop of [execute] before its first iteration. *)
Definition noRunYet : Best :=
  {| bestCut := None; bestPartitions := ([], []); bestIteration := 0%nat; runHistory := [] |}.

(** [bestCut] as a number: [Number.POSITIVE_INFINITY] is above every
    cut size [bound]. *)
Definition cutAtMost (best : Best) (bound : nat) : Prop :=
  match bestCut best with Some c => (c <= bound)%nat | None => False end.

(** What the loop of [execute] maintains. *)
Record bestInvariant (input : KargerInput) (iteration : nat) (best : Best) : Prop := {
  history_numbered : map fst (runHistory best) = seq 1 (iteration - 1);
  best_first :
    match bestCut best with
    | None => runHistory best = []
    | Some cut =>
        firstBest (runHistory best) (bestIteration best) cut
        ∧ cut = crossingEdges (fst (bestPartitions best)) (snd (bestPartitions best))
                  (edges input)
    end
}.

(** ** Connected graphs *)

(** A graph is connected when every split of its vertices into two
    non-empty sides is crossed by an edge. *)
Definition connected (input : KargerInput) : Prop :=
  ∀ side : list string,
    (∃ v, v ∈ vertices input ∧ v ∈ side) ->
    (∃ v, v ∈ vertices input ∧ v ∉ side) ->
    ∃ e, e ∈ edges input
         ∧ ((fst e ∈ side ∧ snd e ∉ side) ∨ (snd e ∈ side ∧ fst e ∉ side)).

(** The working edge list of the loop of [singleRun] keeps, under the
    keys of their groups, all edges of the input that run between two
    groups. *)
Definition crossingKept (original : list (string * string)) (components : ComponentMap)
    (working : list (string * string)) : Prop :=
  ∀ a b ka ga kb gb,
    (a, b) ∈ original ->
    (ka, ga) ∈ components -> a ∈ ga ->
    (kb, gb) ∈ components -> b ∈ gb ->
    ka ≠ kb ->
    (ka, kb) ∈ working.

(** A proper cut of a graph: two non-empty partitions that together
    hold every vertex exactly once, with the number of edges that run
    between them, which is not 0. *)
Definition properCut (input : KargerInput) (cut : nat)
    (partitions : list string * list string) : Prop :=
  fst partitions ≠ [] ∧ snd partitions ≠ []
  ∧ (fst partitions ++ snd partitions)%list ≡ₚ vertices input
  ∧ cut = crossingEdges (fst partitions) (snd partitions) (edges input)
  ∧ (1 <= cut)%nat.

(** ** Responses and the store *)

(** The status codes the handler can answer with. *)
Definition knownStatus (code : Z) : Prop :=
  code = 200 ∨ code = 204 ∨ code = 400 ∨ code = 404 ∨ code = 500.

(** What a request may change of the world: it may draw random numbers,
    and it may write one item, under a key at which the table held no
    usable result; the faults of the store and the clock stay. *)
Record requestFrame (w w' : World) : Prop := {
  frame_getFault : getFault w' = getFault w;
  frame_putFault : putFault w' = putFault w;
  frame_clock : clock w' = clock w;
  frame_random : (randomCalls w <= randomCalls w')%nat;
  frame_table :
    table w' = table w
    ∨ ∃ id item,
        table w' = <[id := item]> (table w)
        ∧ cachedResult (table w !! id) = None
        ∧ prop item "id" = Some (JString id)
        ∧ prop item "createdAt" = Some (JString (clock w))
}.

(** The path that is stripped of its trailing slashes: what URL
    resolution makes of the request path, the request path itself when
    resolution fails, and nothing when the request has no path. *)
Definition resolvedPath (host : Platform) (path : option string) : string :=
  match path with
  | None | Some EmptyString => EmptyString
  | Some path => default path (URL_pathname host path)
  end.

(** The last code unit of a string. *)
Fixpoint lastUnit (s : string) : option ascii :=
  match s with
  | EmptyString => None
  | String c EmptyString => Some c
  | String _ rest => lastUnit rest
  end.

(** ** Canonical form and the hashed text *)

(** A value with the entries of every object inside it sorted by key,
    as [stableStringify] sorts them. *)
Fixpoint sortKeys (localeCompare : string -> string -> comparison) (value : json) : json :=
  match value with
  | JArray items => JArray (map (sortKeys localeCompare) items)
  | JObject entries =>
      JObject (sortedEntries localeCompare
                 (map (fun kv => (fst kv, sortKeys localeCompare (snd kv))) entries))
  | _ => value
  end.

Definition hexValue (c : ascii) : option N :=
  let n := N_of_ascii c in
  if (48 <=? n)%N && (n <=? 57)%N then Some (n - 48)%N
  else if (97 <=? n)%N && (n <=? 102)%N then Some (n - 87)%N
  else None.

(** Reads a JSON string literal without its opening quote: the string
    it denotes and the text after its closing quote. *)
Fixpoint readLiteral (text : string) : option (string * string) :=
  match text with
  | EmptyString => None
  | String c rest =>
      if Ascii.eqb c dquote then Some (EmptyString, rest)
      else if Ascii.eqb c backslash then
        match rest with
        | String e rest' =>
            let continue (unit : ascii) (after : option (string * string)) :=
              match after with
              | Some (s, tail) => Some (String unit s, tail)
              | None => None
              end in
            if Ascii.eqb e "b" then continue "008"%char (readLiteral rest')
            else if Ascii.eqb e "t" then continue "009"%char (readLiteral rest')
            else if Ascii.eqb e "n" then continue "010"%char (readLiteral rest')
            else if Ascii.eqb e "f" then continue "012"%char (readLiteral rest')
            else if Ascii.eqb e "r" then continue "013"%char (readLiteral rest')
            else if Ascii.eqb e dquote then continue dquote (readLiteral rest')
            else if Ascii.eqb e backslash then continue backslash (readLiteral rest')
            else if Ascii.eqb e "u" then
              match rest' with
              | String "0" (String "0" (String high (String low rest''))) =>
                  match hexValue high, hexValue low with
                  | Some h, Some l => continue (ascii_of_N (16 * h + l)) (readLiteral rest'')
                  | _, _ => None
                  end
              | _ => None
              end
            else None
        | EmptyString => None
        end
      else
        match readLiteral rest with
        | Some (s, tail) => Some (String c s, tail)
        | None => None
        end
  end.

(** ** The text of an encoded array *)

(** What follows the first element of an encoded array: each further
    element after a comma, then the closing bracket and the rest of the
    text. *)
Fixpoint arrayTail {A : Type} (enc : A -> string) (items : list A) (rest : string) : string :=
  match items with
  | [] => String "]" rest
  | item :: items' => String "," (enc item +:+ arrayTail enc items' rest)
  end.

(** What follows the opening bracket of an encoded array. *)
Definition arrayBody {A : Type} (enc : A -> string) (items : list A) (rest : string) : string :=
  match items with
  | [] => String "]" rest
  | item :: items' => enc item +:+ arrayTail enc items' rest
  end.

(** The canonical encoding of an edge. *)
Definition edgeText (edge : string * string) : string :=
  "[" +:+ quoteJSONString (fst edge) +:+ "," +:+ quoteJSONString (snd edge) +:+ "]".


(** * Worked examples: host and data *)

(** ** A host for the worked examples

    The examples below run the handler on a host whose functions are
    fixed as follows.  Each stands for the platform function on the
    inputs the examples use, as described; the general theorems hold for
    every host. *)

(** Code units that the root collation ignores (the C0 controls other
    than tab, line feed, vertical tab, form feed and carriage return,
    and delete). *)
Definition ignorable (c : ascii) : bool :=
  let n := N_of_ascii c in
  (n <=? 8)%N || ((14 <=? n)%N && (n <=? 31)%N) || (n =? 127)%N.

Definition isUpperCase (c : ascii) : bool :=
  let n := N_of_ascii c in (65 <=? n)%N && (n <=? 90)%N.

(** The collation elements of a string: for each code unit that is not
    ignored, its primary weight (the letter without its case) and its
    case. *)
Fixpoint collationElements (s : string) : list (N * bool) :=
  match s with
  | EmptyString => []
  | String c rest =>
      if ignorable c then collationElements rest
      else (N_of_ascii (toLowerCaseUnit c), isUpperCase c) :: collationElements rest
  end.

Fixpoint compareLists {A : Type} (cmp : A -> A -> comparison) (l1 l2 : list A) : comparison :=
  match l1, l2 with
  | [], [] => Eq
  | [], _ :: _ => Lt
  | _ :: _, [] => Gt
  | x :: l1', y :: l2' =>
      match cmp x y with
      | Eq => compareLists cmp l1' l2'
      | c => c
      end
  end.

(** [a.localeCompare(b)] on strings of ASCII letters, digits and
    ignored controls: alphabetical order first, with digits before
    letters; between strings with the same letters, lower case before
    upper case at the first difference. *)
Definition collate (a b : string) : comparison :=
  let ea := collationElements a in
  let eb := collationElements b in
  match compareLists N.compare (map fst ea) (map fst eb) with
  | Eq => compareLists Bool.compare (map snd ea) (map snd eb)
  | c => c
  end.

Definition isDigit (c : ascii) : bool :=
  let n := N_of_ascii c in (48 <=? n)%N && (n <=? 57)%N.

Fixpoint digitsValue (s : string) (acc : Z) : option Z :=
  match s with
  | EmptyString => Some acc
  | String c rest =>
      if isDigit c then digitsValue rest (10 * acc + Z.of_N (N_of_ascii c) - 48) else None
  end.

(** [Number(text)] on plain decimal integers, with white space around
    them allowed and the empty text read as zero. *)
Definition decimalToNumber (text : string) : option Z :=
  match trim text with
  | EmptyString => Some 0
  | String "-" (String c rest) => Z.opp <$> digitsValue (String c rest) 0
  | digits => digitsValue digits 0
  end.

Definition isPlainPathUnit (c : ascii) : bool :=
  let n := N_of_ascii c in
  isDigit c || ((97 <=? n)%N && (n <=? 122)%N) || isUpperCase c || Ascii.eqb c "/".

Fixpoint allUnits (p : ascii -> bool) (s : string) : bool :=
  match s with
  | EmptyString => true
  | String c rest => p c && allUnits p rest
  end.

(** The path name of a URL whose path starts with one slash and is made
    of ASCII letters, digits and slashes: the path itself. *)
Definition plainPathname (path : string) : option string :=
  match path with
  | String "/" (String "/" _) => None
  | String "/" _ => if allUnits isPlainPathUnit path then Some path else None
  | _ => None
  end.

(** The host of the examples.  [requests] are the values that the body
    texts [JSON_stringify request] parse to; the digest is the text
    itself; every random index is the first one. *)
Definition exampleHostFor (requests : list json) : Platform :=
  {| localeCompare := collate;
     sha256_hex := fun text => text;
     URL_pathname := plainPathname;
     StringToNumber := decimalToNumber;
     JSON_parse := fun text =>
       find (fun request => String.eqb text (JSON_stringify request)) requests;
     Math_random := fun _ => 0%nat |}.

Definition exampleHost (request : json) : Platform := exampleHostFor [request].

Definition emptyWorld : World :=
  {| table := ∅; getFault := None; putFault := None; randomCalls := 0; clock := "2024-01-01T00:00:00.000Z" |}.

(** ** Requests, worlds and graphs *)

Definition postRun (request : json) : LambdaFunctionUrlEvent :=
  {| method := Some "POST"; path := Some "/run"; body := Some (JSON_stringify request) |}.

(** A request for the minimum cut of the graph with the one edge A-B. *)
Definition edgeAB : json :=
  JObject [("algorithmId", JString karger_id);
           ("input", JObject [("edges", JArray [JArray [JString "A"; JString "B"]])])].

Definition defaultOptions : list (string * json) := [("iterations", JNumber 40)].

(** A world whose table rejects every read with the given error. *)
Definition readFails (e : thrown) : World :=
  {| table := ∅; getFault := Some e; putFault := None;
     randomCalls := 0; clock := "2024-01-01T00:00:00.000Z" |}.

(** A result stored earlier for [edgeAB], with fields of its own. *)
Definition storedEntries : list (string * json) :=
  [("output", JObject [("minCut", JNumber 1)]);
   ("summary", JString "kept as stored");
   ("diagnostics", JObject [("iterations", JNumber 7);
                            ("optionsUsed", JString "stale");
                            ("note", JString "kept as stored")])].

Definition storedResult : json := JObject storedEntries.




(** Two inputs with [null] under an endpoint name. *)
Definition nullFromInput : json :=
  JObject [("edges", JArray [JObject [("from", JNull); ("to", JString "B")];
                             JArray [JString "A"; JString "B"]])].

Definition nullUInput : json :=
  JObject [("edges", JArray [JObject [("u", JNull); ("v", JString "B")]])].

(** An input whose second endpoint is an object with an entry of its
    own under [toString], and the run request for it. *)
Definition unconvertibleInput : json :=
  JObject [("edges", JArray [JArray [JString "A"; JObject [("toString", JNumber 1)]]])].

Definition unconvertibleRequest : json :=
  JObject [("algorithmId", JString karger_id); ("input", unconvertibleInput)].

(** Two objects with the keys [a] and [B], and two with a key that
    differs from another by an ignored control only. *)
Definition mixedCaseObject : json := JObject [("B", JNumber 1); ("a", JNumber 2)].

Definition keyWithControl : string := String "a" (String "001" EmptyString).

Definition tiedObject : json := JObject [("a", JNumber 1); (keyWithControl, JNumber 2)].
Definition tiedObjectSwapped : json := JObject [(keyWithControl, JNumber 2); ("a", JNumber 1)].

(** The example request with the keys of every object in another order,
    and one edge given as an object. *)
Definition exampleInputReordered : json :=
  JObject [("edges", JArray [JObject [("to", JString "B"); ("from", JString "A")];
                             JArray [JString "A"; JString "C"]]);
           ("vertices", JArray [JString "A"; JString "B"; JString "C"])].

Definition exampleInputOrdered : json :=
  JObject [("vertices", JArray [JString "A"; JString "B"; JString "C"]);
           ("edges", JArray [JObject [("from", JString "A"); ("to", JString "B")];
                             JArray [JString "A"; JString "C"]])].

Definition orderedRequest : json :=
  JObject [("algorithmId", JString karger_id); ("input", exampleInputOrdered)].

Definition reorderedRequest : json :=
  JObject [("input", exampleInputReordered); ("algorithmId", JString karger_id)].

(** A graph with a vertex whose name is the label that merging A and B
    in the first step produces. *)
Definition collidingInput : json :=
  JObject [("vertices", JArray [JString "A"; JString "B"; JString "A|B#1"]);
           ("edges", JArray [JArray [JString "A"; JString "B"]])].

Definition collidingGraph : KargerInput :=
  {| vertices := ["A"; "B"; "A|B#1"]; edges := [("A", "B")] |}.

(** The path A - B - C - A|B#1. *)
Definition collidingPathInput : json :=
  JObject [("vertices", JArray [JString "A"; JString "B"; JString "A|B#1"; JString "C"]);
           ("edges", JArray [JArray [JString "A"; JString "B"];
                             JArray [JString "B"; JString "C"];
                             JArray [JString "A|B#1"; JString "C"]])].

Definition collidingPath : KargerInput :=
  {| vertices := ["A"; "B"; "A|B#1"; "C"];
     edges := [("A", "B"); ("B", "C"); ("A|B#1", "C")] |}.

(** A graph with two parallel edges between B and C. *)
Definition parallelGraph : KargerInput :=
  {| vertices := ["A"; "B"; "C"]; edges := [("A", "B"); ("B", "C"); ("B", "C")] |}.

(** * Properties *)

(** ** Routing *)

Lemma stripTrailingSlashes_slashes n : stripTrailingSlashes (slashes n) = EmptyString.
Proof. induction n as [|n IH]; simpl; [done|]. by rewrite IH. Qed.

Lemma stripTrailingSlashes_app_slashes s n :
  stripTrailingSlashes (s +:+ slashes n) = stripTrailingSlashes s.
Proof.
  induction s as [|c s IH]; simpl.
  - apply stripTrailingSlashes_slashes.
  - by rewrite IH.
Qed.

Lemma normalisePath_some host p :
  p ≠ EmptyString ->
  normalisePath host (Some p)
  = orSlash (stripTrailingSlashes (default p (URL_pathname host p))).
Proof.
  intros Hp. unfold normalisePath. destruct p as [|c p]; [done|].
  by destruct (URL_pathname host (String c p)).
Qed.

Lemma lastUnit_stripTrailingSlashes s : lastUnit (stripTrailingSlashes s) ≠ Some "/"%char.
Proof.
  induction s as [|c s IH]; simpl; [done|].
  destruct (stripTrailingSlashes s) as [|c' rest] eqn:Hs.
  - destruct (Ascii.eqb_spec c "/"); simpl; congruence.
  - exact IH.
Qed.

(** What is stripped is a run of slashes. *)
Lemma stripTrailingSlashes_run s : ∃ k, s = stripTrailingSlashes s +:+ slashes k.
Proof.
  induction s as [|c s [k IH]]; [by exists 0%nat|]. cbn [stripTrailingSlashes].
  destruct (stripTrailingSlashes s) as [|c' rest] eqn:Hs.
  - destruct (Ascii.eqb_spec c "/") as [->|_].
    + exists (S k). cbn [slashes]. by rewrite IH at 1.
    + exists k. by rewrite IH at 1.
  - exists k. by rewrite IH at 1.
Qed.

Lemma normalisePath_resolved host p :
  normalisePath host p = orSlash (stripTrailingSlashes (resolvedPath host p)).
Proof.
  unfold normalisePath, resolvedPath. destruct p as [[|c p]|]; try done.
  by destruct (URL_pathname host (String c p)).
Qed.

(** C9 (as amended).  For every request, the route is matched against
    the resolved path of the request (what URL resolution makes of the
    request path, the request path itself when resolution fails, the
    empty text when the path is absent or empty) with the whole run of
    slashes at its end removed, and against the root path when nothing
    is left.  Hence two requests whose resolved paths differ only in the
    number of slashes at the end, and whose method and body are the
    same, are routed alike. *)
Theorem C9_trailing_slashes_all_stripped
    (host : Platform) (event event' : LambdaFunctionUrlEvent) (n : nat) :
  (∃ stripped k,
      resolvedPath host (path event) = stripped +:+ slashes k
      ∧ lastUnit stripped ≠ Some "/"%char
      ∧ normalisePath host (path event) = orSlash stripped)
  ∧ (resolvedPath host (path event') = resolvedPath host (path event) +:+ slashes n ->
     method event' = method event ->
     body event' = body event ->
     normalisePath host (path event') = normalisePath host (path event)
     ∧ ∀ w, handler host event' w = handler host event w).
Proof.
  split.
  - destruct (stripTrailingSlashes_run (resolvedPath host (path event))) as [k Hk].
    exists (stripTrailingSlashes (resolvedPath host (path event))), k.
    split; [done|]. split; [apply lastUnit_stripTrailingSlashes|].
    apply normalisePath_resolved.
  - intros Hpath Hm Hb.
    assert (Heq : normalisePath host (path event') = normalisePath host (path event)).
    { by rewrite !normalisePath_resolved, Hpath, stripTrailingSlashes_app_slashes. }
    split; [done|]. intros w. unfold handler, route. by rewrite Heq, Hm, Hb.
Qed.

Lemma C9_trailing_slashes_all_stripped_witness :
  (∃ stripped k,
      resolvedPath (exampleHost JNull) (Some "/run") = stripped +:+ slashes k
      ∧ lastUnit stripped ≠ Some "/"%char
      ∧ normalisePath (exampleHost JNull) (Some "/run") = orSlash stripped)
  ∧ normalisePath (exampleHost JNull) (Some "/run///")
    = normalisePath (exampleHost JNull) (Some "/run")
  ∧ ∀ w, handler (exampleHost JNull)
           {| method := Some "POST"; path := Some "/run///"; body := None |} w
         = handler (exampleHost JNull)
             {| method := Some "POST"; path := Some "/run"; body := None |} w.
Proof.
  destruct (C9_trailing_slashes_all_stripped (exampleHost JNull)
              {| method := Some "POST"; path := Some "/run"; body := None |}
              {| method := Some "POST"; path := Some "/run///"; body := None |} 3)
    as [H1 H2].
  split; [exact H1|]. apply H2; reflexivity.
Defined.

(** C9 as stated fails: a path with two more slashes after the route
    name still reaches the route. *)
Lemma C9_counterexample_extra_slashes_match :
  normalisePath (exampleHost JNull) (Some "/health//") = "/health"
  ∧ fst (handler (exampleHost JNull)
           {| method := Some "GET"; path := Some "/health//"; body := None |} emptyWorld)
    = buildResponse 200 (JSON_stringify (JObject [("status", JString "ok")])).
Proof. split; reflexivity. Qed.

(** ** Failures *)

(** C8 (as amended).  Every failure that is not a client error gives
    status 500 with a body of the form [{message}]; the message is the
    failing error's own message whenever the thrown value is an error,
    and the fixed text only for a thrown value that is not an error. *)
Theorem C8_internal_failure_is_500_with_own_message
    (host : Platform) (event : LambdaFunctionUrlEvent) (w w' : World) (e : thrown) :
  default "GET" (method event) ≠ "OPTIONS" ->
  route host (default "GET" (method event)) (normalisePath host (path event)) event w
  = (Throws e, w') ->
  (∀ message, e ≠ ClientError message) ->
  handler host event w
  = (buildResponse 500
       (messageBody match e with
                    | OtherError message => message
                    | _ => "Internal server error"
                    end), w').
Proof.
  intros Hm Hroute Hnot. unfold handler.
  destruct (String.eqb_spec (default "GET" (method event)) "OPTIONS") as [Heq|_]; [done|].
  rewrite Hroute. destruct e as [message| |]; [by exfalso; eapply Hnot | done | done].
Qed.

Lemma C8_internal_failure_is_500_with_own_message_witness :
  handler (exampleHost edgeAB) (postRun edgeAB)
    (readFails (OtherError "Requested resource not found"))
  = (buildResponse 500 (messageBody "Requested resource not found"),
     readFails (OtherError "Requested resource not found")).
Proof.
  apply (C8_internal_failure_is_500_with_own_message (exampleHost edgeAB) (postRun edgeAB)
           (readFails (OtherError "Requested resource not found"))
           (readFails (OtherError "Requested resource not found"))
           (OtherError "Requested resource not found")).
  - vm_compute. discriminate.
  - vm_compute. reflexivity.
  - intros message. discriminate.
Defined.

(** C8 as stated fails: when the table rejects the read, the body of the
    500 response carries the text of that error, and a different error
    text gives a different body. *)
Lemma C8_counterexample_error_text_exposed :
  responseBody (fst (handler (exampleHost edgeAB) (postRun edgeAB)
                       (readFails (OtherError "Requested resource not found"))))
  = messageBody "Requested resource not found"
  ∧ responseBody (fst (handler (exampleHost edgeAB) (postRun edgeAB)
                         (readFails (OtherError "The security token is expired"))))
    = messageBody "The security token is expired"
  ∧ messageBody "Requested resource not found" ≠ messageBody "The security token is expired".
Proof. repeat split; vm_compute; try reflexivity. discriminate. Qed.

(** ** Objects *)

Lemma obj_get_obj_set_eq entries k v : obj_get (obj_set entries k v) k = Some v.
Proof.
  induction entries as [|[k' v'] entries IH]; simpl.
  - by rewrite String.eqb_refl.
  - destruct (String.eqb_spec k' k) as [->|Hne]; simpl.
    + by rewrite String.eqb_refl.
    + by destruct (String.eqb_spec k' k).
Qed.

Lemma obj_get_obj_set_ne entries k v k' :
  k ≠ k' -> obj_get (obj_set entries k v) k' = obj_get entries k'.
Proof.
  intros Hne. induction entries as [|[k0 v0] entries IH]; simpl.
  - by destruct (String.eqb_spec k k').
  - destruct (String.eqb_spec k0 k) as [->|Hk0]; simpl.
    + by destruct (String.eqb_spec k k').
    + by rewrite IH.
Qed.

(** ** Cache hits *)

Lemma handler_post_run host event w :
  method event = Some "POST" ->
  normalisePath host (path event) = "/run" ->
  handler host event w
  = match handleRunAlgorithm host (default EmptyString (body event)) w with
    | (Returns response, w') => (response, w')
    | (Throws error, w') => (respondToError error, w')
    end.
Proof. intros Hm Hp. unfold handler, route. rewrite Hm, Hp. reflexivity. Qed.

Ltac unfold_monad :=
  unfold mbind, mret, M_bind, M_ret, outcome_bind, outcome_ret, obind, lift in *.



(** The stored result of [warmWorld] as it is returned: the stale
    [optionsUsed] is replaced in place, the other entries stay. *)
Example cache_hit_result :
  augmentResultWithOptions storedResult defaultOptions
  = JObject [("output", JObject [("minCut", JNumber 1)]);
             ("summary", JString "kept as stored");
             ("diagnostics", JObject [("iterations", JNumber 7);
                                      ("optionsUsed", JObject defaultOptions);
                                      ("note", JString "kept as stored")])].
Proof. reflexivity. Qed.

(** ** Insertion-ordered sets and maps *)

Lemma Set_has_true members x : Set_has members x = true <-> x ∈ members.
Proof. unfold Set_has. by rewrite bool_decide_eq_true. Qed.

Lemma Set_has_false members x : Set_has members x = false <-> x ∉ members.
Proof. unfold Set_has. by rewrite bool_decide_eq_false. Qed.

Lemma elem_of_Set_add members x y : y ∈ Set_add members x <-> y ∈ members ∨ y = x.
Proof.
  unfold Set_add. destruct (Set_has members x) eqn:Hx.
  - apply Set_has_true in Hx. split; [by left|]. intros [?| ->]; done.
  - rewrite elem_of_app, list_elem_of_singleton. done.
Qed.

Lemma NoDup_Set_add members x : NoDup members -> NoDup (Set_add members x).
Proof.
  intros Hnd. unfold Set_add. destruct (Set_has members x) eqn:Hx; [done|].
  apply Set_has_false in Hx. apply NoDup_app. split; [done|]. split.
  - intros y Hy Hy'. apply list_elem_of_singleton in Hy'. by subst.
  - apply NoDup_singleton.
Qed.

Lemma fold_Set_add_spec items acc :
  (∀ y, y ∈ fold_left Set_add items acc <-> y ∈ acc ∨ y ∈ items)
  ∧ (NoDup acc -> NoDup (fold_left Set_add items acc)).
Proof.
  revert acc. induction items as [|x items IH]; intros acc; simpl.
  - split; [|done]. intros y. rewrite elem_of_nil. tauto.
  - destruct (IH (Set_add acc x)) as [IH1 IH2]. split.
    + intros y. rewrite IH1, elem_of_Set_add, elem_of_cons. tauto.
    + intros Hnd. by apply IH2, NoDup_Set_add.
Qed.

Lemma elem_of_Set_from items y : y ∈ Set_from items <-> y ∈ items.
Proof.
  unfold Set_from. destruct (fold_Set_add_spec items []) as [H _].
  rewrite H, elem_of_nil. tauto.
Qed.

Lemma NoDup_Set_from items : NoDup (Set_from items).
Proof.
  unfold Set_from. destruct (fold_Set_add_spec items []) as [_ H].
  apply H, NoDup_nil_2.
Qed.

Lemma Map_has_true m k : Map_has m k = true <-> is_Some (Map_get m k).
Proof.
  unfold Map_has. destruct (Map_get m k); split; intros H; done.
Qed.

Lemma Map_get_delete_eq m k : Map_get (Map_delete m k) k = None.
Proof.
  induction m as [|[k' v] m IH]; simpl; [done|].
  destruct (String.eqb_spec k' k) as [->|Hne]; simpl; [done|].
  by destruct (String.eqb_spec k' k).
Qed.

Lemma Map_get_delete_ne m k k' : k ≠ k' -> Map_get (Map_delete m k) k' = Map_get m k'.
Proof.
  intros Hne. induction m as [|[k0 v] m IH]; simpl; [done|].
  destruct (String.eqb_spec k0 k) as [->|Hk0]; simpl.
  - by destruct (String.eqb_spec k k').
  - by rewrite IH.
Qed.

Lemma Map_get_set_eq m k v : Map_get (Map_set m k v) k = Some v.
Proof.
  induction m as [|[k' v'] m IH]; simpl.
  - by rewrite String.eqb_refl.
  - destruct (String.eqb_spec k' k) as [->|Hne]; simpl.
    + by rewrite String.eqb_refl.
    + by destruct (String.eqb_spec k' k).
Qed.

Lemma Map_get_set_ne m k v k' : k ≠ k' -> Map_get (Map_set m k v) k' = Map_get m k'.
Proof.
  intros Hne. induction m as [|[k0 v0] m IH]; simpl.
  - by destruct (String.eqb_spec k k').
  - destruct (String.eqb_spec k0 k) as [->|Hk0]; simpl.
    + by destruct (String.eqb_spec k k').
    + by rewrite IH.
Qed.

Lemma Map_delete_length m k : (length (Map_delete m k) <= length m)%nat.
Proof.
  induction m as [|[k' v] m IH]; simpl; [done|].
  destruct (String.eqb k' k); simpl; lia.
Qed.

Lemma Map_delete_length_lt m k :
  is_Some (Map_get m k) -> (length (Map_delete m k) < length m)%nat.
Proof.
  induction m as [|[k' v] m IH]; simpl.
  - intros [? ?]. done.
  - destruct (String.eqb k' k); simpl.
    + intros _. pose proof (Map_delete_length m k). lia.
    + intros H. apply IH in H. lia.
Qed.

Lemma Map_set_length m k v : (length (Map_set m k v) <= S (length m))%nat.
Proof.
  induction m as [|[k' v'] m IH]; simpl; [done|].
  destruct (String.eqb k' k); simpl; lia.
Qed.

(** ** The contraction loop runs to its end *)

Lemma map_fmap {A B : Type} (f : A -> B) (l : list A) : map f l = f <$> l.
Proof. induction l as [|x l IH]; simpl; [done|]. by rewrite IH. Qed.

Lemma advance_0 w : advance 0 w = w.
Proof. by destruct w. Qed.

Lemma advance_advance n m w : advance n (advance m w) = advance (n + m) w.
Proof. destruct w. unfold advance. simpl. f_equal. lia. Qed.

Lemma findRepresentative_key label components :
  Map_has components label = true -> findRepresentative label components = Returns label.
Proof. intros H. unfold findRepresentative. by rewrite H. Qed.

Lemma relabel_length from to mergedLabel edges :
  (length (relabel from to mergedLabel edges) <= length edges)%nat.
Proof.
  unfold relabel. etrans; [apply length_filter|]. by rewrite length_map.
Qed.

Lemma labelsKnown_delete components edges i :
  labelsKnown components edges -> labelsKnown components (delete i edges).
Proof.
  intros H e He. apply H. eapply elem_of_sublist; [exact He|]. apply sublist_delete.
Qed.

Lemma labelsKnown_merge components edges from to mergedLabel mergedSet :
  labelsKnown components edges ->
  labelsKnown (Map_set (Map_delete (Map_delete components from) to) mergedLabel mergedSet)
    (relabel from to mergedLabel edges).
Proof.
  intros H e He. unfold relabel in He.
  apply list_elem_of_filter in He as [_ He]. rewrite map_fmap in He.
  apply list_elem_of_fmap in He as [e0 [-> He0]].
  destruct (H e0 He0) as [Hf Ht]. cbn [fst snd].
  assert (Hkeep : ∀ x, Map_has components x = true ->
            Map_has (Map_set (Map_delete (Map_delete components from) to) mergedLabel mergedSet)
              (if String.eqb x from || String.eqb x to then mergedLabel else x) = true).
  { intros x Hx. apply Map_has_true.
    destruct (String.eqb_spec x from) as [->|Hxf]; cbn [orb].
    { rewrite Map_get_set_eq. by eexists. }
    destruct (String.eqb_spec x to) as [->|Hxt].
    { rewrite Map_get_set_eq. by eexists. }
    destruct (decide (mergedLabel = x)) as [->|Hm].
    { rewrite Map_get_set_eq. by eexists. }
    rewrite Map_get_set_ne, !Map_get_delete_ne by done. by apply Map_has_true. }
  split; by apply Hkeep.
Qed.

Lemma contractLoop_returns rnd fuel step components edges w :
  labelsKnown components edges ->
  ∃ final n, contractLoop rnd fuel step components edges w = (Returns final, advance n w).
Proof.
  revert step components edges w.
  induction fuel as [|fuel IH]; intros step components edges w Hknown; simpl.
  { exists components, 0%nat. by rewrite advance_0. }
  destruct ((2 <? length components)%nat && (0 <? length edges)%nat) eqn:Hcond.
  2:{ exists components, 0%nat. by rewrite advance_0. }
  apply andb_prop in Hcond as [_ Hlen]. apply Nat.ltb_lt in Hlen.
  unfold_monad. unfold randomIndexBelow.
  set (i := (rnd (randomCalls w) mod length edges)%nat).
  assert (Hi : (i < length edges)%nat) by (apply Nat.mod_upper_bound; lia).
  destruct (lookup_lt_is_Some_2 edges i Hi) as [[rawFrom rawTo] Hedge].
  rewrite Hedge.
  destruct (Hknown _ (list_elem_of_lookup_2 _ _ _ Hedge)) as [Hf Ht]. cbn [fst snd] in Hf, Ht.
  rewrite (findRepresentative_key _ _ Hf), (findRepresentative_key _ _ Ht).
  destruct (String.eqb rawFrom rawTo) eqn:Hsame.
  - destruct (IH (S step) components (delete i edges) (advance 1 w)) as (final & n & Hrun).
    { by apply labelsKnown_delete. }
    exists final, (n + 1)%nat. by rewrite Hrun, advance_advance.
  - unfold mergeComponents.
    apply Map_has_true in Hf as [fromSet Hf]. apply Map_has_true in Ht as [toSet Ht].
    rewrite Hf, Ht. cbn [fst snd].
    match goal with
    | |- context [contractLoop rnd fuel (S step) ?c ?es (advance 1 w)] =>
        destruct (IH (S step) c es (advance 1 w)) as (final & n & Hrun)
    end.
    { by eapply labelsKnown_merge. }
    exists final, (n + 1)%nat. by rewrite Hrun, advance_advance.
Qed.

(** The fuel given to the loop is never what stops it: any two amounts
    of fuel above [length components + length edges] give the same run. *)
Lemma contractLoop_fuel rnd fuel1 fuel2 step components edges w :
  (length components + length edges <= fuel1)%nat ->
  (length components + length edges <= fuel2)%nat ->
  contractLoop rnd fuel1 step components edges w
  = contractLoop rnd fuel2 step components edges w.
Proof.
  revert fuel2 step components edges w.
  induction fuel1 as [|fuel1 IH]; intros fuel2 step components edges w H1 H2.
  { destruct components; [|simpl in H1; lia]. by destruct fuel2. }
  destruct fuel2 as [|fuel2].
  { destruct components; [|simpl in H2; lia]. done. }
  simpl.
  destruct ((2 <? length components)%nat && (0 <? length edges)%nat) eqn:Hcond; [|done].
  unfold_monad. unfold randomIndexBelow.
  destruct (edges !! _) as [[rawFrom rawTo]|] eqn:Hedge; [|done].
  destruct (findRepresentative rawFrom components) as [from|]; [|done].
  destruct (findRepresentative rawTo components) as [to|]; [|done].
  destruct (String.eqb_spec from to) as [->|Hne].
  - apply lookup_lt_Some in Hedge.
    apply IH; rewrite length_delete by (by apply lookup_lt_is_Some_2); lia.
  - unfold mergeComponents.
    destruct (Map_get components from) as [fromSet|] eqn:Hf; [|done].
    destruct (Map_get components to) as [toSet|] eqn:Ht; [|done].
    cbn [fst snd].
    match goal with
    | |- contractLoop _ _ _ (Map_set ?c ?l ?s) ?es _ = _ =>
        pose proof (Map_set_length c l s) as Hset;
        pose proof (relabel_length from to l edges) as Hrel
    end.
    assert (length (Map_delete (Map_delete components from) to) < length (Map_delete components from))%nat.
    { apply Map_delete_length_lt. rewrite Map_get_delete_ne by done. by rewrite Ht. }
    assert (length (Map_delete components from) < length components)%nat.
    { apply Map_delete_length_lt. by rewrite Hf. }
    apply IH; lia.
Qed.

Lemma Map_get_initial vs acc k :
  is_Some (Map_get
             (fold_left (fun components vertex => Map_set components vertex (Set_from [vertex]))
                vs acc) k)
  <-> k ∈ vs ∨ is_Some (Map_get acc k).
Proof.
  revert acc. induction vs as [|v vs IH]; intros acc; simpl.
  - rewrite elem_of_nil. tauto.
  - rewrite IH, elem_of_cons. destruct (decide (v = k)) as [->|Hne].
    + rewrite Map_get_set_eq. split; [intros _; by left; left|]. intros _. right. by eexists.
    + rewrite Map_get_set_ne by done. split; [|intros [[?|?]|?]]; intuition congruence.
Qed.

Lemma labelsKnown_initial input :
  validInput input -> labelsKnown (initialComponents input) (edges input).
Proof.
  intros (_ & _ & _ & Hin) e He. destruct (Hin e He) as [Hf Ht].
  unfold initialComponents. split; apply Map_has_true, Map_get_initial; by left.
Qed.

Lemma singleRun_returns rnd input w :
  validInput input ->
  ∃ run n, singleRun rnd input w = (Returns run, advance n w).
Proof.
  intros Hvalid. unfold singleRun, contract. unfold_monad.
  destruct (contractLoop_returns rnd
              (length (initialComponents input) + length (edges input)) 0
              (initialComponents input) (edges input) w
              (labelsKnown_initial input Hvalid)) as (final & n & ->).
  by eexists _, n.
Qed.

Lemma runIterations_returns rnd remaining iteration input best w :
  validInput input ->
  ∃ best' n,
    runIterations rnd remaining iteration input best w = (Returns best', advance n w)
    ∧ length (runHistory best') = (length (runHistory best) + remaining)%nat
    ∧ ((0 < remaining)%nat -> is_Some (bestCut best')).
Proof.
  intros Hvalid. revert iteration best w.
  induction remaining as [|remaining IH]; intros iteration best w; simpl.
  { exists best, 0%nat. rewrite advance_0. unfold_monad. repeat split; [lia|lia]. }
  unfold_monad. destruct (singleRun_returns rnd input w Hvalid) as (run & n & ->).
  match goal with
  | |- context [runIterations rnd remaining (S iteration) input ?b (advance n w)] =>
      destruct (IH (S iteration) b (advance n w)) as (best' & n' & Hrun & Hlen & Hbest);
      assert (Hb : is_Some (bestCut b) ∧ length (runHistory b) = S (length (runHistory best)))
  end.
  { destruct (bestCut best) as [b|] eqn:Hbc; [destruct (fst run <? b)%nat|];
      cbn [bestCut runHistory]; rewrite ?Hbc, length_app; simpl; split; (done || lia). }
  exists best', (n' + n)%nat. rewrite Hrun, advance_advance. split; [done|].
  destruct Hb as [Hsome Hlen']. split; [lia|]. intros _.
  destruct remaining as [|remaining']; [|apply Hbest; lia].
  simpl in Hrun. unfold_monad. by injection Hrun as <- _.
Qed.

Lemma execute_returns rnd input options w :
  validInput input ->
  ∃ best n,
    execute rnd input options w
    = (Returns (runResult (resolveIterations input options) best), advance n w)
    ∧ length (runHistory best) = Z.to_nat (resolveIterations input options).
Proof.
  intros Hvalid. unfold execute. unfold_monad.
  destruct (runIterations_returns rnd (Z.to_nat (resolveIterations input options)) 1 input
              {| bestCut := None; bestPartitions := ([], []);
                 bestIteration := 0%nat; runHistory := [] |} w Hvalid)
    as (best & n & -> & Hlen & _).
  by exists best, n.
Qed.

(** ** Validated input and options *)

Lemma mapM_index_length {A B : Type} (f : A -> nat -> outcome B) index l ys :
  mapM_index f index l = Returns ys -> length ys = length l.
Proof.
  revert index ys. induction l as [|x l IH]; intros index ys; simpl.
  - by intros [= <-].
  - unfold_monad. destruct (f x index); [|done].
    destruct (mapM_index f (S index) l) eqn:Hrest; [|done].
    intros [= <-]. simpl. f_equal. by eapply IH.
Qed.

Lemma listed_vertices raw :
  match prop raw "vertices" with
  | Some (JArray vs) => mapM JS_String vs
  | _ => Returns []
  end
  = mapM JS_String (listedVerticesOf raw).
Proof. unfold listedVerticesOf. by destruct (prop raw "vertices") as [[]|]. Qed.

(** What an accepted input was made from. *)
Lemma parseInput_inv raw input :
  parseInput raw = Returns input ->
  ∃ rawEdges explicit,
    prop raw "edges" = Some (JArray rawEdges)
    ∧ rawEdges ≠ []
    ∧ mapM_index parseEdge 0 rawEdges = Returns (edges input)
    ∧ mapM JS_String (listedVerticesOf raw) = Returns explicit
    ∧ vertices input
      = Set_from (explicit ++ flat_map (fun e => [fst e; snd e]) (edges input))
    ∧ (2 <= length (vertices input))%nat.
Proof.
  unfold parseInput. destruct (negb _); [done|].
  destruct (prop raw "edges") as [[| | | |[|e es]|]|]; try done.
  rewrite listed_vertices. unfold_monad.
  destruct (mapM_index parseEdge 0 (e :: es)) as [parsed|] eqn:Hedges; [|done].
  destruct (mapM JS_String (listedVerticesOf raw)) as [explicit|]; [|done].
  destruct (_ <? 2)%nat eqn:Hlen; [done|]. intros [= <-].
  apply Nat.ltb_ge in Hlen. exists (e :: es), explicit. by repeat split.
Qed.

Lemma parseInput_valid raw input : parseInput raw = Returns input -> validInput input.
Proof.
  intros Hparse.
  destruct (parseInput_inv _ _ Hparse) as (rawEdges & explicit & _ & Hne & Hedges & _ & Hvs & Hlen).
  unfold validInput. rewrite Hvs in *.
  split; [apply NoDup_Set_from|]. split; [done|]. split.
  - apply mapM_index_length in Hedges. destruct (edges input); [|done].
    by destruct rawEdges.
  - intros [a b] Hin. cbn [fst snd].
    split; apply elem_of_Set_from, elem_of_app; right;
      apply list_elem_of_In, in_flat_map; exists (a, b);
      (split; [by apply list_elem_of_In | simpl; auto]).
Qed.

Lemma parseOptions_karger stn raw options :
  parseOptions stn optionDefinitions raw = Returns options ->
  ∃ n, options = [("iterations", JNumber n)] ∧ 1 <= n <= 1000.
Proof.
  unfold parseOptions, optionDefinitions, parseOptionsLoop. cbn [key defaultValue].
  destruct (isUnsupplied _).
  { intros [= <-]. exists 40. by split; [|lia]. }
  destruct (prop _ "iterations") as [supplied|].
  2:{ intros [= <-]. exists 40. by split; [|lia]. }
  unfold parseOption, checkMinimum, checkMaximum. cbn [type minimum maximum label].
  unfold_monad. destruct (Number stn supplied) as [[num|]|]; [|done|done].
  destruct (Z.ltb_spec num 1); [done|]. destruct (Z.gtb_spec num 1000); [done|].
  intros [= <-]. exists num. by split; [|lia].
Qed.



Lemma prepare_inv host rawInput rawOptions input options :
  prepare host rawInput rawOptions = Returns (input, options) ->
  parseInput rawInput = Returns input
  ∧ parseOptions (StringToNumber host) optionDefinitions rawOptions = Returns options.
Proof.
  unfold prepare. unfold_monad.
  destruct (parseInput rawInput); [|done].
  destruct (parseOptions _ _ _); [|done]. by intros [= <- <-].
Qed.

Lemma handler_cache_miss host event w payload input options :
  method event = Some "POST" ->
  normalisePath host (path event) = "/run" ->
  parseJson host (default EmptyString (body event)) = Returns payload ->
  prop payload "algorithmId" = Some (JString karger_id) ->
  prepare host (default (JObject []) (nullish (prop payload "input") None))
               (default (JObject []) (nullish (prop payload "options") None))
  = Returns (input, options) ->
  getFault w = None ->
  putFault w = None ->
  cachedResult (table w !! createCacheKey (localeCompare host) (sha256_hex host) karger_id
                             (inputJson input) (JObject options)) = None ->
  ∃ best n,
    execute (Math_random host) input options w
    = (Returns (runResult (resolveIterations input options) best), advance n w)
    ∧ length (runHistory best) = Z.to_nat (resolveIterations input options)
    ∧ handler host event w
      = (buildResponse 200
           (JSON_stringify
              (JObject [("algorithmId", JString karger_id);
                        ("cached", JBool false);
                        ("result",
                           augmentResultWithOptions
                             (runResult (resolveIterations input options) best) options)])),
         withItem
           (createCacheKey (localeCompare host) (sha256_hex host) karger_id
              (inputJson input) (JObject options))
           (JObject [("id", JString (createCacheKey (localeCompare host) (sha256_hex host)
                                       karger_id (inputJson input) (JObject options)));
                     ("algorithmId", JString karger_id);
                     ("createdAt", JString (clock w));
                     ("result",
                        augmentResultWithOptions
                          (runResult (resolveIterations input options) best) options)])
           (advance n w)).
Proof.
  intros Hm Hp Hjson Hid Hprep Hget Hput Hmiss.
  destruct (prepare_inv _ _ _ _ _ Hprep) as [Hin _].
  destruct (execute_returns (Math_random host) input options w (parseInput_valid _ _ Hin))
    as (best & n & Hrun & Hlen).
  exists best, n. split; [done|]. split; [done|].
  rewrite handler_post_run by done.
  unfold handleRunAlgorithm. rewrite Hjson, Hid.
  unfold karger_id in *. cbv beta iota.
  change (registry_has "karger-min-cut") with true. cbn [negb].
  unfold_monad. rewrite Hprep. cbn [fst snd].
  unfold dynamoGet. rewrite Hget, Hmiss, Hrun.
  unfold toISOString, dynamoPut. cbn [putFault advance]. rewrite Hput. reflexivity.
Qed.




(** ** Rejected inputs *)

Lemma nullish_is_Some a b c :
  isPresent (nullish (nullish a b) c) = isNonNull a || isNonNull b || isPresent c.
Proof. destruct a as [[]|], b as [[]|], c; reflexivity. Qed.

(** The conversion of an array joins the texts of its elements. *)
Lemma JS_String_array items :
  JS_String (JArray items) = texts ← mapM elementText items; Returns (join "," texts).
Proof. reflexivity. Qed.

(** Conversion to a string fails with the [TypeError] only. *)
Lemma JS_String_throws value e : JS_String value = Throws e -> e = typeError.
Proof.
  revert e. induction value as [|b|n|s|items IH|entries _] using json_deep_ind; intros e.
  - done.
  - by destruct b.
  - done.
  - done.
  - rewrite JS_String_array. unfold_monad.
    assert (Hel : ∀ e, mapM elementText items = Throws e -> e = typeError).
    { induction IH as [|x l Hx _ IHl]; intros e'; cbn [mapM]; [done|]. unfold_monad.
      destruct (elementText x) as [text|e''] eqn:Hx'.
      - destruct (mapM elementText l); [done|]. intros [= <-]. by apply IHl.
      - intros [= <-]. apply Hx. by destruct x. }
    destruct (mapM elementText items) as [texts|e'] eqn:Htexts; [done|].
    intros [= <-]. by apply Hel.
  - cbn [JS_String]. destruct (obj_get entries "toString"); [|done]. by intros [= <-].
Qed.

Lemma JS_String_convertible value :
  JS_String value = if convertible value then Returns (textOf value) else Throws typeError.
Proof.
  unfold convertible, textOf. destruct (JS_String value) as [text|e] eqn:H; [done|].
  by rewrite (JS_String_throws _ _ H).
Qed.

Lemma mapM_JS_String values :
  mapM JS_String values
  = if forallb convertible values then Returns (map textOf values) else Throws typeError.
Proof.
  induction values as [|v values IH]; [done|].
  cbn [mapM forallb map]. rewrite IH, JS_String_convertible. unfold_monad.
  destruct (convertible v); [|done]. by destruct (forallb convertible values).
Qed.

Lemma parseEdge_spec edge index :
  if destructurable edge
  then ∃ from to,
         endpointValuesOf edge = [from; to]
         ∧ parseEdge edge index
           = if convertible from && convertible to
             then Returns (textOf from, textOf to)
             else Throws typeError
  else endpointValuesOf edge = []
       ∧ ∃ msg, parseEdge edge index = Throws (ClientError msg).
Proof.
  assert (Hpair : ∀ from to,
    (from' ← JS_String from; to' ← JS_String to; Returns (from', to'))
    = if convertible from && convertible to
      then Returns (textOf from, textOf to) else Throws typeError).
  { intros from to. rewrite !JS_String_convertible. unfold_monad.
    by destruct (convertible from), (convertible to). }
  destruct edge as [|b|n|s|items|entries]; cbn [destructurable].
  - split; [done|by eexists].
  - unfold parseEdge. cbn [isObjectLike]. rewrite andb_false_r. split; [done|by eexists].
  - unfold parseEdge. cbn [isObjectLike]. rewrite andb_false_r. split; [done|by eexists].
  - unfold parseEdge. cbn [isObjectLike]. rewrite andb_false_r. split; [done|by eexists].
  - destruct items as [|x [|y [|z items]]]; try (split; [done|by eexists]).
    exists x, y. split; [done|]. apply Hpair.
  - unfold parseEdge, endpointValuesOf, endpointValue. cbn [truthy isObjectLike andb].
    rewrite <- !nullish_is_Some.
    destruct (nullish (nullish _ _) (prop _ "u")) as [from|]; cbn [isPresent andb];
      [|split; [done|by eexists]].
    destruct (nullish (nullish _ _) (prop _ "v")) as [to|]; cbn [isPresent];
      [|split; [done|by eexists]].
    exists from, to. split; [done|]. apply Hpair.
Qed.

Lemma mapM_index_parseEdge l index :
  forallb convertible (flat_map endpointValuesOf l) = true ->
  if forallb destructurable l
  then ∃ parsed,
         mapM_index parseEdge index l = Returns parsed
         ∧ flat_map (fun e => [fst e; snd e]) parsed = flat_map endpointsOf l
  else ∃ msg, mapM_index parseEdge index l = Throws (ClientError msg).
Proof.
  revert index. induction l as [|edge l IH]; intros index; cbn [forallb mapM_index flat_map].
  { intros _. by exists []. }
  rewrite forallb_app. intros [Hedge Hrest]%andb_prop.
  pose proof (parseEdge_spec edge index) as Hspec. unfold_monad.
  destruct (destructurable edge); cbn [andb].
  - destruct Hspec as (from & to & Hvalues & ->). rewrite Hvalues in Hedge.
    cbn [forallb] in Hedge. rewrite andb_true_r in Hedge. rewrite Hedge.
    specialize (IH (S index) Hrest).
    destruct (forallb destructurable l).
    + destruct IH as (parsed & -> & Hflat).
      exists ((textOf from, textOf to) :: parsed). split; [done|].
      cbn [flat_map fst snd]. rewrite Hflat. unfold endpointsOf at 2. by rewrite Hvalues.
    + destruct IH as (msg & ->). by eexists.
  - destruct Hspec as (_ & msg & ->). by eexists.
Qed.

Lemma mapM_index_parseEdge_throws l index e :
  mapM_index parseEdge index l = Throws e -> (∃ msg, e = ClientError msg) ∨ e = typeError.
Proof.
  revert index. induction l as [|edge l IH]; intros index; cbn [mapM_index]; [done|].
  pose proof (parseEdge_spec edge index) as Hspec. unfold_monad.
  destruct (destructurable edge).
  - destruct Hspec as (from & to & _ & ->).
    destruct (convertible from && convertible to); [|intros [= <-]; by right].
    destruct (mapM_index parseEdge (S index) l) eqn:Hrest; [done|].
    intros [= <-]. by eapply IH.
  - destruct Hspec as (_ & msg & ->). intros [= <-]. left. by eexists.
Qed.

Lemma Set_from_length l : length (Set_from l) = size (list_to_set (C := gset string) l).
Proof.
  rewrite <- (size_list_to_set (C := gset string) (Set_from l)) by apply NoDup_Set_from.
  f_equal. apply set_eq. intros x. by rewrite !elem_of_list_to_set, elem_of_Set_from.
Qed.

(** Among the inputs whose endpoints and vertices can be converted to
    strings, the parser throws a client error exactly on the rejected
    ones and returns on the others. *)
Lemma parseInput_rejected raw :
  allConvertible raw = true ->
  if inputRejected raw
  then ∃ msg, parseInput raw = Throws (ClientError msg)
  else ∃ input, parseInput raw = Returns input.
Proof.
  unfold allConvertible, inputRejected, parseInput.
  assert (Hobj : truthy raw && isObjectLike raw = isObjectLike raw).
  { destruct raw; cbn [isObjectLike]; rewrite ?andb_false_r; done. }
  rewrite Hobj. destruct (isObjectLike raw); cbn [negb orb]; [|by eexists].
  destruct (prop raw "edges") as [[| | | |[|e es]|]|]; try by eexists.
  rewrite forallb_app. intros [Hedges Hlisted]%andb_prop.
  pose proof (mapM_index_parseEdge (e :: es) 0 Hedges) as Hparsed.
  rewrite listed_vertices, mapM_JS_String, Hlisted. unfold_monad.
  destruct (forallb destructurable (e :: es)); cbn [negb orb].
  - destruct Hparsed as (parsed & -> & Hflat).
    fold (explicitVerticesOf raw). rewrite Set_from_length, Hflat.
    fold (vertexSet raw (e :: es)).
    destruct (size (vertexSet raw (e :: es)) <? 2)%nat; by eexists.
  - destruct Hparsed as (msg & ->). by eexists.
Qed.

(** The parser fails with a client error or with the [TypeError] of a
    conversion. *)
Lemma parseInput_throws raw e :
  parseInput raw = Throws e -> (∃ msg, e = ClientError msg) ∨ e = typeError.
Proof.
  unfold parseInput. destruct (negb _); [intros [= <-]; left; by eexists|].
  destruct (prop raw "edges") as [[| | | |[|e0 es]|]|];
    try (intros [= <-]; left; by eexists).
  rewrite listed_vertices, mapM_JS_String. unfold_monad.
  destruct (mapM_index parseEdge 0 (e0 :: es)) as [parsed|e'] eqn:Hedges.
  - destruct (forallb convertible (listedVerticesOf raw)); [|intros [= <-]; by right].
    destruct (_ <? 2)%nat; [|done]. intros [= <-]. left. by eexists.
  - intros [= <-]. by eapply mapM_index_parseEdge_throws.
Qed.

Lemma Number_throws stn value e : Number stn value = Throws e -> e = typeError.
Proof.
  destruct value as [|[]| | | |]; cbn [Number]; try done;
    unfold_monad; destruct (JS_String _) eqn:H; try done;
    intros [= <-]; by eapply JS_String_throws.
Qed.

Lemma parseOption_throws stn def value e :
  parseOption stn def value = Throws e -> (∃ msg, e = ClientError msg) ∨ e = typeError.
Proof.
  unfold parseOption, checkMinimum, checkMaximum. unfold_monad.
  destruct (type def).
  - destruct (Number stn value) as [[num|]|e'] eqn:Hnum.
    + destruct (minimum def) as [lo|];
        [destruct (num <? lo); [intros [= <-]; left; by eexists|]|];
        (destruct (maximum def) as [hi|];
           [destruct (num >? hi); [intros [= <-]; left; by eexists|]|]);
        done.
    + intros [= <-]. left. by eexists.
    + intros [= <-]. right. by eapply Number_throws.
  - destruct (JS_String value) eqn:H; [done|]. intros [= <-]. right.
    by eapply JS_String_throws.
  - destruct value; try (intros [= <-]; left; by eexists); try done.
    destruct (_ || _); [done|]. destruct (_ || _); [done|]. intros [= <-]. left. by eexists.
Qed.

Lemma parseOptionsLoop_throws stn defs provided parsed e :
  parseOptionsLoop stn defs provided parsed = Throws e ->
  (∃ msg, e = ClientError msg) ∨ e = typeError.
Proof.
  revert parsed. induction defs as [|def defs IH]; intros parsed; cbn [parseOptionsLoop];
    [done|].
  destruct (isUnsupplied _); [apply IH|].
  destruct (prop provided (key def)) as [supplied|]; [|apply IH].
  unfold_monad. destruct (parseOption stn def supplied) as [v|e'] eqn:Hv; [apply IH|].
  intros [= <-]. by eapply parseOption_throws.
Qed.

(** Validation fails with a client error or with the [TypeError] of a
    conversion. *)
Lemma parseOptions_throws stn raw e :
  parseOptions stn optionDefinitions raw = Throws e ->
  (∃ msg, e = ClientError msg) ∨ e = typeError.
Proof. apply parseOptionsLoop_throws. Qed.

Lemma prepare_throws host rawInput rawOptions e :
  prepare host rawInput rawOptions = Throws e ->
  (∃ msg, e = ClientError msg) ∨ e = typeError.
Proof.
  unfold prepare. unfold_monad.
  destruct (parseInput rawInput) as [input|e'] eqn:Hparse.
  - destruct (parseOptions _ _ _) eqn:Hopt; [done|].
    intros [= <-]. by eapply parseOptions_throws.
  - intros [= <-]. by eapply parseInput_throws.
Qed.

(** A run request whose validation fails is answered from the [catch]
    block of the handler, before the store is read. *)
Lemma handler_prepare_throws host event w payload e :
  method event = Some "POST" ->
  normalisePath host (path event) = "/run" ->
  parseJson host (default EmptyString (body event)) = Returns payload ->
  prop payload "algorithmId" = Some (JString karger_id) ->
  prepare host (default (JObject []) (nullish (prop payload "input") None))
               (default (JObject []) (nullish (prop payload "options") None))
  = Throws e ->
  handler host event w = (respondToError e, w).
Proof.
  intros Hm Hp Hjson Hid Hprep. rewrite handler_post_run by done.
  unfold handleRunAlgorithm. rewrite Hjson, Hid.
  unfold karger_id. cbv beta iota.
  change (registry_has "karger-min-cut") with true. cbn [negb].
  unfold_monad. by rewrite Hprep.
Qed.

(** With a [null] endpoint the parser follows neither reading of
    "supplied".  If a property counts as supplied when it is present,
    the first input has only destructurable edges and three vertices,
    yet it is rejected.  If it counts as supplied when it is not
    [null], the edge of the second input supplies no first endpoint,
    yet the input parses, with the vertex named null. *)
Example null_endpoints_read_both_ways :
  (claimedRejected isPresent nullFromInput = false
   ∧ parseInput nullFromInput
     = Throws (ClientError
         "Edge at index 0 must be an array like [from, to] or an object with from/to keys."))
  ∧ (claimedRejected isNonNull nullUInput = true
     ∧ parseInput nullUInput
       = Returns {| vertices := ["null"; "B"]; edges := [("null", "B")] |}).
Proof. repeat split; vm_compute; reflexivity. Qed.

(** C4.  The input [{"edges": [["A", {"toString": 1}]]}] is an object
    whose [edges] is a non-empty array, and its one edge is an array of
    two elements; C4 has the parser accept such an input or answer it
    with a client error.  Converting the second endpoint to a string
    throws a [TypeError] instead, which is no client error, and the run
    request is answered with status 500 and the text of that error,
    whatever the state of the store. *)
Theorem C4_unconvertible_endpoint_is_answered_500 (w : World) :
  isObjectLike unconvertibleInput = true
  ∧ (∃ edge, prop unconvertibleInput "edges" = Some (JArray [edge])
             ∧ destructurable edge = true)
  ∧ parseInput unconvertibleInput = Throws typeError
  ∧ (∀ message, typeError ≠ ClientError message)
  ∧ handler (exampleHost unconvertibleRequest) (postRun unconvertibleRequest) w
    = (buildResponse 500 (messageBody "Cannot convert object to primitive value"), w).
Proof.
  split; [reflexivity|]. split; [eexists; split; reflexivity|].
  split; [reflexivity|]. split; [done|].
  apply (handler_prepare_throws _ _ _ unconvertibleRequest typeError); reflexivity.
Qed.

(** ** Sorting *)

Section SortFacts.
Context {A : Type} (cmp : A -> A -> comparison).

Lemma sort_insert_Permutation x l : sort_insert cmp x l ≡ₚ x :: l.
Proof.
  induction l as [|y l IH]; simpl; [done|].
  destruct (cmp x y); try done. rewrite IH. apply Permutation_swap.
Qed.

Lemma Array_sort_Permutation l : Array_sort cmp l ≡ₚ l.
Proof.
  induction l as [|x l IH]; simpl; [done|].
  by rewrite sort_insert_Permutation, IH.
Qed.

(** Sortedness for a relation [R] that the comparator decides on the
    elements at hand. *)
Lemma sort_insert_Sorted (R : relation A) x l :
  (∀ y, y ∈ l -> cmp x y ≠ Gt -> R x y) ->
  (∀ y, y ∈ l -> cmp x y = Gt -> R y x) ->
  Sorted R l -> Sorted R (sort_insert cmp x l).
Proof.
  intros Hle Hgt Hsorted. induction Hsorted as [|y l Hsorted IH Hhd]; simpl.
  { repeat constructor. }
  destruct (cmp x y) eqn:Hxy.
  - constructor; [by constructor|]. constructor. apply Hle; [left|]. congruence.
  - constructor; [by constructor|]. constructor. apply Hle; [left|]. congruence.
  - constructor.
    + apply IH; intros z Hz; [apply Hle | apply Hgt]; by right.
    + assert (Hyx : R y x) by (apply Hgt; [left|done]).
      destruct l as [|z l]; simpl; [by constructor|].
      destruct (cmp x z); constructor; try done; by inversion Hhd.
Qed.

Lemma Array_sort_Sorted (R : relation A) l :
  (∀ x y, x ∈ l -> y ∈ l -> cmp x y ≠ Gt -> R x y) ->
  (∀ x y, x ∈ l -> y ∈ l -> cmp x y = Gt -> R y x) ->
  Sorted R (Array_sort cmp l).
Proof.
  induction l as [|x l IH]; intros Hle Hgt; simpl; [constructor|].
  apply sort_insert_Sorted.
  - intros y Hy. rewrite Array_sort_Permutation in Hy. apply Hle; [left|by right].
  - intros y Hy. rewrite Array_sort_Permutation in Hy. apply Hgt; [left|by right].
  - apply IH; intros a b Ha Hb; [apply Hle | apply Hgt]; by right.
Qed.

(** Stability: the elements that satisfy [P] keep their order, when the
    comparator never puts one of them after another. *)
Lemma sort_insert_filter (P : A -> Prop) `{!∀ a, Decision (P a)} x l :
  (∀ y, y ∈ l -> P x -> P y -> cmp x y ≠ Gt) ->
  filter P (sort_insert cmp x l) = filter P (x :: l).
Proof.
  induction l as [|y l IH]; intros Hties; simpl; [done|].
  destruct (cmp x y) eqn:Hxy; try done.
  rewrite filter_cons, IH by (intros z Hz; apply Hties; by right).
  rewrite !filter_cons.
  destruct (decide (P x)) as [Hx|Hx], (decide (P y)) as [Hy|Hy]; try done.
  exfalso. by apply (Hties y); [left| | |].
Qed.

Lemma Array_sort_filter (P : A -> Prop) `{!∀ a, Decision (P a)} l :
  (∀ x y, x ∈ l -> y ∈ l -> P x -> P y -> cmp x y ≠ Gt) ->
  filter P (Array_sort cmp l) = filter P l.
Proof.
  induction l as [|x l IH]; intros Hties; simpl; [done|].
  rewrite sort_insert_filter.
  - rewrite !filter_cons, IH; [done|]. intros a b Ha Hb. apply Hties; by right.
  - intros y Hy. rewrite Array_sort_Permutation in Hy. apply Hties; [left|by right].
Qed.
End SortFacts.

(** Sorting looks at what the comparator looks at only. *)
Lemma sort_insert_map {A B : Type} (f : A -> B) cmpA cmpB x l :
  (∀ a b, cmpB (f a) (f b) = cmpA a b) ->
  sort_insert cmpB (f x) (map f l) = map f (sort_insert cmpA x l).
Proof.
  intros Hcmp. induction l as [|y l IH]; simpl; [done|].
  rewrite Hcmp. destruct (cmpA x y); simpl; try done. by rewrite IH.
Qed.

Lemma Array_sort_map {A B : Type} (f : A -> B) cmpA cmpB l :
  (∀ a b, cmpB (f a) (f b) = cmpA a b) ->
  Array_sort cmpB (map f l) = map f (Array_sort cmpA l).
Proof.
  intros Hcmp. induction l as [|x l IH]; simpl; [done|].
  by rewrite IH, (sort_insert_map f cmpA cmpB).
Qed.

(** ** The canonical encoder *)

(** The encoder as the source states it: the entries are sorted, then
    each is encoded. *)
Lemma stableStringify_JObject lc entries :
  stableStringify lc (JObject entries)
  = cat ["{";
         join ","
           (map (fun kv => cat [quoteJSONString (fst kv); ":"; stableStringify lc (snd kv)])
              (sortedEntries lc entries));
         "}"].
Proof.
  cbn [stableStringify]. unfold sortedEntries.
  rewrite (Array_sort_map (fun kv : string * json => (fst kv, stableStringify lc (snd kv)))
             (fun a b => lc (fst a) (fst b))) by done.
  by rewrite map_map.
Qed.

Lemma forallb_elem_of {A : Type} (f : A -> bool) l :
  forallb f l = true <-> ∀ x, x ∈ l -> f x = true.
Proof. rewrite forallb_forall. by setoid_rewrite list_elem_of_In. Qed.

Lemma consistentOn_spec lc keys :
  consistentOn lc keys = true ->
  (∀ a b, a ∈ keys -> b ∈ keys -> lc b a = CompOpp (lc a b))
  ∧ (∀ a b c, a ∈ keys -> b ∈ keys -> c ∈ keys ->
       lc a b ≠ Gt -> lc b c ≠ Gt -> lc a c ≠ Gt).
Proof.
  unfold consistentOn. rewrite forallb_elem_of. intros H. split.
  - intros a b Ha Hb. specialize (H a Ha). rewrite forallb_elem_of in H.
    specialize (H b Hb). apply andb_prop in H as [H _]. by apply bool_decide_eq_true in H.
  - intros a b c Ha Hb Hc Hab Hbc. specialize (H a Ha). rewrite forallb_elem_of in H.
    specialize (H b Hb). apply andb_prop in H as [_ H]. rewrite forallb_elem_of in H.
    specialize (H c Hc). destruct (lc a b), (lc b c), (lc a c); done.
Qed.

Lemma distinguishes_spec lc keys :
  distinguishes lc keys = true ->
  ∀ a b, a ∈ keys -> b ∈ keys -> lc a b = Eq -> a = b.
Proof.
  unfold distinguishes. rewrite forallb_elem_of. intros H a b Ha Hb Hab.
  specialize (H a Ha). rewrite forallb_elem_of in H. specialize (H b Hb).
  rewrite Hab in H. by apply String.eqb_eq.
Qed.

Lemma elem_of_map_fst {V : Type} (l : list (string * V)) e : e ∈ l -> fst e ∈ map fst l.
Proof. intros H. rewrite map_fmap. by apply list_elem_of_fmap_2. Qed.

Lemma NoDup_keys_inj {V : Type} (l : list (string * V)) a b :
  NoDup (map fst l) -> a ∈ l -> b ∈ l -> fst a = fst b -> a = b.
Proof.
  induction l as [|e l IH]; simpl; intros Hnd Ha Hb Hab.
  { by apply elem_of_nil in Ha. }
  apply NoDup_cons in Hnd as [Hfresh Hnd].
  apply elem_of_cons in Ha as [->|Ha], Hb as [->|Hb]; try done.
  - exfalso. apply Hfresh. rewrite Hab. by apply elem_of_map_fst.
  - exfalso. apply Hfresh. rewrite <- Hab. by apply elem_of_map_fst.
  - by apply IH.
Qed.

Section SortedEntries.
Context {V : Type} (lc : string -> string -> comparison) (entries : list (string * V)).
Hypothesis Hconsistent : consistentOn lc (map fst entries) = true.

Lemma entryLeWithin_transitive : Transitive (entryLeWithin lc entries).
Proof.
  destruct (consistentOn_spec _ _ Hconsistent) as [_ Htrans].
  intros a b c (Ha & Hb & Hab) (_ & Hc & Hbc). split; [done|]. split; [done|].
  unfold entryLe in *. eapply (Htrans (fst a) (fst b) (fst c)); by try apply elem_of_map_fst.
Qed.

Lemma sortedEntries_Sorted_within l :
  l ⊆ entries -> Sorted (entryLeWithin lc entries) (sortedEntries lc l).
Proof.
  destruct (consistentOn_spec _ _ Hconsistent) as [Hswap _].
  intros Hsub. apply Array_sort_Sorted.
  - intros x y Hx Hy Hxy. split; [by apply Hsub|]. split; [by apply Hsub|]. done.
  - intros x y Hx Hy Hxy. split; [by apply Hsub|]. split; [by apply Hsub|].
    unfold entryLe. rewrite (Hswap (fst x) (fst y)), Hxy by (by apply elem_of_map_fst, Hsub).
    done.
Qed.

Lemma sortedEntries_StronglySorted :
  StronglySorted (entryLe lc) (sortedEntries lc entries).
Proof.
  assert (H : StronglySorted (entryLeWithin lc entries) (sortedEntries lc entries)).
  { apply (@Sorted_StronglySorted _ _ entryLeWithin_transitive).
    by apply sortedEntries_Sorted_within. }
  induction H as [|x l Hl IH Hx]; constructor; [done|].
  eapply Forall_impl; [exact Hx|]. by intros y (_ & _ & Hy).
Qed.

(** The sort is stable: entries whose keys compare equal are left in
    their order of enumeration. *)
Lemma sortedEntries_stable k :
  k ∈ map fst entries ->
  filter (fun e => lc k (fst e) = Eq) (sortedEntries lc entries)
  = filter (fun e => lc k (fst e) = Eq) entries.
Proof.
  destruct (consistentOn_spec _ _ Hconsistent) as [Hswap Htrans].
  intros Hk. apply Array_sort_filter. intros x y Hx Hy Hkx Hky.
  apply (Htrans (fst x) k (fst y)); try done; try by apply elem_of_map_fst.
  - rewrite (Hswap k (fst x)), Hkx by (done || by apply elem_of_map_fst). done.
  - by rewrite Hky.
Qed.

(** With keys that the collation tells apart, the sorted entries do not
    depend on the order of enumeration. *)
Lemma sortedEntries_canonical l :
  NoDup (map fst entries) ->
  distinguishes lc (map fst entries) = true ->
  entries ≡ₚ l ->
  sortedEntries lc entries = sortedEntries lc l.
Proof.
  destruct (consistentOn_spec _ _ Hconsistent) as [Hswap _].
  intros Hnd Hdist Hperm.
  pose proof (distinguishes_spec _ _ Hdist) as Heq.
  assert (Hanti : AntiSymm eq (entryLeWithin lc entries)).
  { intros a b (Ha & Hb & Hab) (_ & _ & Hba). unfold entryLe in *.
    apply (NoDup_keys_inj entries); try done.
    apply Heq; try by apply elem_of_map_fst.
    rewrite (Hswap (fst a) (fst b)) in Hba by (by apply elem_of_map_fst).
    by destruct (lc (fst a) (fst b)). }
  apply (@Sorted_unique _ (entryLeWithin lc entries) entryLeWithin_transitive Hanti).
  - by apply sortedEntries_Sorted_within.
  - apply sortedEntries_Sorted_within. intros x Hx. by rewrite Hperm.
  - unfold sortedEntries. by rewrite !Array_sort_Permutation.
Qed.
End SortedEntries.

(** C7 (as amended).  The canonical encoding of an object lists its
    entries sorted in ascending order of the collation of the host
    ([localeCompare]), provided the collation is a consistent comparator
    on the keys: the listed entries are a rearrangement of the entries
    of the object, and every key is at most the keys after it. *)
Theorem C7_keys_sorted_by_collation
    (lc : string -> string -> comparison) (entries : list (string * json)) :
  consistentOn lc (map fst entries) = true ->
  stableStringify lc (JObject entries)
  = cat ["{";
         join ","
           (map (fun kv => cat [quoteJSONString (fst kv); ":"; stableStringify lc (snd kv)])
              (sortedEntries lc entries));
         "}"]
  ∧ sortedEntries lc entries ≡ₚ entries
  ∧ StronglySorted (entryLe lc) (sortedEntries lc entries).
Proof.
  intros Hc. split; [apply stableStringify_JObject|].
  split; [apply Array_sort_Permutation|].
  by apply sortedEntries_StronglySorted.
Qed.

Lemma C7_keys_sorted_by_collation_witness :
  stableStringify collate mixedCaseObject
  = cat ["{";
         join ","
           (map (fun kv => cat [quoteJSONString (fst kv); ":"; stableStringify collate (snd kv)])
              (sortedEntries collate [("B", JNumber 1); ("a", JNumber 2)]));
         "}"]
  ∧ sortedEntries collate [("B", JNumber 1); ("a", JNumber 2)]
    ≡ₚ [("B", JNumber 1); ("a", JNumber 2)]
  ∧ StronglySorted (entryLe collate)
      (sortedEntries collate [("B", JNumber 1); ("a", JNumber 2)]).
Proof.
  apply (C7_keys_sorted_by_collation collate [("B", JNumber 1); ("a", JNumber 2)]).
  reflexivity.
Defined.

(** C7 as stated fails: in code point order the key B comes before the
    key a, yet the encoding lists a first, as the collation orders
    them. *)
Lemma C7_counterexample_not_code_point_order :
  String.compare "B" "a" = Lt
  ∧ map fst (sortedEntries collate [("B", JNumber 1); ("a", JNumber 2)]) = ["a"; "B"]
  ∧ stableStringify collate mixedCaseObject
    = cat ["{"; dq; "a"; dq; ":2,"; dq; "B"; dq; ":1}"].
Proof. repeat split; reflexivity. Qed.

(** ** Independence of the order of keys *)

Lemma stableStringify_equiv lc v :
  ∀ w, jsonEquiv v w -> keysOrdered lc v = true ->
       stableStringify lc v = stableStringify lc w.
Proof.
  induction v as [|b|n|s|items IH|entries IH] using json_deep_ind;
    intros w Hequiv Hordered; inversion Hequiv; subst; try done.
  - (* arrays *)
    match goal with H : Forall2 jsonEquiv _ _ |- _ => rename H into Hitems end.
    assert (Hmap : map (stableStringify lc) items = map (stableStringify lc) ys).
    { cbn [keysOrdered] in Hordered. rewrite forallb_elem_of in Hordered.
      clear Hequiv. revert IH Hordered.
      induction Hitems as [|x y xs ys' Hxy Hrest IHrest]; intros IH Hordered; [done|].
      apply Forall_cons in IH as [IHx IHxs]. simpl. f_equal.
      + apply IHx; [done|]. apply Hordered. by left.
      + apply IHrest; [done|]. intros z Hz. apply Hordered. by right. }
    cbn [stableStringify]. by rewrite Hmap.
  - (* objects *)
    match goal with
    | Hp : entries ≡ₚ ?fs, Hf : Forall2 _ ?fs _ |- _ => rename Hp into Hperm, Hf into Hfields
    end.
    cbn [keysOrdered] in Hordered.
    apply andb_prop in Hordered as [Hordered Hchildren].
    apply andb_prop in Hordered as [Hordered Hdist].
    apply andb_prop in Hordered as [Hnd Hcons].
    apply bool_decide_eq_true in Hnd. rewrite forallb_elem_of in Hchildren.
    rewrite List.Forall_forall in IH. setoid_rewrite <- list_elem_of_In in IH.
    set (enc := fun kv : string * json => (fst kv, stableStringify lc (snd kv))).
    assert (Hsame : map enc fs = map enc gs).
    { assert (Hin : ∀ e, e ∈ fs -> e ∈ entries) by (intros e He; by rewrite Hperm).
      clear Hperm Hequiv. induction Hfields as [|e g fs gs' [Hk Hv] Hrest IHrest]; [done|].
      simpl. f_equal.
      - unfold enc. rewrite Hk. f_equal.
        apply IH; [apply Hin; by left | done | apply Hchildren, Hin; by left].
      - apply IHrest. intros e' He'. apply Hin. by right. }
    assert (Hkeys : map fst (map enc entries) = map fst entries).
    { rewrite map_map. by apply map_ext. }
    assert (Hsorted : sortedEntries lc (map enc entries) = sortedEntries lc (map enc gs)).
    { rewrite <- Hsame.
      apply sortedEntries_canonical; rewrite ?Hkeys; try done. by apply Permutation_map. }
    cbn [stableStringify]. fold enc. by rewrite Hsorted.
Qed.

Lemma obj_get_Some entries k v :
  NoDup (map fst entries) -> obj_get entries k = Some v <-> (k, v) ∈ entries.
Proof.
  induction entries as [|[k' v'] entries IH]; simpl; intros Hnd.
  { split; [done|]. by intros ?%elem_of_nil. }
  apply NoDup_cons in Hnd as [Hfresh Hnd]. rewrite elem_of_cons.
  destruct (String.eqb_spec k' k) as [->|Hne].
  - split; [intros [= ->]; by left|]. intros [[= ->]|Hin]; [done|].
    exfalso. apply Hfresh. by apply (elem_of_map_fst entries (k, v)).
  - rewrite IH by done. split; [by right|]. intros [[= -> ->]|Hin]; done.
Qed.

Lemma obj_get_Permutation es fs k :
  NoDup (map fst es) -> es ≡ₚ fs -> obj_get es k = obj_get fs k.
Proof.
  intros Hnd Hperm.
  assert (Hnd' : NoDup (map fst fs)) by (by rewrite <- Hperm).
  apply option_eq. intros v. rewrite !obj_get_Some by done. by rewrite Hperm.
Qed.

Lemma obj_get_Forall2 fs gs k :
  Forall2 (fun e g => fst e = fst g ∧ jsonEquiv (snd e) (snd g)) fs gs ->
  option_Forall2 jsonEquiv (obj_get fs k) (obj_get gs k).
Proof.
  induction 1 as [|[k1 v1] [k2 v2] fs gs [Hk Hv] _ IH]; simpl; [constructor|].
  simpl in Hk, Hv. subst k2. destruct (String.eqb k1 k); [by constructor|done].
Qed.

Lemma prop_equiv v w k :
  jsonEquiv v w -> uniqueKeys v = true -> option_Forall2 jsonEquiv (prop v k) (prop w k).
Proof.
  intros Hequiv Hunique. inversion Hequiv; subst; cbn [prop]; try constructor.
  cbn [uniqueKeys] in Hunique. apply andb_prop in Hunique as [Hnd _].
  apply bool_decide_eq_true in Hnd.
  rewrite (obj_get_Permutation es fs) by done. by apply obj_get_Forall2.
Qed.

Lemma uniqueKeys_prop v k x : uniqueKeys v = true -> prop v k = Some x -> uniqueKeys x = true.
Proof.
  destruct v as [| | | | |entries]; try done. cbn [uniqueKeys prop].
  intros [_ Hall]%andb_prop. rewrite forallb_elem_of in Hall.
  induction entries as [|[k' v'] entries IH]; simpl; [done|].
  destruct (String.eqb k' k).
  - intros [= <-]. apply (Hall (k', v')). by left.
  - apply IH. intros e He. apply Hall. by right.
Qed.

Lemma obj_get_None entries k : obj_get entries k = None <-> k ∉ map fst entries.
Proof.
  induction entries as [|[k' v'] entries IH]; simpl.
  { split; [intros _ ?%elem_of_nil|]; done. }
  rewrite not_elem_of_cons. destruct (String.eqb_spec k' k) as [->|Hne].
  - split; [done|]. by intros [? _].
  - rewrite IH. split; [by split|]. by intros [_ ?].
Qed.

Lemma JS_String_equiv v : ∀ w, jsonEquiv v w -> JS_String v = JS_String w.
Proof.
  induction v as [|b|n|s|items IH|entries IH] using json_deep_ind;
    intros w Hequiv; inversion Hequiv; subst; try done.
  - match goal with H : Forall2 jsonEquiv _ _ |- _ => rename H into Hitems end.
    rewrite !JS_String_array. f_equal. clear Hequiv. revert IH.
    induction Hitems as [|x y xs ys' Hxy Hrest IHrest]; intros IH; [done|].
    apply Forall_cons in IH as [IHx IHxs]. cbn [mapM]. rewrite (IHrest IHxs). f_equal.
    unfold elementText. rewrite (IHx y Hxy). by inversion Hxy.
  - match goal with
    | Hp : entries ≡ₚ ?fs, Hf : Forall2 _ ?fs _ |- _ => rename Hp into Hperm, Hf into Hfields
    end.
    assert (Hkeys : map fst fs = map fst gs).
    { clear Hperm Hequiv. induction Hfields as [|e g fs gs' [Hk _] _ IHf]; [done|].
      simpl. by rewrite Hk, IHf. }
    cbn [JS_String].
    destruct (obj_get entries "toString") eqn:Hes, (obj_get gs "toString") eqn:Hgs;
      try done; exfalso.
    + apply obj_get_None in Hgs. rewrite <- Hkeys, <- Hperm in Hgs.
      apply obj_get_None in Hgs. congruence.
    + apply obj_get_None in Hes. rewrite Hperm, Hkeys in Hes.
      apply obj_get_None in Hes. congruence.
Qed.

Lemma truthy_equiv v w : jsonEquiv v w -> truthy v = truthy w.
Proof. by inversion 1. Qed.

Lemma isObjectLike_equiv v w : jsonEquiv v w -> isObjectLike v = isObjectLike w.
Proof. by inversion 1. Qed.

Lemma nullish_equiv a a' b b' :
  option_Forall2 jsonEquiv a a' -> option_Forall2 jsonEquiv b b' ->
  option_Forall2 jsonEquiv (nullish a b) (nullish a' b').
Proof.
  intros Ha Hb. destruct Ha as [x y Hxy|]; [|done].
  inversion Hxy; subst; cbn [nullish]; try done; by constructor.
Qed.

Lemma parseEdge_equiv e e' index :
  jsonEquiv e e' -> uniqueKeys e = true -> parseEdge e index = parseEdge e' index.
Proof.
  intros Hequiv Hunique.
  pose proof (fun k => prop_equiv e e' k Hequiv Hunique) as Hprop.
  assert (Hobject :
    (let fail :=
       Throws (ClientError
         (cat ["Edge at index "; pretty index;
               " must be an array like [from, to] or an object with from/to keys."])) in
     if truthy e && isObjectLike e then
       match nullish (nullish (prop e "from") (prop e "source")) (prop e "u"),
             nullish (nullish (prop e "to") (prop e "target")) (prop e "v") with
       | Some f, Some t => from ← JS_String f; to ← JS_String t; Returns (from, to)
       | _, _ => fail
       end
     else fail)
    = (let fail :=
         Throws (ClientError
           (cat ["Edge at index "; pretty index;
                 " must be an array like [from, to] or an object with from/to keys."])) in
       if truthy e' && isObjectLike e' then
         match nullish (nullish (prop e' "from") (prop e' "source")) (prop e' "u"),
               nullish (nullish (prop e' "to") (prop e' "target")) (prop e' "v") with
         | Some f, Some t => from ← JS_String f; to ← JS_String t; Returns (from, to)
         | _, _ => fail
         end
       else fail)).
  { cbv zeta. rewrite <- (truthy_equiv e e'), <- (isObjectLike_equiv e e') by done.
    destruct (truthy e && isObjectLike e); [|done].
    pose proof (nullish_equiv _ _ _ _
                  (nullish_equiv _ _ _ _ (Hprop "from") (Hprop "source")) (Hprop "u")) as Hf.
    pose proof (nullish_equiv _ _ _ _
                  (nullish_equiv _ _ _ _ (Hprop "to") (Hprop "target")) (Hprop "v")) as Ht.
    destruct Hf as [f f' Hf|]; [|done]. destruct Ht as [t t' Ht|]; [|done].
    by rewrite (JS_String_equiv _ _ Hf), (JS_String_equiv _ _ Ht). }
  inversion Hequiv; subst; try exact Hobject.
  match goal with H : Forall2 jsonEquiv _ _ |- _ => rename H into Hitems end.
  destruct Hitems as [|a a' ? ? Ha [|b b' ? ? Hb [|]]]; try exact Hobject.
  unfold parseEdge. by rewrite (JS_String_equiv _ _ Ha), (JS_String_equiv _ _ Hb).
Qed.

Lemma mapM_index_parseEdge_equiv l l' index :
  Forall2 jsonEquiv l l' -> forallb uniqueKeys l = true ->
  mapM_index parseEdge index l = mapM_index parseEdge index l'.
Proof.
  intros Hl. revert index. induction Hl as [|e e' l l' He _ IH]; intros index; [done|].
  cbn [forallb mapM_index]. intros [Hu Hul]%andb_prop.
  by rewrite (parseEdge_equiv e e' index He Hu), (IH (S index) Hul).
Qed.

Lemma mapM_JS_String_equiv l l' :
  Forall2 jsonEquiv l l' -> mapM JS_String l = mapM JS_String l'.
Proof.
  induction 1 as [|x y l l' Hxy _ IH]; [done|]. cbn [mapM].
  by rewrite (JS_String_equiv _ _ Hxy), IH.
Qed.

Lemma parseInput_equiv raw raw' :
  jsonEquiv raw raw' -> uniqueKeys raw = true -> parseInput raw = parseInput raw'.
Proof.
  intros Hequiv Hunique. unfold parseInput.
  rewrite <- (truthy_equiv raw raw'), <- (isObjectLike_equiv raw raw') by done.
  destruct (negb _); [done|].
  pose proof (prop_equiv raw raw' "edges" Hequiv Hunique) as Hedges.
  pose proof (prop_equiv raw raw' "vertices" Hequiv Hunique) as Hvertices.
  pose proof (uniqueKeys_prop raw "edges") as Huedges.
  destruct Hedges as [es es' Hes|]; [|done].
  specialize (Huedges es Hunique eq_refl).
  inversion Hes; subst; try done.
  match goal with H : Forall2 jsonEquiv _ _ |- _ => rename H into Hitems end.
  destruct Hitems as [|e e' l l' He Hl]; [done|].
  cbn [uniqueKeys] in Huedges.
  rewrite (mapM_index_parseEdge_equiv (e :: l) (e' :: l') 0) by (done || by constructor).
  assert (Hexplicit :
    match prop raw "vertices" with Some (JArray vs) => mapM JS_String vs | _ => Returns [] end
    = match prop raw' "vertices" with
      | Some (JArray vs) => mapM JS_String vs
      | _ => Returns []
      end).
  { destruct Hvertices as [vs vs' Hvs|]; [|done].
    inversion Hvs; subst; try done. by apply mapM_JS_String_equiv. }
  by rewrite Hexplicit.
Qed.

Lemma Number_equiv stn v w : jsonEquiv v w -> Number stn v = Number stn w.
Proof.
  intros Hequiv. pose proof (JS_String_equiv v w Hequiv) as Hs.
  inversion Hequiv; subst; try done; unfold Number; by rewrite Hs.
Qed.

Lemma parseOption_equiv stn def v w :
  jsonEquiv v w -> parseOption stn def v = parseOption stn def w.
Proof.
  intros Hequiv. unfold parseOption.
  rewrite (Number_equiv stn v w Hequiv), (JS_String_equiv v w Hequiv).
  destruct (type def); try done. by inversion Hequiv.
Qed.

Lemma isUnsupplied_equiv a b :
  option_Forall2 jsonEquiv a b -> isUnsupplied a = isUnsupplied b.
Proof. intros [x y Hxy|]; [|done]. by inversion Hxy. Qed.

Lemma parseOptionsLoop_equiv stn defs provided provided' parsed :
  jsonEquiv provided provided' -> uniqueKeys provided = true ->
  parseOptionsLoop stn defs provided parsed = parseOptionsLoop stn defs provided' parsed.
Proof.
  intros Hequiv Hunique. revert parsed.
  induction defs as [|def defs IH]; intros parsed; cbn [parseOptionsLoop]; [done|].
  pose proof (prop_equiv provided provided' (key def) Hequiv Hunique) as Hprop.
  rewrite <- (isUnsupplied_equiv _ _ Hprop).
  destruct (isUnsupplied (prop provided (key def))); [apply IH|].
  destruct Hprop as [x y Hxy|]; [|apply IH].
  rewrite (parseOption_equiv stn def x y Hxy). unfold_monad.
  destruct (parseOption stn def y); [apply IH|done].
Qed.

Lemma parseOptions_equiv stn defs raw raw' :
  jsonEquiv raw raw' -> uniqueKeys raw = true ->
  parseOptions stn defs raw = parseOptions stn defs raw'.
Proof.
  intros Hequiv Hunique. unfold parseOptions.
  rewrite <- (truthy_equiv raw raw'), <- (isObjectLike_equiv raw raw') by done.
  destruct (truthy raw && isObjectLike raw); [|done].
  by apply parseOptionsLoop_equiv.
Qed.

Lemma prepare_equiv host rawInput rawInput' rawOptions rawOptions' :
  jsonEquiv rawInput rawInput' -> uniqueKeys rawInput = true ->
  jsonEquiv rawOptions rawOptions' -> uniqueKeys rawOptions = true ->
  prepare host rawInput rawOptions = prepare host rawInput' rawOptions'.
Proof.
  intros Hi Hui Ho Huo. unfold prepare.
  by rewrite (parseInput_equiv _ _ Hi Hui), (parseOptions_equiv _ _ _ _ Ho Huo).
Qed.

Lemma jsonEquiv_refl v : jsonEquiv v v.
Proof.
  induction v as [|b|n|s|items IH|entries IH] using json_deep_ind; try by constructor.
  - constructor. induction IH; by constructor.
  - apply (equiv_object entries entries entries); [done|].
    induction IH; by constructor.
Qed.

Lemma rawOrEmpty_equiv payload payload' k :
  jsonEquiv payload payload' -> uniqueKeys payload = true ->
  jsonEquiv (default (JObject []) (nullish (prop payload k) None))
            (default (JObject []) (nullish (prop payload' k) None))
  ∧ uniqueKeys (default (JObject []) (nullish (prop payload k) None)) = true.
Proof.
  intros Hequiv Hunique.
  pose proof (prop_equiv payload payload' k Hequiv Hunique) as Hprop.
  pose proof (uniqueKeys_prop payload k) as Hu.
  destruct Hprop as [x y Hxy|]; [|split; [apply jsonEquiv_refl|done]].
  specialize (Hu x Hunique eq_refl).
  inversion Hxy; subst; cbn [nullish default from_option id]; split; try done;
    apply jsonEquiv_refl.
Qed.

(** Two run requests whose bodies parse to values that are equal up to
    the order of keys are handled alike. *)
Lemma handleRunAlgorithm_equiv host body body' payload payload' :
  body ≠ EmptyString -> body' ≠ EmptyString ->
  JSON_parse host body = Some payload ->
  JSON_parse host body' = Some payload' ->
  jsonEquiv payload payload' -> uniqueKeys payload = true ->
  handleRunAlgorithm host body = handleRunAlgorithm host body'.
Proof.
  intros Hb Hb' Hparse Hparse' Hequiv Hunique.
  unfold handleRunAlgorithm, parseJson.
  destruct (String.eqb_spec body EmptyString) as [?|_]; [done|].
  destruct (String.eqb_spec body' EmptyString) as [?|_]; [done|].
  rewrite Hparse, Hparse'.
  rewrite <- (truthy_equiv payload payload'), <- (isObjectLike_equiv payload payload') by done.
  destruct (negb _); [done|].
  pose proof (prop_equiv payload payload' "algorithmId" Hequiv Hunique) as Hid.
  destruct (rawOrEmpty_equiv payload payload' "input" Hequiv Hunique) as [Hi Hui].
  destruct (rawOrEmpty_equiv payload payload' "options" Hequiv Hunique) as [Ho Huo].
  rewrite <- (prepare_equiv host _ _ _ _ Hi Hui Ho Huo).
  destruct Hid as [x y Hxy|]; [|done].
  by inversion Hxy; subst.
Qed.

(** Where the collation tells the keys of every object apart (and
    orders them consistently), two values that are equal up to the order
    of object keys have the same canonical encoding and give the same
    fingerprint.  A run request is read by key: two bodies that parse to
    values equal up to the order of keys are validated alike and are
    answered alike. *)
Lemma encoding_independent_of_key_order
    (host : Platform) (algorithmId : string) (v v' other : json)
    (body body' : string) (payload payload' : json) :
  jsonEquiv v v' ->
  keysOrdered (localeCompare host) v = true ->
  body ≠ EmptyString -> body' ≠ EmptyString ->
  JSON_parse host body = Some payload ->
  JSON_parse host body' = Some payload' ->
  jsonEquiv payload payload' -> uniqueKeys payload = true ->
  stableStringify (localeCompare host) v = stableStringify (localeCompare host) v'
  ∧ createCacheKey (localeCompare host) (sha256_hex host) algorithmId v other
    = createCacheKey (localeCompare host) (sha256_hex host) algorithmId v' other
  ∧ createCacheKey (localeCompare host) (sha256_hex host) algorithmId other v
    = createCacheKey (localeCompare host) (sha256_hex host) algorithmId other v'
  ∧ prepare host (default (JObject []) (nullish (prop payload "input") None))
                 (default (JObject []) (nullish (prop payload "options") None))
    = prepare host (default (JObject []) (nullish (prop payload' "input") None))
                   (default (JObject []) (nullish (prop payload' "options") None))
  ∧ ∀ w, handleRunAlgorithm host body w = handleRunAlgorithm host body' w.
Proof.
  intros Hv Hordered Hb Hb' Hparse Hparse' Hequiv Hunique.
  pose proof (stableStringify_equiv _ v v' Hv Hordered) as Henc.
  unfold createCacheKey. rewrite Henc. repeat split.
  - destruct (rawOrEmpty_equiv payload payload' "input" Hequiv Hunique) as [Hi Hui].
    destruct (rawOrEmpty_equiv payload payload' "options" Hequiv Hunique) as [Ho Huo].
    by apply prepare_equiv.
  - intros w. by rewrite (handleRunAlgorithm_equiv host body body' payload payload').
Qed.

Lemma exampleInput_reordered : jsonEquiv exampleInputOrdered exampleInputReordered.
Proof.
  unfold exampleInputOrdered, exampleInputReordered.
  eapply equiv_object; [apply Permutation_swap|].
  repeat constructor; cbn [fst snd]; try done.
  eapply equiv_object; [apply Permutation_swap|].
  repeat constructor.
Qed.

Lemma exampleRequest_reordered : jsonEquiv orderedRequest reorderedRequest.
Proof.
  unfold orderedRequest, reorderedRequest.
  eapply equiv_object; [apply Permutation_swap|].
  repeat constructor; cbn [fst snd]; try done.
  apply exampleInput_reordered.
Qed.

Example encoding_independent_of_key_order_example :
  stableStringify collate exampleInputOrdered = stableStringify collate exampleInputReordered
  ∧ createCacheKey collate (fun text => text) karger_id exampleInputOrdered
      (JObject defaultOptions)
    = createCacheKey collate (fun text => text) karger_id exampleInputReordered
        (JObject defaultOptions)
  ∧ createCacheKey collate (fun text => text) karger_id (JObject defaultOptions)
      exampleInputOrdered
    = createCacheKey collate (fun text => text) karger_id (JObject defaultOptions)
        exampleInputReordered
  ∧ prepare (exampleHostFor [orderedRequest; reorderedRequest])
      (default (JObject []) (nullish (prop orderedRequest "input") None))
      (default (JObject []) (nullish (prop orderedRequest "options") None))
    = prepare (exampleHostFor [orderedRequest; reorderedRequest])
        (default (JObject []) (nullish (prop reorderedRequest "input") None))
        (default (JObject []) (nullish (prop reorderedRequest "options") None))
  ∧ ∀ w, handleRunAlgorithm (exampleHostFor [orderedRequest; reorderedRequest])
           (JSON_stringify orderedRequest) w
         = handleRunAlgorithm (exampleHostFor [orderedRequest; reorderedRequest])
             (JSON_stringify reorderedRequest) w.
Proof.
  apply (encoding_independent_of_key_order
           (exampleHostFor [orderedRequest; reorderedRequest]) karger_id
           exampleInputOrdered exampleInputReordered (JObject defaultOptions)
           (JSON_stringify orderedRequest) (JSON_stringify reorderedRequest)
           orderedRequest reorderedRequest).
  - exact exampleInput_reordered.
  - vm_compute. reflexivity.
  - vm_compute. discriminate.
  - vm_compute. discriminate.
  - vm_compute. reflexivity.
  - vm_compute. reflexivity.
  - exact exampleRequest_reordered.
  - vm_compute. reflexivity.
Qed.

(** C1.  The encoder does not give one encoding to values that are
    equal up to the order of keys.  The objects [{"a": 1, "a\u0001": 2}]
    and [{"a\u0001": 2, "a": 1}] differ in the order of their keys
    only; the collation ignores the control character and compares the
    two keys as equal, the sort leaves them in their order of
    enumeration, and the two canonical encodings differ, and with them
    the text that is hashed into the fingerprint. *)
Theorem C1_tied_keys_encoded_in_enumeration_order :
  jsonEquiv tiedObject tiedObjectSwapped
  ∧ collate "a" keyWithControl = Eq
  ∧ stableStringify collate tiedObject ≠ stableStringify collate tiedObjectSwapped
  ∧ createCacheKey collate (fun text => text) karger_id tiedObject (JObject [])
    ≠ createCacheKey collate (fun text => text) karger_id tiedObjectSwapped (JObject []).
Proof.
  split.
  { eapply equiv_object; [apply Permutation_swap|]. repeat constructor. }
  split; [reflexivity|]. split; vm_compute; discriminate.
Qed.

(** ** The size of the cut *)

Lemma computeCutSize_fold partA partB edges n :
  fold_left
    (fun cut edge =>
       let inA := Set_has partA (fst edge) in
       let inB := Set_has partB (fst edge) in
       let outA := Set_has partA (snd edge) in
       let outB := Set_has partB (snd edge) in
       if (inA && outB) || (inB && outA) then S cut else cut)
    edges n
  = (n + crossingEdges partA partB edges)%nat.
Proof.
  unfold crossingEdges. revert n.
  induction edges as [|edge edges IH]; intros n; simpl; [lia|].
  rewrite IH, filter_cons. unfold Set_has.
  destruct (decide (crosses partA partB edge)) as [Hc|Hc]; unfold crosses in Hc;
    repeat case_bool_decide; cbn [andb orb length]; try lia; tauto.
Qed.

Lemma computeCutSize_crossing partA partB edges :
  computeCutSize partA partB edges = crossingEdges partA partB edges.
Proof. unfold computeCutSize. by rewrite computeCutSize_fold. Qed.

(** C3 (as amended).  When the contraction ends with exactly two
    groups, the run returns these two groups, in the order of the
    component map, as the partitions, and as cut size the number of
    edges of the parsed edge list with one endpoint in each partition;
    the working edge list of the loop does not enter the result. *)
Theorem C3_cut_counts_crossing_edges_of_input
    (rnd : nat -> nat) (input : KargerInput) (w w' : World) (components : ComponentMap) :
  contract rnd input w = (Returns components, w') ->
  length components = 2%nat ->
  ∃ partA partB,
    Map_values components = [partA; partB]
    ∧ singleRun rnd input w
      = (Returns (crossingEdges partA partB (edges input), (partA, partB)), w').
Proof.
  intros Hrun Hlen. destruct components as [|[ka partA] [|[kb partB] [|? ?]]]; try done.
  exists partA, partB. split; [done|].
  unfold singleRun. unfold_monad. rewrite Hrun.
  unfold partitionsOf. cbn [Map_values map snd].
  by rewrite computeCutSize_crossing.
Qed.

Lemma C3_cut_counts_crossing_edges_of_input_witness :
  ∃ partA partB,
    Map_values [("C", ["C"]); ("A|B#1", ["A"; "B"])] = [partA; partB]
    ∧ singleRun (fun _ => 0%nat) parallelGraph emptyWorld
      = (Returns (crossingEdges partA partB (edges parallelGraph), (partA, partB)),
         advance 1 emptyWorld).
Proof.
  apply (C3_cut_counts_crossing_edges_of_input (fun _ => 0%nat) parallelGraph emptyWorld
           (advance 1 emptyWorld) [("C", ["C"]); ("A|B#1", ["A"; "B"])]).
  - vm_compute. reflexivity.
  - reflexivity.
Defined.

(** C3 as stated fails in its remark on the working edge list: the
    rewriting after a merge drops the edges that have become loops and
    nothing else.  After A and B are merged, both edges between B and C
    are still in the list, as two equal pairs. *)
Lemma C3_counterexample_parallel_edges_kept :
  mergeComponents "A" "B" (initialComponents parallelGraph) 1
  = Returns ("A|B#1", [("C", ["C"]); ("A|B#1", ["A"; "B"])])
  ∧ relabel "A" "B" "A|B#1" (edges parallelGraph) = [("A|B#1", "C"); ("A|B#1", "C")]
  ∧ ¬ NoDup (relabel "A" "B" "A|B#1" (edges parallelGraph)).
Proof.
  split; [reflexivity|]. split; [reflexivity|].
  change (relabel "A" "B" "A|B#1" (edges parallelGraph))
    with [("A|B#1", "C"); ("A|B#1", "C")].
  intros [Hfresh _]%NoDup_cons. apply Hfresh. by left.
Qed.

(** Both parallel edges between B and C are counted. *)
Example parallel_edges_counted :
  fst (singleRun (fun _ => 0%nat) parallelGraph emptyWorld)
  = Returns (2%nat, (["C"], ["A"; "B"])).
Proof. vm_compute. reflexivity. Qed.

(** ** A vertex named like a merged label *)

Ltac list_in := apply list_elem_of_In; simpl; tauto.
Ltac list_notin := rewrite list_elem_of_In; simpl; intuition discriminate.

(** C5.  The run on the graph with the vertices A, B and A|B#1 and the
    one edge A-B: merging A and B in step 1 produces the label A|B#1,
    which is the key of the third vertex, so its component is
    overwritten; one group is left, the run returns cut size 0 with the
    first partition holding A and B only, and the vertex A|B#1 is in
    neither partition.  The only edge makes this the outcome of every
    run. *)
Theorem C5_degenerate_run_drops_colliding_vertex (rnd : nat -> nat) (w : World) :
  parseInput collidingInput = Returns collidingGraph
  ∧ singleRun rnd collidingGraph w = (Returns (0%nat, (["A"; "B"], [])), advance 1 w)
  ∧ "A|B#1" ∈ vertices collidingGraph
  ∧ "A|B#1" ∉ ["A"; "B"].
Proof.
  split; [vm_compute; reflexivity|]. split; [vm_compute; reflexivity|].
  split; [list_in | list_notin].
Qed.

(** C10.  On the same graph the component map after the loop holds one
    group, with the members A and B, under the key A|B#1: the union of
    the groups is not the vertex set.  On the path A - B - C - A|B#1,
    when the first edge drawn is A-B, the loop ends with two groups and
    the two partitions returned hold A, B and C, not the fourth
    vertex. *)
Theorem C10_groups_lose_colliding_vertex (rnd : nat -> nat) (w : World) :
  (parseInput collidingInput = Returns collidingGraph
   ∧ contract rnd collidingGraph w = (Returns [("A|B#1", ["A"; "B"])], advance 1 w)
   ∧ "A|B#1" ∈ vertices collidingGraph
   ∧ "A|B#1" ∉ concat (Map_values [("A|B#1", ["A"; "B"])]))
  ∧ (parseInput collidingPathInput = Returns collidingPath
     ∧ singleRun (fun _ => 0%nat) collidingPath w
       = (Returns (1%nat, (["A"; "B"], ["C"])), advance 1 w)
     ∧ "A|B#1" ∈ vertices collidingPath
     ∧ "A|B#1" ∉ (["A"; "B"] ++ ["C"])%list).
Proof.
  split; (split; [vm_compute; reflexivity|]); (split; [vm_compute; reflexivity|]);
    (split; [list_in | list_notin]).
Qed.

(** ** Plain vertex names: the groups partition the vertices *)

Lemma cat_label stem suffix : cat [stem; "#"; suffix] = stem +:+ String "#" suffix.
Proof. reflexivity. Qed.

Lemma containsUnit_app c a b :
  containsUnit c (a +:+ b) = containsUnit c a || containsUnit c b.
Proof. induction a as [|c' a IH]; simpl; [done|]. by rewrite IH, orb_assoc. Qed.

Lemma containsUnit_join c sep parts :
  containsUnit c sep = false ->
  (∀ x, x ∈ parts -> containsUnit c x = false) ->
  containsUnit c (join sep parts) = false.
Proof.
  intros Hsep. unfold join. induction parts as [|x parts IH]; intros Hparts; [done|].
  destruct parts as [|y parts]; simpl.
  { apply Hparts. by left. }
  rewrite !containsUnit_app, Hsep, (Hparts x) by (by left). simpl.
  apply IH. intros z Hz. apply Hparts. by right.
Qed.

Lemma label_not_plain stem suffix : ¬ plainName (stem +:+ String "#" suffix).
Proof.
  unfold plainName. rewrite containsUnit_app. simpl. by rewrite orb_true_r.
Qed.

Lemma label_inj stem stem' suffix suffix' :
  plainName stem -> plainName stem' ->
  stem +:+ String "#" suffix = stem' +:+ String "#" suffix' ->
  stem = stem' ∧ suffix = suffix'.
Proof.
  unfold plainName. revert stem'.
  induction stem as [|c stem IH]; intros [|c' stem']; simpl; intros H1 H2 Heq.
  - by injection Heq as ->.
  - injection Heq as <- _. simpl in H2. done.
  - injection Heq as -> _. simpl in H1. done.
  - injection Heq as -> Heq. apply orb_false_elim in H1 as [_ H1], H2 as [_ H2].
    destruct (IH stem' H1 H2 Heq) as [-> ->]. done.
Qed.

Lemma Set_from_NoDup l : NoDup l -> Set_from l = l.
Proof.
  unfold Set_from. intros Hnd.
  assert (H : ∀ acc, NoDup (acc ++ l) -> fold_left Set_add l acc = (acc ++ l)%list).
  { clear Hnd. induction l as [|x l IH]; intros acc Hnd; simpl.
    - by rewrite app_nil_r.
    - assert (Hx : Set_add acc x = (acc ++ [x])%list).
      { unfold Set_add. rewrite (proj2 (Set_has_false acc x)); [done|].
        apply NoDup_app in Hnd as (_ & Hdisj & _). intros Hin.
        apply (Hdisj x Hin). by left. }
      rewrite Hx, IH; rewrite <- app_assoc; done. }
  by apply (H []).
Qed.

Lemma Map_set_fresh m k v : Map_get m k = None -> Map_set m k v = (m ++ [(k, v)])%list.
Proof.
  induction m as [|[k' v'] m IH]; simpl; [done|].
  destruct (String.eqb k' k); [done|]. intros H. by rewrite IH.
Qed.

Lemma Map_get_None m k : Map_get m k = None <-> k ∉ Map_keys m.
Proof.
  unfold Map_keys. induction m as [|[k' v] m IH]; simpl.
  - split; [intros _ H; by apply elem_of_nil in H|done].
  - rewrite not_elem_of_cons. destruct (String.eqb_spec k' k) as [->|Hne].
    + split; [done|]. by intros [? _].
    + rewrite IH. split; [by split|by intros [_ ?]].
Qed.

Lemma Map_get_Some m k g : NoDup (Map_keys m) -> Map_get m k = Some g <-> (k, g) ∈ m.
Proof.
  unfold Map_keys. induction m as [|[k' v] m IH]; simpl; intros Hnd.
  { split; [done|]. by intros ?%elem_of_nil. }
  apply NoDup_cons in Hnd as [Hfresh Hnd]. rewrite elem_of_cons.
  destruct (String.eqb_spec k' k) as [->|Hne].
  - split; [intros [= ->]; by left|]. intros [[= ->]|Hin]; [done|].
    exfalso. apply Hfresh. rewrite map_fmap. by apply (list_elem_of_fmap_2 fst m (k, g)).
  - rewrite IH by done. split; [by right|]. intros [[= -> ->]|Hin]; done.
Qed.

Lemma Map_delete_sublist m k : Map_delete m k `sublist_of` m.
Proof.
  induction m as [|[k' v] m IH]; simpl; [done|].
  destruct (String.eqb k' k); by constructor.
Qed.

Lemma Map_delete_absent m k : k ∉ Map_keys m -> Map_delete m k = m.
Proof.
  unfold Map_keys. induction m as [|[k' v] m IH]; simpl; [done|].
  rewrite not_elem_of_cons. intros [Hne Hk].
  destruct (String.eqb_spec k' k) as [->|_]; [done|]. by rewrite IH.
Qed.

(** Removing a key that is present splits its group off. *)
Lemma Map_delete_present m k g :
  NoDup (Map_keys m) -> Map_get m k = Some g ->
  ∃ before after,
    m = (before ++ (k, g) :: after)%list
    ∧ Map_delete m k = (before ++ after)%list.
Proof.
  unfold Map_keys. induction m as [|[k' v] m IH]; simpl; intros Hnd; [done|].
  apply NoDup_cons in Hnd as [Hfresh Hnd].
  destruct (String.eqb_spec k' k) as [->|Hne].
  - intros [= ->]. exists [], m. split; [done|]. simpl. by apply Map_delete_absent.
  - intros Hget. destruct (IH Hnd Hget) as (before & after & -> & Hdel).
    exists ((k', v) :: before), after. simpl. by rewrite Hdel.
Qed.

Lemma Map_values_app (m1 m2 : ComponentMap) :
  Map_values (m1 ++ m2)%list = (Map_values m1 ++ Map_values m2)%list.
Proof. unfold Map_values. apply map_app. Qed.

Lemma Map_keys_app (m1 m2 : ComponentMap) :
  Map_keys (m1 ++ m2)%list = (Map_keys m1 ++ Map_keys m2)%list.
Proof. unfold Map_keys. apply map_app. Qed.

Lemma elem_of_Map_values m k g : (k, g) ∈ m -> g ∈ Map_values m.
Proof. intros H. unfold Map_values. rewrite map_fmap. by apply (list_elem_of_fmap_2 snd m (k, g)). Qed.

Lemma elem_of_Map_keys m k g : (k, g) ∈ m -> k ∈ Map_keys m.
Proof. intros H. unfold Map_keys. rewrite map_fmap. by apply (list_elem_of_fmap_2 fst m (k, g)). Qed.

Lemma mergedLabelAt_mono step step' k :
  (step <= step')%nat -> mergedLabelAt step k -> mergedLabelAt step' k.
Proof. intros Hle (stem & s & Hstem & Hs & ->). exists stem, s. repeat split; [done|lia]. Qed.

Lemma loopInvariant_discard vertices step components edges i :
  loopInvariant vertices step components edges ->
  loopInvariant vertices (S step) components (delete i edges).
Proof.
  intros [Hpart Hlabels Hkeys Hsize]. split; try done.
  - by apply labelsKnown_delete.
  - intros k g Hin. destruct (Hkeys k g Hin) as [?|Hm]; [by left|].
    right. eapply mergedLabelAt_mono; [|exact Hm]. lia.
Qed.

Lemma loopInvariant_merge vertices step components edges from to fromSet toSet :
  NoDup vertices ->
  (∀ v, v ∈ vertices -> plainName v) ->
  loopInvariant vertices step components edges ->
  (2 < length components)%nat ->
  from ≠ to ->
  Map_get components from = Some fromSet ->
  Map_get components to = Some toSet ->
  loopInvariant vertices (S step)
    (Map_set (Map_delete (Map_delete components from) to)
       (cat [join "|" (Array_sort String.compare (Set_from (fromSet ++ toSet))); "#";
             pretty (S step)])
       (Set_from (fromSet ++ toSet)))
    (relabel from to
       (cat [join "|" (Array_sort String.compare (Set_from (fromSet ++ toSet))); "#";
             pretty (S step)])
       edges).
Proof.
  intros Hnd Hplain [[Hkeys_nd Hnonempty Hcover] Hlabels Hkeys Hsize] Hlen Hne Hfrom Hto.
  destruct (Map_delete_present components from fromSet Hkeys_nd Hfrom)
    as (b1 & a1 & Hc & Hdel1).
  assert (Hnd1 : NoDup (Map_keys (Map_delete components from))).
  { apply (sublist_NoDup _ (Map_keys components)); [done|].
    unfold Map_keys. rewrite !map_fmap. apply fmap_sublist, Map_delete_sublist. }
  assert (Hto1 : Map_get (Map_delete components from) to = Some toSet).
  { by rewrite Map_get_delete_ne. }
  destruct (Map_delete_present _ to toSet Hnd1 Hto1) as (b2 & a2 & Hc1 & Hdel2).
  set (rest := Map_delete (Map_delete components from) to) in *.
  assert (Hsub : ∀ e, e ∈ rest -> e ∈ components).
  { intros e He. eapply elem_of_sublist; [exact He|].
    etrans; apply Map_delete_sublist. }
  assert (Hperm : concat (Map_values components)
                  ≡ₚ (fromSet ++ toSet ++ concat (Map_values rest))%list).
  { rewrite Hc, Map_values_app. cbn [Map_values map snd]. fold (Map_values a1).
    rewrite concat_app. cbn [concat]. rewrite (Permutation_app_comm (concat (Map_values b1))).
    rewrite <- !app_assoc. apply Permutation_app_head.
    rewrite Permutation_app_comm, <- concat_app, <- Map_values_app, <- Hdel1.
    rewrite Hc1, Hdel2, !Map_values_app. cbn [Map_values map snd]. fold (Map_values a2).
    rewrite !concat_app. cbn [concat].
    rewrite (Permutation_app_comm (concat (Map_values b2))).
    rewrite <- !app_assoc. apply Permutation_app_head. apply Permutation_app_comm. }
  assert (Hall : NoDup (fromSet ++ toSet ++ concat (Map_values rest))).
  { by rewrite <- Hperm, Hcover. }
  assert (Hpair : NoDup (fromSet ++ toSet)).
  { rewrite app_assoc in Hall. by apply NoDup_app in Hall as [? _]. }
  rewrite (Set_from_NoDup _ Hpair).
  set (mergedSet := (fromSet ++ toSet)%list).
  set (stem := join "|" (Array_sort String.compare mergedSet)).
  assert (Hmembers : ∀ x, x ∈ mergedSet -> plainName x).
  { intros x Hx. apply Hplain. rewrite <- Hcover, Hperm, app_assoc.
    apply elem_of_app. by left. }
  assert (Hstem : plainName stem).
  { apply containsUnit_join; [done|]. intros x Hx. apply Hmembers.
    by rewrite Array_sort_Permutation in Hx. }
  rewrite cat_label.
  set (mergedLabel := stem +:+ String "#" (pretty (S step))).
  assert (Hfresh : Map_get rest mergedLabel = None).
  { apply Map_get_None. intros Hin. unfold Map_keys in Hin. rewrite map_fmap in Hin.
    apply list_elem_of_fmap in Hin as ([k g] & Hk & Hin). simpl in Hk. subst k.
    destruct (Hkeys _ _ (Hsub _ Hin)) as [[_ Hk]|(stem' & s & Hstem' & Hs & Hk)].
    - by apply label_not_plain in Hk.
    - unfold mergedLabel in Hk. apply label_inj in Hk as [_ Hk]; try done.
      apply (inj pretty) in Hk. lia. }
  rewrite (Map_set_fresh _ _ _ Hfresh).
  assert (Hlen_rest : (length rest + 2 = length components)%nat).
  { rewrite Hdel2. rewrite Hc. rewrite !length_app. simpl.
    assert (H1 : (length (b1 ++ a1) = length (b2 ++ (to, toSet) :: a2))%nat).
    { by rewrite <- Hdel1, Hc1. }
    rewrite !length_app in H1. simpl in H1. lia. }
  split.
  - split.
    + rewrite Map_keys_app. cbn [Map_keys map fst]. apply NoDup_app. split.
      * apply (sublist_NoDup _ (Map_keys (Map_delete components from))); [done|].
        unfold Map_keys. rewrite !map_fmap. apply fmap_sublist, Map_delete_sublist.
      * split; [|apply NoDup_singleton]. intros k Hk Hk'.
        apply list_elem_of_singleton in Hk'. subst k. by apply Map_get_None in Hfresh.
    + intros g. rewrite Map_values_app, elem_of_app. intros [Hg|Hg].
      * apply Hnonempty. unfold Map_values in *. rewrite map_fmap in *.
        apply list_elem_of_fmap in Hg as (e & -> & He).
        apply list_elem_of_fmap_2. by apply Hsub.
      * cbn [Map_values map snd] in Hg. apply list_elem_of_singleton in Hg. subst g.
        assert (HfromSet : fromSet ≠ []).
        { apply Hnonempty. eapply elem_of_Map_values. by apply Map_get_Some. }
        unfold mergedSet. by destruct fromSet.
    + rewrite Map_values_app, concat_app. cbn [Map_values map snd concat].
      rewrite app_nil_r, <- Hcover, Hperm. unfold mergedSet.
      rewrite Permutation_app_comm. by rewrite app_assoc.
  - fold rest. unfold mergedLabel. rewrite <- cat_label.
    rewrite <- (Map_set_fresh rest _ mergedSet) by (by rewrite cat_label).
    by apply labelsKnown_merge.
  - intros k g. rewrite elem_of_app. intros [Hin|Hin].
    + destruct (Hkeys _ _ (Hsub _ Hin)) as [?|Hm]; [by left|].
      right. eapply mergedLabelAt_mono; [|exact Hm]. lia.
    + apply list_elem_of_singleton in Hin. injection Hin as -> ->.
      right. by exists stem, (S step).
  - rewrite length_app. simpl. lia.
Qed.

Lemma contractLoop_partitions rnd vertices fuel step components edges w final w' :
  NoDup vertices ->
  (∀ v, v ∈ vertices -> plainName v) ->
  loopInvariant vertices step components edges ->
  contractLoop rnd fuel step components edges w = (Returns final, w') ->
  partitionOf vertices final ∧ (2 <= length final)%nat.
Proof.
  intros Hnd Hplain. revert step components edges w.
  induction fuel as [|fuel IH]; intros step components edges w Hinv; simpl.
  { unfold_monad. intros [= <- <-]. by destruct Hinv. }
  destruct ((2 <? length components)%nat && (0 <? length edges)%nat) eqn:Hcond.
  2:{ unfold_monad. intros [= <- <-]. by destruct Hinv. }
  apply andb_prop in Hcond as [Hsize Hlen].
  apply Nat.ltb_lt in Hsize. apply Nat.ltb_lt in Hlen.
  unfold_monad. unfold randomIndexBelow.
  set (i := (rnd (randomCalls w) mod length edges)%nat).
  assert (Hi : (i < length edges)%nat) by (apply Nat.mod_upper_bound; lia).
  destruct (lookup_lt_is_Some_2 edges i Hi) as [[rawFrom rawTo] Hedge].
  rewrite Hedge.
  destruct (inv_labels _ _ _ _ Hinv _ (list_elem_of_lookup_2 _ _ _ Hedge)) as [Hf Ht].
  cbn [fst snd] in Hf, Ht.
  rewrite (findRepresentative_key _ _ Hf), (findRepresentative_key _ _ Ht).
  destruct (String.eqb_spec rawFrom rawTo) as [->|Hne].
  - intros Hrun. eapply IH; [|exact Hrun]. by apply loopInvariant_discard.
  - unfold mergeComponents.
    apply Map_has_true in Hf as [fromSet Hf]. apply Map_has_true in Ht as [toSet Ht].
    rewrite Hf, Ht. cbn [fst snd]. intros Hrun.
    eapply IH; [|exact Hrun]. by apply loopInvariant_merge.
Qed.

Lemma initialComponents_eq vs acc :
  NoDup (Map_keys acc ++ vs) ->
  fold_left (fun components vertex => Map_set components vertex (Set_from [vertex])) vs acc
  = (acc ++ map (fun v => (v, [v])) vs)%list.
Proof.
  revert acc. induction vs as [|v vs IH]; intros acc Hnd; simpl.
  { by rewrite app_nil_r. }
  assert (Hfresh : Map_get acc v = None).
  { apply Map_get_None. intros Hin. apply NoDup_app in Hnd as (_ & Hdisj & _).
    apply (Hdisj v Hin). by left. }
  rewrite (Map_set_fresh _ _ _ Hfresh), IH.
  - by rewrite <- app_assoc.
  - rewrite Map_keys_app. cbn [Map_keys map fst]. by rewrite <- app_assoc.
Qed.

Lemma loopInvariant_initial input :
  validInput input ->
  (∀ v, v ∈ vertices input -> plainName v) ->
  loopInvariant (vertices input) 0 (initialComponents input) (edges input).
Proof.
  intros Hvalid Hplain. pose proof (labelsKnown_initial input Hvalid) as Hlabels.
  destruct Hvalid as (Hnd & Hlen & _ & _).
  unfold initialComponents in *. rewrite (initialComponents_eq _ []) in * by done.
  cbn [app]. split; [split| | |].
  - unfold Map_keys. rewrite map_map. cbn [fst]. by rewrite map_id.
  - intros g Hg. unfold Map_values in Hg. rewrite map_map, map_fmap in Hg.
    apply list_elem_of_fmap in Hg as (v & -> & _). done.
  - unfold Map_values. rewrite map_map. cbn [snd].
    clear. induction (vertices input) as [|v vs IH]; simpl; [done|]. by rewrite IH.
  - done.
  - intros k g Hin. rewrite map_fmap in Hin.
    apply list_elem_of_fmap in Hin as (v & [= -> ->] & Hv). left. split; [done|].
    by apply Hplain.
  - by rewrite length_map.
Qed.

(** On a graph whose vertex names are plain, the loop of [singleRun]
    ends with at least two groups that partition the vertices. *)
Lemma contract_partitions rnd input w final w' :
  validInput input ->
  (∀ v, v ∈ vertices input -> plainName v) ->
  contract rnd input w = (Returns final, w') ->
  partitionOf (vertices input) final ∧ (2 <= length final)%nat.
Proof.
  intros Hvalid Hplain Hrun. unfold contract in Hrun.
  eapply contractLoop_partitions; [| |by apply loopInvariant_initial|exact Hrun]; [|done].
  by destruct Hvalid.
Qed.

(** Hence the partitions a run returns hold every vertex exactly once;
    with other than two groups the cut size is 0 and the second
    partition is empty. *)
Lemma singleRun_partitions rnd input w :
  validInput input ->
  (∀ v, v ∈ vertices input -> plainName v) ->
  ∃ cut partA partB n,
    singleRun rnd input w = (Returns (cut, (partA, partB)), advance n w)
    ∧ (partA ++ partB)%list ≡ₚ vertices input
    ∧ (partB = [] -> cut = 0%nat ∧ partA ≡ₚ vertices input)
    ∧ (partB ≠ [] -> partA ≠ [] ∧ cut = crossingEdges partA partB (edges input)).
Proof.
  intros Hvalid Hplain. unfold singleRun. unfold_monad.
  destruct (contractLoop_returns rnd
              (length (initialComponents input) + length (edges input)) 0
              (initialComponents input) (edges input) w
              (labelsKnown_initial input Hvalid)) as (final & n & Hrun).
  fold (contract rnd input w) in Hrun. rewrite Hrun.
  destruct (contract_partitions _ _ _ _ _ Hvalid Hplain Hrun)
    as [[_ Hnonempty Hcover] Hsize].
  unfold partitionsOf.
  destruct final as [|[ka partA] [|[kb partB] [|third final]]]; simpl in Hsize; try lia.
  - cbn [Map_values map snd concat] in *. rewrite app_nil_r in Hcover.
    exists (computeCutSize partA partB (edges input)), partA, partB, n.
    split; [done|]. split; [done|]. split.
    + intros ->. exfalso. apply (Hnonempty []); [|done]. right. by left.
    + intros _. split; [apply Hnonempty; by left|apply computeCutSize_crossing].
  - cbn [Map_values map] in *. fold (Map_values final) in *.
    eexists 0%nat, _, [], n. split; [done|]. rewrite app_nil_r.
    split; [done|]. split; [done|]. done.
Qed.

(** * Further properties of the code *)

(** ** The option validator *)

Lemma map_fst_obj_set entries k v :
  map fst (obj_set entries k v)
  = if bool_decide (k ∈ map fst entries) then map fst entries
    else (map fst entries ++ [k])%list.
Proof.
  induction entries as [|[k' v'] entries IH]; simpl; [done|].
  destruct (String.eqb_spec k' k) as [->|Hne]; simpl.
  - rewrite bool_decide_eq_true_2; [done|]. by left.
  - rewrite IH. case_bool_decide as H1; case_bool_decide as H2; try done.
    + exfalso. apply H2. by right.
    + apply elem_of_cons in H2 as [?|?]; congruence.
Qed.












(** ** The input parser, beyond rejection *)

Lemma fold_Set_add_prefix items acc : acc `prefix_of` fold_left Set_add items acc.
Proof.
  revert acc. induction items as [|x items IH]; intros acc; simpl; [done|].
  etrans; [|apply IH]. unfold Set_add. destruct (Set_has acc x); [done|].
  by apply prefix_app_r.
Qed.

Lemma fold_Set_add_known items acc :
  (∀ x, x ∈ items -> x ∈ acc) -> fold_left Set_add items acc = acc.
Proof.
  induction items as [|x items IH]; intros Hknown; simpl; [done|].
  unfold Set_add at 2. rewrite (proj2 (Set_has_true acc x)) by (apply Hknown; by left).
  apply IH. intros y Hy. apply Hknown. by right.
Qed.

Lemma mapM_index_parseEdge_pairs l index :
  mapM_index parseEdge index
    (map (fun e : string * string => JArray [JString (fst e); JString (snd e)]) l)
  = Returns l.
Proof.
  revert index. induction l as [|[a b] l IH]; intros index; cbn [map mapM_index]; [done|].
  unfold_monad. cbn [parseEdge fst snd JS_String]. by rewrite IH.
Qed.


Lemma mapM_JS_String_strings l : mapM JS_String (map JString l) = Returns l.
Proof. induction l as [|x l IH]; [done|]. cbn [map mapM]. by rewrite IH. Qed.

(** X5.  Parsing is a left inverse of the plain-object form of its
    results: an input the parser could have returned, written as the
    object with its [vertices] and its [edges] as pairs, parses to
    itself, with the vertices in the same order. *)
Theorem X5_parseInput_round_trip (input : KargerInput) :
  validInput input -> parseInput (inputJson input) = Returns input.
Proof.
  intros (Hnd & Hlen & Hne & Hends). destruct input as [vs es]. cbn [vertices edges] in *.
  unfold parseInput, inputJson. cbn [truthy isObjectLike andb negb vertices edges].
  change (prop (JObject ?l) "edges") with (obj_get l "edges").
  change (prop (JObject ?l) "vertices") with (obj_get l "vertices").
  cbn [obj_get String.eqb Ascii.eqb Bool.eqb].
  destruct es as [|e es]; [done|]. cbn [map].
  change (JArray [JString (fst e); JString (snd e)]
          :: map (fun e0 : string * string => JArray [JString (fst e0); JString (snd e0)]) es)
    with (map (fun e0 : string * string => JArray [JString (fst e0); JString (snd e0)]) (e :: es)).
  unfold_monad. rewrite mapM_index_parseEdge_pairs.
  unfold stringsJson. rewrite mapM_JS_String_strings.
  unfold Set_from. rewrite fold_left_app. fold (Set_from vs). rewrite Set_from_NoDup by done.
  rewrite fold_Set_add_known.
  - destruct (Nat.ltb_spec (length vs) 2); [lia|done].
  - intros x Hx. apply list_elem_of_In, in_flat_map in Hx as (e' & He' & Hx).
    apply list_elem_of_In in He'. destruct (Hends e' He') as [H1 H2].
    simpl in Hx. destruct Hx as [<-|[<-|[]]]; done.
Qed.

Lemma X5_parseInput_round_trip_witness :
  parseInput (inputJson inputExample) = Returns inputExample.
Proof.
  apply (X5_parseInput_round_trip inputExample).
  unfold validInput, inputExample; cbn [vertices edges]. split; [|split; [|split]].
  - repeat (apply NoDup_cons; split; [list_notin|]). apply NoDup_nil_2.
  - simpl. lia.
  - done.
  - intros e He. repeat (apply elem_of_cons in He as [->|He]); [..|by apply elem_of_nil in He];
      split; list_in.
Defined.



(** A number from ten to the twenty-first power on is named in exponent
    form as a vertex. *)
Example large_number_vertex :
  parseInput (JObject [("edges", JArray [JArray [JNumber (10 ^ 21); JNumber 2]])])
  = Returns {| vertices := ["1e+21"; "2"]; edges := [("1e+21", "2")] |}.
Proof. vm_compute. reflexivity. Qed.

(** ** Runs, their number of steps and the best of them *)

Lemma relabel_length_lt from to mergedLabel edges :
  (from, to) ∈ edges ->
  (length (relabel from to mergedLabel edges) < length edges)%nat.
Proof.
  intros Hin. unfold relabel.
  match goal with
  | |- (length (filter _ (map ?f edges)) < _)%nat =>
      rewrite <- (List.length_map f edges), (map_fmap f edges)
  end.
  apply (length_filter_lt _ _ (mergedLabel, mergedLabel)).
  - apply list_elem_of_fmap. exists (from, to). split; [|done].
    cbn [fst snd]. by rewrite !String.eqb_refl, orb_true_r.
  - cbn [fst snd]. by intros H.
Qed.

(** Every iteration of the loop removes an edge from the working list,
    so the loop draws at most one random number per edge. *)
Lemma contractLoop_draws rnd fuel step components edges w :
  labelsKnown components edges ->
  ∃ final n,
    contractLoop rnd fuel step components edges w = (Returns final, advance n w)
    ∧ (n <= length edges)%nat.
Proof.
  revert step components edges w.
  induction fuel as [|fuel IH]; intros step components edges w Hknown; simpl.
  { exists components, 0%nat. rewrite advance_0. split; [done|lia]. }
  destruct ((2 <? length components)%nat && (0 <? length edges)%nat) eqn:Hcond.
  2:{ exists components, 0%nat. rewrite advance_0. split; [done|lia]. }
  apply andb_prop in Hcond as [_ Hlen]. apply Nat.ltb_lt in Hlen.
  unfold_monad. unfold randomIndexBelow.
  set (i := (rnd (randomCalls w) mod length edges)%nat).
  assert (Hi : (i < length edges)%nat) by (apply Nat.mod_upper_bound; lia).
  destruct (lookup_lt_is_Some_2 edges i Hi) as [[rawFrom rawTo] Hedge].
  rewrite Hedge.
  pose proof (list_elem_of_lookup_2 _ _ _ Hedge) as Hin.
  destruct (Hknown _ Hin) as [Hf Ht]. cbn [fst snd] in Hf, Ht.
  rewrite (findRepresentative_key _ _ Hf), (findRepresentative_key _ _ Ht).
  destruct (String.eqb rawFrom rawTo) eqn:Hsame.
  - destruct (IH (S step) components (delete i edges) (advance 1 w)) as (final & n & Hrun & Hn).
    { by apply labelsKnown_delete. }
    exists final, (n + 1)%nat. rewrite Hrun, advance_advance. split; [done|].
    rewrite length_delete in Hn by (by eexists). lia.
  - unfold mergeComponents.
    apply Map_has_true in Hf as [fromSet Hf]. apply Map_has_true in Ht as [toSet Ht].
    rewrite Hf, Ht. cbn [fst snd].
    match goal with
    | |- context [contractLoop rnd fuel (S step) ?c ?es (advance 1 w)] =>
        destruct (IH (S step) c es (advance 1 w)) as (final & n & Hrun & Hn);
        [by eapply labelsKnown_merge|];
        pose proof (relabel_length_lt rawFrom rawTo
                      (cat [join "|" (Array_sort String.compare (Set_from (fromSet ++ toSet)));
                            "#"; pretty (S step)]) edges Hin) as Hlt
    end.
    exists final, (n + 1)%nat. rewrite Hrun, advance_advance. split; [done|]. lia.
Qed.

Lemma crossingEdges_le partA partB edges :
  (crossingEdges partA partB edges <= length edges)%nat.
Proof. unfold crossingEdges. apply length_filter. Qed.

Lemma crossingEdges_nil_r partA edges : crossingEdges partA [] edges = 0%nat.
Proof.
  unfold crossingEdges. induction edges as [|e edges IH]; [done|].
  rewrite filter_cons. destruct (decide (crosses partA [] e)) as [Hc|_]; [|done].
  destruct Hc as [[_ H]|[H _]]; by apply elem_of_nil in H.
Qed.

Lemma partitionsOf_cut components input :
  fst (partitionsOf components input)
  = crossingEdges (fst (snd (partitionsOf components input)))
      (snd (snd (partitionsOf components input))) (edges input).
Proof.
  unfold partitionsOf.
  destruct (Map_values components) as [|partA [|partB [|third rest]]]; cbn [fst snd];
    rewrite ?crossingEdges_nil_r; try done.
  apply computeCutSize_crossing.
Qed.

Lemma singleRun_draws rnd input w :
  validInput input ->
  ∃ run n,
    singleRun rnd input w = (Returns run, advance n w)
    ∧ (n <= length (edges input))%nat
    ∧ fst run = crossingEdges (fst (snd run)) (snd (snd run)) (edges input).
Proof.
  intros Hvalid. unfold singleRun, contract. unfold_monad.
  destruct (contractLoop_draws rnd
              (length (initialComponents input) + length (edges input)) 0
              (initialComponents input) (edges input) w
              (labelsKnown_initial input Hvalid)) as (final & n & -> & Hn).
  eexists _, n. split; [done|]. split; [done|]. apply partitionsOf_cut.
Qed.

(** X7.  On a valid input a run always ends and returns: the loop
    removes an edge from its working list in every iteration, so a run
    draws at most as many random numbers as the input has edges; the
    run touches nothing else of the world, and its cut size is at most
    the number of edges. *)
Theorem X7_singleRun_ends_within_one_draw_per_edge
    (rnd : nat -> nat) (input : KargerInput) (w : World) :
  validInput input ->
  ∃ cut partitions n,
    singleRun rnd input w = (Returns (cut, partitions), advance n w)
    ∧ (n <= length (edges input))%nat
    ∧ (cut <= length (edges input))%nat.
Proof.
  intros Hvalid.
  destruct (singleRun_draws rnd input w Hvalid) as ([cut partitions] & n & Hrun & Hn & Hcut).
  exists cut, partitions, n. split; [done|]. split; [done|].
  cbn [fst] in Hcut. rewrite Hcut. apply crossingEdges_le.
Qed.

Lemma validInput_inputExample : validInput inputExample.
Proof.
  unfold validInput, inputExample; cbn [vertices edges]. split; [|split; [|split]].
  - repeat (apply NoDup_cons; split; [list_notin|]). apply NoDup_nil_2.
  - simpl. lia.
  - done.
  - intros e He. repeat (apply elem_of_cons in He as [->|He]); [..|by apply elem_of_nil in He];
      split; list_in.
Qed.

Lemma X7_singleRun_ends_within_one_draw_per_edge_witness :
  ∃ cut partitions n,
    singleRun (fun _ => 0%nat) inputExample emptyWorld
    = (Returns (cut, partitions), advance n emptyWorld)
    ∧ (n <= length (edges inputExample))%nat
    ∧ (cut <= length (edges inputExample))%nat.
Proof.
  apply (X7_singleRun_ends_within_one_draw_per_edge (fun _ => 0%nat) inputExample emptyWorld).
  apply validInput_inputExample.
Defined.

Lemma runIterations_best rnd remaining iteration input best w :
  validInput input ->
  (1 <= iteration)%nat ->
  bestInvariant input iteration best ->
  ∃ best' n,
    runIterations rnd remaining iteration input best w = (Returns best', advance n w)
    ∧ bestInvariant input (iteration + remaining) best'
    ∧ (n <= remaining * length (edges input))%nat
    ∧ ((0 < remaining)%nat -> is_Some (bestCut best')).
Proof.
  intros Hvalid. revert iteration best w.
  induction remaining as [|remaining IH]; intros iteration best w Hit Hinv; simpl.
  { exists best, 0%nat. rewrite advance_0, Nat.add_0_r. unfold_monad.
    split; [done|]. split; [done|]. split; lia. }
  unfold_monad.
  destruct (singleRun_draws rnd input w Hvalid) as ([cut parts] & n & -> & Hn & Hcut).
  cbn [fst snd] in *.
  destruct Hinv as [Hnum Hbest].
  assert (Hold : ∀ r, r ∈ runHistory best -> (fst r < iteration)%nat).
  { intros r Hr. assert (Hin : fst r ∈ map fst (runHistory best)).
    { rewrite map_fmap. apply list_elem_of_fmap. by exists r. }
    rewrite Hnum in Hin. apply list_elem_of_In, in_seq in Hin. lia. }
  match goal with
  | |- context [runIterations rnd remaining (S iteration) input ?b (advance n w)] =>
      destruct (IH (S iteration) b (advance n w)) as (best' & n' & Hrun & Hinv' & Hn' & _);
      [lia| |assert (Hsome : is_Some (bestCut b))]
  end.
  - split.
    + assert (Hh : ∀ b : Best, runHistory b = (runHistory best ++ [(iteration, cut)])%list ->
                map fst (runHistory b) = seq 1 (S iteration - 1)).
      { intros b ->. rewrite map_app, Hnum. cbn [map fst].
        replace (S iteration - 1)%nat with (iteration - 1 + 1)%nat by lia.
        rewrite seq_app. cbn [seq]. do 2 f_equal. lia. }
      destruct (bestCut best); [destruct (cut <? n0)%nat|]; by apply Hh.
    + destruct (bestCut best) as [b|] eqn:Hb.
      * destruct Hbest as [[Hmem Hleast] Hcross].
        destruct (Nat.ltb_spec cut b) as [Hlt|Hge]; cbn [bestCut runHistory bestIteration
                                                       bestPartitions fst snd]; rewrite ?Hb.
        -- split; [|done]. split; [apply elem_of_app; right; by left|].
           intros r Hr. apply elem_of_app in Hr as [Hr|Hr].
           ++ destruct (Hleast r Hr). split; lia.
           ++ apply list_elem_of_singleton in Hr as ->. cbn [fst snd]. split; lia.
        -- split; [|done]. split; [apply elem_of_app; by left|].
           intros r Hr. apply elem_of_app in Hr as [Hr|Hr]; [by apply Hleast|].
           apply list_elem_of_singleton in Hr as ->. cbn [fst snd]. split; [done|].
           intros _. specialize (Hold _ Hmem). cbn [fst] in Hold. lia.
      * cbn [bestCut runHistory bestIteration bestPartitions fst snd].
        rewrite Hbest. split; [|done]. split; [by left|].
        intros r Hr. apply list_elem_of_singleton in Hr as ->. cbn [fst snd]. split; lia.
  - destruct (bestCut best) as [b|] eqn:Hb; [destruct (cut <? b)%nat|];
      cbn [bestCut]; rewrite ?Hb; by eexists.
  - exists best', (n' + n)%nat. rewrite Hrun, advance_advance. split; [done|].
    split; [by replace (iteration + S remaining)%nat with (S iteration + remaining)%nat by lia|].
    split; [lia|]. intros _.
    destruct remaining as [|remaining']; [|].
    + simpl in Hrun. unfold_monad. by injection Hrun as <- _.
    + destruct (bestCut best') eqn:Hb'; [by eexists|].
      destruct Hinv' as [Hnum' Hbest']. rewrite Hb' in Hbest'.
      rewrite Hbest' in Hnum'. apply (f_equal length) in Hnum'.
      rewrite length_seq in Hnum'. cbn [map length] in Hnum'. lia.
Qed.

Lemma resolveIterations_positive input options : 1 <= resolveIterations input options.
Proof.
  unfold resolveIterations.
  destruct (obj_get options "iterations") as [[| |provided| | |]|]; try lia.
  destruct (Z.leb_spec 1 provided); lia.
Qed.

(** X8.  On a valid input [execute] performs at least one run, whatever
    the options hold, and returns.  Its run history numbers the runs 1,
    2, ... up to the number of iterations; the reported minimum cut is
    the least cut size of the history; the reported best iteration is
    the first run that reached it; the reported partitions are cut by
    exactly that many edges of the input; and the runs together draw at
    most one random number per edge and iteration. *)
Theorem X8_execute_reports_first_least_cut
    (rnd : nat -> nat) (input : KargerInput) (options : list (string * json)) (w : World) :
  validInput input ->
  ∃ best cut n,
    execute rnd input options w
    = (Returns (runResult (resolveIterations input options) best), advance n w)
    ∧ map fst (runHistory best) = seq 1 (Z.to_nat (resolveIterations input options))
    ∧ bestCut best = Some cut
    ∧ firstBest (runHistory best) (bestIteration best) cut
    ∧ cut = crossingEdges (fst (bestPartitions best)) (snd (bestPartitions best))
              (edges input)
    ∧ (n <= Z.to_nat (resolveIterations input options) * length (edges input))%nat.
Proof.
  intros Hvalid. unfold execute. unfold_monad.
  pose proof (resolveIterations_positive input options) as Hpos.
  destruct (runIterations_best rnd (Z.to_nat (resolveIterations input options)) 1 input
              {| bestCut := None; bestPartitions := ([], []);
                 bestIteration := 0%nat; runHistory := [] |} w Hvalid)
    as (best & n & -> & [Hnum Hbest] & Hn & Hsome); [lia|by split| ].
  destruct Hsome as [cut Hcut]; [lia|]. rewrite Hcut in Hbest. destruct Hbest as [Hfirst Hcross].
  exists best, cut, n. split; [done|].
  split; [by replace (1 + Z.to_nat (resolveIterations input options) - 1)%nat
             with (Z.to_nat (resolveIterations input options)) in Hnum by lia|].
  done.
Qed.

Lemma X8_execute_reports_first_least_cut_witness :
  ∃ best cut n,
    execute (fun _ => 0%nat) inputExample [("iterations", JNumber 3)] emptyWorld
    = (Returns (runResult (resolveIterations inputExample [("iterations", JNumber 3)]) best),
       advance n emptyWorld)
    ∧ map fst (runHistory best)
      = seq 1 (Z.to_nat (resolveIterations inputExample [("iterations", JNumber 3)]))
    ∧ bestCut best = Some cut
    ∧ firstBest (runHistory best) (bestIteration best) cut
    ∧ cut = crossingEdges (fst (bestPartitions best)) (snd (bestPartitions best))
              (edges inputExample)
    ∧ (n <= Z.to_nat (resolveIterations inputExample [("iterations", JNumber 3)])
            * length (edges inputExample))%nat.
Proof.
  apply (X8_execute_reports_first_least_cut (fun _ => 0%nat) inputExample
           [("iterations", JNumber 3)] emptyWorld).
  apply validInput_inputExample.
Defined.

Lemma runIterations_app rnd k1 k2 iteration input best w :
  runIterations rnd (k1 + k2) iteration input best w
  = match runIterations rnd k1 iteration input best w with
    | (Returns best1, w1) => runIterations rnd k2 (iteration + k1) input best1 w1
    | (Throws e, w1) => (Throws e, w1)
    end.
Proof.
  revert iteration best w. induction k1 as [|k1 IH]; intros iteration best w; simpl.
  { unfold_monad. by rewrite Nat.add_0_r. }
  unfold_monad. destruct (singleRun rnd input w) as [[run|e] w1]; [|done].
  rewrite IH. by replace (S iteration + k1)%nat with (iteration + S k1)%nat by lia.
Qed.

Lemma runIterations_improves rnd remaining iteration input best w best' w' :
  runIterations rnd remaining iteration input best w = (Returns best', w') ->
  runHistory best `prefix_of` runHistory best'
  ∧ ∀ bound, cutAtMost best bound -> cutAtMost best' bound.
Proof.
  revert iteration best w. induction remaining as [|remaining IH]; intros iteration best w; simpl.
  { unfold_monad. by intros [= <- <-]. }
  unfold_monad. destruct (singleRun rnd input w) as [[run|e] w1]; [|done].
  intros Hrun. apply IH in Hrun as [Hpre Hcut]. split.
  - etrans; [|exact Hpre].
    destruct (bestCut best); [destruct (_ <? _)%nat|]; cbn [runHistory]; by apply prefix_app_r.
  - intros bound Hb. apply Hcut. unfold cutAtMost in *.
    destruct (bestCut best) as [b|] eqn:Hbc; [|done].
    destruct (Nat.ltb_spec (fst run) b); cbn [bestCut]; rewrite ?Hbc; lia.
Qed.

(** X9.  More iterations extend a run of [execute] and never give a
    worse estimate: on the same random numbers, the loop run for
    [k + more] iterations goes through the state of the loop run for
    [k] iterations, so its history begins with the shorter history and
    its best cut is at most the best cut of the shorter run. *)
Theorem X9_more_iterations_never_worsen_the_best_cut
    (rnd : nat -> nat) (input : KargerInput) (k more : nat) (w : World) :
  validInput input ->
  ∃ shorter longer n n',
    runIterations rnd k 1 input noRunYet w = (Returns shorter, advance n w)
    ∧ runIterations rnd (k + more) 1 input noRunYet w = (Returns longer, advance (n' + n) w)
    ∧ runIterations rnd more (1 + k) input shorter (advance n w)
      = (Returns longer, advance (n' + n) w)
    ∧ runHistory shorter `prefix_of` runHistory longer
    ∧ ∀ bound, cutAtMost shorter bound -> cutAtMost longer bound.
Proof.
  intros Hvalid.
  destruct (runIterations_returns rnd k 1 input noRunYet w Hvalid) as (shorter & n & Hk & _).
  destruct (runIterations_returns rnd more (1 + k) input shorter (advance n w) Hvalid)
    as (longer & n' & Hmore & _).
  rewrite advance_advance in Hmore.
  exists shorter, longer, n, n'. split; [done|].
  split; [by rewrite runIterations_app, Hk|]. split; [done|].
  by eapply runIterations_improves.
Qed.

Lemma X9_more_iterations_never_worsen_the_best_cut_witness :
  ∃ shorter longer n n',
    runIterations (fun _ => 0%nat) 2 1 inputExample noRunYet emptyWorld
    = (Returns shorter, advance n emptyWorld)
    ∧ runIterations (fun _ => 0%nat) (2 + 3) 1 inputExample noRunYet emptyWorld
      = (Returns longer, advance (n' + n) emptyWorld)
    ∧ runIterations (fun _ => 0%nat) 3 (1 + 2) inputExample shorter (advance n emptyWorld)
      = (Returns longer, advance (n' + n) emptyWorld)
    ∧ runHistory shorter `prefix_of` runHistory longer
    ∧ ∀ bound, cutAtMost shorter bound -> cutAtMost longer bound.
Proof.
  apply (X9_more_iterations_never_worsen_the_best_cut (fun _ => 0%nat) inputExample 2 3
           emptyWorld).
  apply validInput_inputExample.
Defined.

(** X10.  On a valid input none of whose vertex names contains the
    separator [#] of merged labels, the two partitions a run returns
    hold every vertex of the input exactly once, and the first one is
    not empty.  When the second one is empty the cut size is 0; when it
    is not, the cut size is the number of input edges between the
    two. *)
Theorem X10_partitions_hold_every_plain_vertex_once
    (rnd : nat -> nat) (input : KargerInput) (w : World) :
  validInput input ->
  (∀ v, v ∈ vertices input -> plainName v) ->
  ∃ cut partA partB n,
    singleRun rnd input w = (Returns (cut, (partA, partB)), advance n w)
    ∧ NoDup (partA ++ partB)
    ∧ (∀ v, v ∈ vertices input <-> v ∈ partA ∨ v ∈ partB)
    ∧ partA ≠ []
    ∧ (partB = [] -> cut = 0%nat)
    ∧ (partB ≠ [] -> cut = crossingEdges partA partB (edges input)).
Proof.
  intros Hvalid Hplain.
  destruct (singleRun_partitions rnd input w Hvalid Hplain)
    as (cut & partA & partB & n & Hrun & Hperm & Hempty & Hfull).
  exists cut, partA, partB, n. split; [done|].
  destruct Hvalid as (Hnd & Hlen & _).
  split; [by rewrite Hperm|]. split.
  { intros v. by rewrite <- Hperm, elem_of_app. }
  split.
  { destruct partB as [|b partB]; [|by apply Hfull].
    rewrite app_nil_r in Hperm. intros ->. apply Permutation_length in Hperm.
    simpl in Hperm. lia. }
  split; [by intros H; apply Hempty|]. by intros H; apply Hfull.
Qed.

Lemma X10_partitions_hold_every_plain_vertex_once_witness :
  ∃ cut partA partB n,
    singleRun (fun _ => 0%nat) inputExample emptyWorld
    = (Returns (cut, (partA, partB)), advance n emptyWorld)
    ∧ NoDup (partA ++ partB)
    ∧ (∀ v, v ∈ vertices inputExample <-> v ∈ partA ∨ v ∈ partB)
    ∧ partA ≠ []
    ∧ (partB = [] -> cut = 0%nat)
    ∧ (partB ≠ [] -> cut = crossingEdges partA partB (edges inputExample)).
Proof.
  apply (X10_partitions_hold_every_plain_vertex_once (fun _ => 0%nat) inputExample emptyWorld).
  - apply validInput_inputExample.
  - intros v Hv. unfold inputExample in Hv; cbn [vertices] in Hv.
    repeat (apply elem_of_cons in Hv as [->|Hv]); [..|by apply elem_of_nil in Hv];
      reflexivity.
Defined.

(** ** The cut size, representatives and merging *)

Lemma crosses_sym partA partB e : crosses partA partB e <-> crosses partB partA e.
Proof. unfold crosses. tauto. Qed.

Lemma crosses_swap partA partB e : crosses partA partB (snd e, fst e) <-> crosses partA partB e.
Proof. unfold crosses. cbn [fst snd]. tauto. Qed.

Lemma crossingEdges_ext (P Q : string * string -> Prop)
    `{∀ e, Decision (P e)} `{∀ e, Decision (Q e)} (edges : list (string * string)) :
  (∀ e, P e <-> Q e) -> length (filter P edges) = length (filter Q edges).
Proof.
  intros Hiff. induction edges as [|e edges IH]; [done|].
  rewrite !filter_cons. destruct (decide (P e)) as [Hp|Hp], (decide (Q e)) as [Hq|Hq];
    simpl; try lia; exfalso; apply Hiff in Hp || apply Hiff in Hq; done.
Qed.

(** X11.  The cut size does not depend on which partition is named
    first, nor on the direction in which an edge is written, nor on the
    order or repetition of the members of a partition; it counts every
    edge on its own, so parallel edges count as often as they occur and
    the edges of two lists add up; and it is at most the number of
    edges. *)
Theorem X11_computeCutSize_symmetric_and_additive
    (partA partB : list string) (edges more : list (string * string)) :
  computeCutSize partA partB edges = computeCutSize partB partA edges
  ∧ computeCutSize partA partB (map (fun e => (snd e, fst e)) edges)
    = computeCutSize partA partB edges
  ∧ computeCutSize partA partB (edges ++ more)
    = (computeCutSize partA partB edges + computeCutSize partA partB more)%nat
  ∧ (computeCutSize partA partB edges <= length edges)%nat
  ∧ (∀ partA' partB',
       (∀ v, v ∈ partA <-> v ∈ partA') -> (∀ v, v ∈ partB <-> v ∈ partB') ->
       computeCutSize partA' partB' edges = computeCutSize partA partB edges).
Proof.
  rewrite !computeCutSize_crossing. unfold crossingEdges. repeat split.
  - apply crossingEdges_ext, crosses_sym.
  - induction edges as [|e edges IH]; [done|]. cbn [map]. rewrite !filter_cons.
    destruct (decide (crosses partA partB (snd e, fst e))) as [H1|H1],
             (decide (crosses partA partB e)) as [H2|H2]; simpl; try lia;
      exfalso; apply crosses_swap in H1 || (apply H1, crosses_swap); done.
  - by rewrite filter_app, length_app.
  - apply length_filter.
  - intros partA' partB' HA HB. rewrite computeCutSize_crossing. unfold crossingEdges.
    apply crossingEdges_ext. intros e. unfold crosses. by rewrite !HA, !HB.
Qed.

(** X12.  The representative of a label is a key of the component map:
    the label itself when it is a key, else the key of the first group,
    in the order of the map, that has the label as a member.  The
    lookup fails, with an error that is no client error, exactly when
    the label is neither a key nor a member of any group. *)
Theorem X12_findRepresentative_finds_the_group
    (label : string) (components : ComponentMap) :
  (∀ key, findRepresentative label components = Returns key ->
     Map_has components key = true
     ∧ (key = label
        ∨ Map_has components label = false
          ∧ ∃ before group after,
              components = (before ++ (key, group) :: after)%list
              ∧ label ∈ group
              ∧ ∀ entry, entry ∈ before -> label ∉ snd entry))
  ∧ (∀ e, findRepresentative label components = Throws e ->
       (∃ msg, e = OtherError msg)
       ∧ Map_has components label = false
       ∧ ∀ entry, entry ∈ components -> label ∉ snd entry)
  ∧ (Map_has components label = true ∨ (∃ entry, entry ∈ components ∧ label ∈ snd entry) ->
     ∃ key, findRepresentative label components = Returns key).
Proof.
  unfold findRepresentative.
  destruct (Map_has components label) eqn:Hhas.
  { split; [|split]; [|done|by eexists].
    intros key [= <-]. split; [done|by left]. }
  assert (Hfind : ∀ m : ComponentMap,
    match find (fun entry => Set_has (snd entry) label) m with
    | Some (key, group) =>
        ∃ before after, m = (before ++ (key, group) :: after)%list
          ∧ label ∈ group ∧ ∀ entry, entry ∈ before -> label ∉ snd entry
    | None => ∀ entry, entry ∈ m -> label ∉ snd entry
    end).
  { induction m as [|[k g] m IH]; cbn [find snd].
    { intros entry Hin. by apply elem_of_nil in Hin. }
    destruct (Set_has g label) eqn:Hg.
    - exists [], m. split; [done|]. split; [by apply Set_has_true|].
      intros entry Hin. by apply elem_of_nil in Hin.
    - apply Set_has_false in Hg.
      destruct (find _ m) as [[key group]|].
      + destruct IH as (before & after & -> & Hin & Hbefore).
        exists ((k, g) :: before), after. split; [done|]. split; [done|].
        intros entry Hentry. apply elem_of_cons in Hentry as [->|Hentry]; [done|].
        by apply Hbefore.
      + intros entry Hentry. apply elem_of_cons in Hentry as [->|Hentry]; [done|].
        by apply IH. }
  specialize (Hfind components).
  destruct (find _ components) as [[key group]|].
  - destruct Hfind as (before & after & Heq & Hin & Hbefore).
    split; [|split]; [|done|by eexists].
    intros key' [= <-]. split.
    + apply Map_has_true. rewrite Heq. clear.
      induction before as [|[k g] before IH]; simpl.
      * rewrite String.eqb_refl. by eexists.
      * destruct (String.eqb k key); [by eexists|done].
    + right. split; [done|]. by exists before, group, after.
  - split; [done|]. split.
    + intros e [= <-]. split; [by eexists|]. done.
    + intros [?|(entry & Hentry & Hin)]; [done|]. by destruct (Hfind entry Hentry).
Qed.

(** X13.  Merging succeeds exactly when both keys are in the component
    map.  It then puts the union of the two groups, each member once
    and the members of the first group first, under the new label, whose
    suffix is the step number; it removes the two old keys; and it
    leaves every group under another key as it was.  The map does not
    grow, and it shrinks when the two keys differ. *)
Theorem X13_mergeComponents_unites_two_groups
    (from to : string) (components : ComponentMap) (step : nat) :
  (∀ label merged,
     mergeComponents from to components step = Returns (label, merged) ->
     ∃ fromSet toSet mergedSet stem,
       Map_get components from = Some fromSet
       ∧ Map_get components to = Some toSet
       ∧ Map_get merged label = Some mergedSet
       ∧ NoDup mergedSet
       ∧ (∀ v, v ∈ mergedSet <-> v ∈ fromSet ∨ v ∈ toSet)
       ∧ Set_from fromSet `prefix_of` mergedSet
       ∧ label = stem +:+ String "#" (pretty step)
       ∧ (∀ k, k ≠ label -> k ≠ from -> k ≠ to -> Map_get merged k = Map_get components k)
       ∧ (from ≠ label -> Map_get merged from = None)
       ∧ (to ≠ label -> Map_get merged to = None)
       ∧ (length merged <= length components)%nat
       ∧ (from ≠ to -> (length merged < length components)%nat))
  ∧ (∀ e, mergeComponents from to components step = Throws e ->
       (∃ msg, e = OtherError msg)
       ∧ (Map_has components from = false ∨ Map_has components to = false))
  ∧ (Map_has components from = true -> Map_has components to = true ->
     ∃ result, mergeComponents from to components step = Returns result).
Proof.
  unfold mergeComponents, Map_has.
  destruct (Map_get components from) as [fromSet|] eqn:Hf.
  2:{ split; [done|]. split; [|done]. intros e [= <-]. split; [by eexists|by left]. }
  destruct (Map_get components to) as [toSet|] eqn:Ht.
  2:{ split; [done|]. split; [|done]. intros e [= <-]. split; [by eexists|by right]. }
  split; [|split; [done|by eexists]].
  intros label merged [= <- <-].
  exists fromSet, toSet, (Set_from (fromSet ++ toSet)),
    (join "|" (Array_sort String.compare (Set_from (fromSet ++ toSet)))).
  split; [done|]. split; [done|]. split; [apply Map_get_set_eq|].
  split; [apply NoDup_Set_from|].
  split; [intros v; by rewrite elem_of_Set_from, elem_of_app|].
  split.
  { unfold Set_from at 2. rewrite fold_left_app. apply fold_Set_add_prefix. }
  split.
  { apply cat_label. }
  split.
  { intros k Hk Hkf Hkt. by rewrite Map_get_set_ne, !Map_get_delete_ne. }
  split.
  { intros Hne. rewrite Map_get_set_ne by done.
    destruct (decide (to = from)) as [->|Hne']; [apply Map_get_delete_eq|].
    rewrite Map_get_delete_ne by done. apply Map_get_delete_eq. }
  split.
  { intros Hne. rewrite Map_get_set_ne by done. apply Map_get_delete_eq. }
  match goal with
  | |- context [Map_set ?c ?l ?s] => pose proof (Map_set_length c l s) as Hset
  end.
  assert (H1 : (length (Map_delete components from) < length components)%nat).
  { apply Map_delete_length_lt. by rewrite Hf. }
  pose proof (Map_delete_length (Map_delete components from) to) as H2.
  split; [lia|]. intros Hne.
  assert (H3 : (length (Map_delete (Map_delete components from) to)
                < length (Map_delete components from))%nat).
  { apply Map_delete_length_lt. rewrite Map_get_delete_ne by done. by rewrite Ht. }
  lia.
Qed.

(** ** Runs on connected graphs *)

Lemma crossingKept_initial input :
  validInput input -> crossingKept (edges input) (initialComponents input) (edges input).
Proof.
  intros (Hnd & _). unfold initialComponents.
  rewrite initialComponents_eq by (by rewrite app_nil_l). cbn [app].
  intros a b ka ga kb gb Hedge Hka Ha Hkb Hb _.
  rewrite map_fmap in Hka, Hkb.
  apply list_elem_of_fmap in Hka as (va & [= -> ->] & _).
  apply list_elem_of_fmap in Hkb as (vb & [= -> ->] & _).
  apply list_elem_of_singleton in Ha as ->. by apply list_elem_of_singleton in Hb as ->.
Qed.

Lemma elem_of_delete_ne {A : Type} (l : list A) i x y :
  x ∈ l -> l !! i = Some y -> x ≠ y -> x ∈ delete i l.
Proof.
  revert i. induction l as [|z l IH]; intros i Hx Hy Hne; [by apply elem_of_nil in Hx|].
  destruct i as [|i]; simpl in *.
  - injection Hy as ->. apply elem_of_cons in Hx as [->|Hx]; done.
  - apply elem_of_cons in Hx as [->|Hx]; [by left|]. right. by eapply IH.
Qed.

Lemma crossingKept_discard original components working i k :
  working !! i = Some (k, k) ->
  crossingKept original components working ->
  crossingKept original components (delete i working).
Proof.
  intros Hi Hkept a b ka ga kb gb Hedge Hka Ha Hkb Hb Hne.
  eapply elem_of_delete_ne; [by eapply Hkept|exact Hi|]. intros [= -> ->]. done.
Qed.

Lemma elem_of_relabel from to mergedLabel working x y :
  (x, y) ∈ working ->
  (if String.eqb x from || String.eqb x to then mergedLabel else x)
  ≠ (if String.eqb y from || String.eqb y to then mergedLabel else y) ->
  ((if String.eqb x from || String.eqb x to then mergedLabel else x),
   (if String.eqb y from || String.eqb y to then mergedLabel else y))
  ∈ relabel from to mergedLabel working.
Proof.
  intros Hin Hne. unfold relabel. apply list_elem_of_filter. split; [done|].
  rewrite map_fmap. apply list_elem_of_fmap. by exists (x, y).
Qed.

Lemma crossingKept_merge original components working from to fromSet toSet mergedLabel :
  NoDup (Map_keys components) ->
  NoDup (Map_keys (Map_set (Map_delete (Map_delete components from) to) mergedLabel
                     (Set_from (fromSet ++ toSet)))) ->
  Map_get components from = Some fromSet ->
  Map_get components to = Some toSet ->
  crossingKept original components working ->
  crossingKept original
    (Map_set (Map_delete (Map_delete components from) to) mergedLabel
       (Set_from (fromSet ++ toSet)))
    (relabel from to mergedLabel working).
Proof.
  intros Hnd Hnd' Hfrom Hto Hkept.
  set (merged := Map_set (Map_delete (Map_delete components from) to) mergedLabel
                   (Set_from (fromSet ++ toSet))) in *.
  (* where an entry of the new map comes from *)
  assert (Hentry : ∀ k g v, (k, g) ∈ merged -> v ∈ g ->
            ∃ k0 g0, (k0, g0) ∈ components ∧ v ∈ g0
                     ∧ k = (if String.eqb k0 from || String.eqb k0 to
                            then mergedLabel else k0)).
  { intros k g v Hin Hv. apply (Map_get_Some _ _ _ Hnd') in Hin. unfold merged in Hin.
    destruct (decide (mergedLabel = k)) as [<-|Hk].
    - rewrite Map_get_set_eq in Hin. injection Hin as <-.
      apply elem_of_Set_from, elem_of_app in Hv as [Hv|Hv].
      + exists from, fromSet. split; [by apply Map_get_Some|]. split; [done|].
        by rewrite String.eqb_refl.
      + exists to, toSet. split; [by apply Map_get_Some|]. split; [done|].
        by rewrite String.eqb_refl, orb_true_r.
    - rewrite Map_get_set_ne in Hin by done.
      destruct (decide (to = k)) as [<-|Hkt]; [by rewrite Map_get_delete_eq in Hin|].
      rewrite Map_get_delete_ne in Hin by done.
      destruct (decide (from = k)) as [<-|Hkf]; [by rewrite Map_get_delete_eq in Hin|].
      rewrite Map_get_delete_ne in Hin by done.
      exists k, g. split; [by apply Map_get_Some|]. split; [done|].
      destruct (String.eqb_spec k from) as [->|_]; [done|].
      by destruct (String.eqb_spec k to) as [->|_]. }
  intros a b ka ga kb gb Hedge Hka Ha Hkb Hb Hne.
  destruct (Hentry _ _ _ Hka Ha) as (ka0 & ga0 & Hka0 & Ha0 & ->).
  destruct (Hentry _ _ _ Hkb Hb) as (kb0 & gb0 & Hkb0 & Hb0 & ->).
  apply elem_of_relabel; [|done].
  eapply Hkept; try done. intros ->. done.
Qed.

(** The loop ends because two groups are left or because no edge is
    left; it never ends for lack of fuel. *)
Lemma contractLoop_exit rnd vertices original fuel step components edges w final w' :
  NoDup vertices ->
  (∀ v, v ∈ vertices -> plainName v) ->
  loopInvariant vertices step components edges ->
  crossingKept original components edges ->
  (length components + length edges <= fuel)%nat ->
  contractLoop rnd fuel step components edges w = (Returns final, w') ->
  partitionOf vertices final
  ∧ (2 <= length final)%nat
  ∧ ∃ finalEdges,
      crossingKept original final finalEdges
      ∧ ((length final <= 2)%nat ∨ finalEdges = []).
Proof.
  intros Hnd Hplain. revert step components edges w.
  induction fuel as [|fuel IH]; intros step components edges w Hinv Hkept Hfuel; simpl.
  { pose proof (inv_size _ _ _ _ Hinv). lia. }
  destruct ((2 <? length components)%nat && (0 <? length edges)%nat) eqn:Hcond.
  2:{ unfold_monad. intros [= <- <-].
      split; [by destruct Hinv|]. split; [by destruct Hinv|].
      exists edges. split; [done|]. apply andb_false_iff in Hcond as [Hc|Hc].
      - left. apply Nat.ltb_ge in Hc. lia.
      - right. apply Nat.ltb_ge in Hc. destruct edges; [done|simpl in Hc; lia]. }
  apply andb_prop in Hcond as [Hsize Hlen].
  apply Nat.ltb_lt in Hsize. apply Nat.ltb_lt in Hlen.
  unfold_monad. unfold randomIndexBelow.
  set (i := (rnd (randomCalls w) mod length edges)%nat).
  assert (Hi : (i < length edges)%nat) by (apply Nat.mod_upper_bound; lia).
  destruct (lookup_lt_is_Some_2 edges i Hi) as [[rawFrom rawTo] Hedge].
  rewrite Hedge.
  destruct (inv_labels _ _ _ _ Hinv _ (list_elem_of_lookup_2 _ _ _ Hedge)) as [Hf Ht].
  cbn [fst snd] in Hf, Ht.
  rewrite (findRepresentative_key _ _ Hf), (findRepresentative_key _ _ Ht).
  destruct (String.eqb_spec rawFrom rawTo) as [->|Hne].
  - intros Hrun. eapply IH; [| | |exact Hrun].
    + by apply loopInvariant_discard.
    + by eapply crossingKept_discard.
    + rewrite length_delete by (by eexists). lia.
  - unfold mergeComponents.
    apply Map_has_true in Hf as [fromSet Hf]. apply Map_has_true in Ht as [toSet Ht].
    rewrite Hf, Ht. cbn [fst snd]. intros Hrun.
    pose proof (loopInvariant_merge vertices step components edges rawFrom rawTo
                  fromSet toSet Hnd Hplain Hinv Hsize Hne Hf Ht) as Hinv'.
    eapply IH; [exact Hinv'| | |exact Hrun].
    + apply crossingKept_merge; try done.
      * by destruct Hinv as [[? _ _] _ _ _].
      * by destruct Hinv' as [[? _ _] _ _ _].
    + match goal with
      | |- (length (Map_set ?c ?l ?s) + length (relabel _ _ ?l edges) <= _)%nat =>
          pose proof (Map_set_length c l s) as Hset;
          pose proof (relabel_length rawFrom rawTo l edges) as Hrel
      end.
      assert (length (Map_delete (Map_delete components rawFrom) rawTo)
              < length (Map_delete components rawFrom))%nat.
      { apply Map_delete_length_lt. rewrite Map_get_delete_ne by done. by rewrite Ht. }
      assert (length (Map_delete components rawFrom) < length components)%nat.
      { apply Map_delete_length_lt. by rewrite Hf. }
      lia.
Qed.

Lemma elem_of_concat_values (components : ComponentMap) v :
  v ∈ concat (Map_values components) -> ∃ k g, (k, g) ∈ components ∧ v ∈ g.
Proof.
  induction components as [|[k g] components IH]; cbn [Map_values map snd concat].
  { intros H. by apply elem_of_nil in H. }
  rewrite elem_of_app. intros [Hv|Hv].
  - exists k, g. split; [by left|done].
  - destruct (IH Hv) as (k' & g' & Hin & Hv'). exists k', g'. split; [by right|done].
Qed.

(** On a connected graph with plain vertex names the loop ends with
    exactly two groups. *)
Lemma singleRun_connected
    (rnd : nat -> nat) (input : KargerInput) (w : World) :
  validInput input ->
  (∀ v, v ∈ vertices input -> plainName v) ->
  connected input ->
  ∃ cut partA partB n,
    singleRun rnd input w = (Returns (cut, (partA, partB)), advance n w)
    ∧ partA ≠ [] ∧ partB ≠ []
    ∧ (partA ++ partB)%list ≡ₚ vertices input
    ∧ cut = crossingEdges partA partB (edges input)
    ∧ (1 <= cut)%nat.
Proof.
  intros Hvalid Hplain Hconn. unfold singleRun. unfold_monad.
  destruct (contractLoop_returns rnd
              (length (initialComponents input) + length (edges input)) 0
              (initialComponents input) (edges input) w
              (labelsKnown_initial input Hvalid)) as (final & n & Hrun).
  fold (contract rnd input w) in Hrun. rewrite Hrun. unfold contract in Hrun.
  pose proof Hvalid as (Hnd & Hlen & Hne & Hends).
  destruct (contractLoop_exit rnd (vertices input) (edges input) _ _ _ _ _ _ _
              Hnd Hplain (loopInvariant_initial input Hvalid Hplain)
              (crossingKept_initial input Hvalid) (Nat.le_refl _) Hrun)
    as ([Hkeys Hnonempty Hcover] & Hsize & finalEdges & Hkept & Hexit).
  destruct final as [|[k1 g1] rest]; [simpl in Hsize; lia|].
  (* the first group against the others *)
  cbn [Map_values Map_keys map fst snd concat] in Hkeys, Hcover.
  fold (Map_values rest) in Hcover. fold (Map_keys rest) in Hkeys.
  apply NoDup_cons in Hkeys as [Hk1 Hkeys].
  assert (Hall : NoDup (g1 ++ concat (Map_values rest))) by (by rewrite Hcover).
  apply NoDup_app in Hall as (_ & Hdisjoint & _).
  assert (Hg1 : g1 ≠ []) by (apply Hnonempty; by left).
  assert (Hcross : ∃ a b kb gb, ((a, b) ∈ edges input ∨ (b, a) ∈ edges input)
                                ∧ a ∈ g1 ∧ (kb, gb) ∈ rest ∧ b ∈ gb ∧ kb ≠ k1).
  { destruct rest as [|[k2 g2] rest']; [simpl in Hsize; lia|].
    assert (Hg2 : g2 ≠ []) by (apply Hnonempty; right; by left).
    destruct g1 as [|v1 g1']; [done|]. destruct g2 as [|v2 g2']; [done|].
    destruct (Hconn (v1 :: g1')) as ([a b] & Hedge & Hsides).
    { exists v1. split; [|by left]. rewrite <- Hcover. apply elem_of_app. left. by left. }
    { exists v2. split.
      - rewrite <- Hcover. apply elem_of_app. right. cbn [Map_values map snd concat].
        apply elem_of_app. left. by left.
      - intros Hin. apply (Hdisjoint v2 Hin). cbn [Map_values map snd concat].
        apply elem_of_app. left. by left. }
    cbn [fst snd] in Hsides.
    assert (Hother : ∀ x, x ∈ vertices input -> x ∉ v1 :: g1' ->
              ∃ kb gb, (kb, gb) ∈ (k2, v2 :: g2') :: rest' ∧ x ∈ gb ∧ kb ≠ k1).
    { intros x Hx Hout. rewrite <- Hcover in Hx. apply elem_of_app in Hx as [Hx|Hx]; [done|].
      apply elem_of_concat_values in Hx as (kb & gb & Hin & Hxg).
      exists kb, gb. split; [done|]. split; [done|]. intros ->. apply Hk1.
      by eapply elem_of_Map_keys. }
    destruct (Hends _ Hedge) as [Ha Hb]. cbn [fst snd] in Ha, Hb.
    destruct Hsides as [[Hin Hout]|[Hin Hout]].
    - destruct (Hother b Hb Hout) as (kb & gb & Hkb & Hbg & Hne').
      exists a, b, kb, gb. split; [by left|done].
    - destruct (Hother a Ha Hout) as (kb & gb & Hkb & Hag & Hne').
      exists b, a, kb, gb. split; [by right|done]. }
  destruct Hcross as (a & b & kb & gb & Hedge & Ha & Hkb & Hb & Hne').
  (* an edge between two groups is still in the working list *)
  assert (Hworking : finalEdges ≠ []).
  { destruct Hedge as [Hedge|Hedge].
    - intros ->. eapply elem_of_nil, (Hkept a b k1 g1 kb gb); try done; [by left|by right].
    - intros ->. eapply elem_of_nil, (Hkept b a kb gb k1 g1); try done; [by right|by left]. }
  destruct Hexit as [Htwo|Hnone]; [|done].
  destruct rest as [|[k2 g2] [|third rest']]; simpl in Hsize, Htwo; try lia.
  unfold partitionsOf. cbn [Map_values map snd concat] in *. rewrite app_nil_r in Hcover.
  exists (computeCutSize g1 g2 (edges input)), g1, g2, n.
  split; [done|]. split; [done|]. split; [apply Hnonempty; right; by left|].
  split; [done|]. split; [apply computeCutSize_crossing|].
  rewrite computeCutSize_crossing. unfold crossingEdges.
  apply list_elem_of_singleton in Hkb. injection Hkb as -> ->.
  destruct Hedge as [Hedge|Hedge].
  - assert (Hin : (a, b) ∈ filter (crosses g1 g2) (edges input)).
    { apply list_elem_of_filter. split; [|done]. left. done. }
    destruct (filter (crosses g1 g2) (edges input)); [by apply elem_of_nil in Hin|simpl; lia].
  - assert (Hin : (b, a) ∈ filter (crosses g1 g2) (edges input)).
    { apply list_elem_of_filter. split; [|done]. right. done. }
    destruct (filter (crosses g1 g2) (edges input)); [by apply elem_of_nil in Hin|simpl; lia].
Qed.

Lemma connected_inputExample : connected inputExample.
Proof.
  intros side (v & Hv & Hin) (v' & Hv' & Hout).
  unfold inputExample in *; cbn [vertices edges] in *.
  destruct (decide ("A" ∈ side)) as [HA|HA], (decide ("B" ∈ side)) as [HB|HB],
           (decide ("C" ∈ side)) as [HC|HC], (decide ("D" ∈ side)) as [HD|HD];
    try (exfalso; repeat (apply elem_of_cons in Hv' as [->|Hv']; [done|]);
         by apply elem_of_nil in Hv');
    try (exfalso; repeat (apply elem_of_cons in Hv as [->|Hv]; [done|]);
         by apply elem_of_nil in Hv);
    first [ exists ("A", "B"); split; [list_in|cbn [fst snd]; tauto]
          | exists ("A", "C"); split; [list_in|cbn [fst snd]; tauto]
          | exists ("B", "D"); split; [list_in|cbn [fst snd]; tauto]
          | exists ("C", "D"); split; [list_in|cbn [fst snd]; tauto] ].
Qed.

Lemma plainName_inputExample v : v ∈ vertices inputExample -> plainName v.
Proof.
  intros Hv. unfold inputExample in Hv; cbn [vertices] in Hv.
  repeat (apply elem_of_cons in Hv as [->|Hv]); [..|by apply elem_of_nil in Hv]; reflexivity.
Qed.

Lemma runIterations_all (Q : nat * (list string * list string) -> Prop)
    rnd remaining iteration input best w best' w' :
  (∀ w0 run w1, singleRun rnd input w0 = (Returns run, w1) -> Q run) ->
  match bestCut best with Some c => Q (c, bestPartitions best) | None => True end ->
  runIterations rnd remaining iteration input best w = (Returns best', w') ->
  match bestCut best' with Some c => Q (c, bestPartitions best') | None => True end.
Proof.
  intros Hruns. revert iteration best w.
  induction remaining as [|remaining IH]; intros iteration best w Hbest; simpl.
  { unfold_monad. by intros [= <- <-]. }
  unfold_monad. destruct (singleRun rnd input w) as [[[cut parts]|e] w1] eqn:Hrun; [|done].
  apply IH. pose proof (Hruns _ _ _ Hrun) as HQ. cbn [fst snd].
  destruct (bestCut best) as [b|] eqn:Hb; [destruct (cut <? b)%nat|];
    cbn [bestCut bestPartitions]; rewrite ?Hb; done.
Qed.

(** X26.  On a connected graph whose vertex names do not contain the
    separator [#], every run contracts the graph down to exactly two
    groups and returns a proper cut: two non-empty partitions that
    together hold every vertex exactly once, with the number of input
    edges between them, which is at least 1; the degenerate branches of
    [singleRun] are reached on disconnected graphs only.  Hence the
    minimum cut that [execute] reports is the size of a proper cut, the
    one given by the reported partitions, and is never below the size of
    the true minimum cut. *)
Theorem X26_connected_graph_gives_a_proper_cut
    (rnd : nat -> nat) (input : KargerInput) (options : list (string * json)) (w : World) :
  validInput input ->
  (∀ v, v ∈ vertices input -> plainName v) ->
  connected input ->
  (∃ cut partitions n,
     singleRun rnd input w = (Returns (cut, partitions), advance n w)
     ∧ properCut input cut partitions)
  ∧ ∃ best cut n,
      execute rnd input options w
      = (Returns (runResult (resolveIterations input options) best), advance n w)
      ∧ bestCut best = Some cut
      ∧ properCut input cut (bestPartitions best)
      ∧ ∀ bound : nat,
          (∀ cut' partitions', properCut input cut' partitions' -> (bound <= cut')%nat) ->
          (bound <= cut)%nat.
Proof.
  intros Hvalid Hplain Hconn.
  assert (Hruns : ∀ w0, ∃ cut partitions n,
            singleRun rnd input w0 = (Returns (cut, partitions), advance n w0)
            ∧ properCut input cut partitions).
  { intros w0.
    destruct (singleRun_connected rnd input w0 Hvalid Hplain Hconn)
      as (c & pa & pb & n0 & Hs & H1 & H2 & H3 & H4 & H5).
    by exists c, (pa, pb), n0. }
  split; [apply Hruns|].
  unfold execute. unfold_monad.
  pose proof (resolveIterations_positive input options) as Hpos.
  destruct (runIterations_best rnd (Z.to_nat (resolveIterations input options)) 1 input
              {| bestCut := None; bestPartitions := ([], []);
                 bestIteration := 0%nat; runHistory := [] |} w Hvalid)
    as (best & n & Hrun & _ & _ & Hsome); [lia|by split| ].
  destruct Hsome as [cut Hcut]; [lia|].
  assert (Hall : ∀ w0 run w1, singleRun rnd input w0 = (Returns run, w1) ->
            properCut input (fst run) (snd run)).
  { intros w0 run w1 Hrun0. destruct (Hruns w0) as (c & parts & n0 & Hs & Hproper).
    rewrite Hs in Hrun0. by injection Hrun0 as <- _. }
  pose proof (runIterations_all (fun run => properCut input (fst run) (snd run)) rnd _ _ _
                {| bestCut := None; bestPartitions := ([], []);
                   bestIteration := 0%nat; runHistory := [] |} _ _ _ Hall I Hrun) as Hbest.
  rewrite Hcut in Hbest. cbn [fst snd] in Hbest.
  exists best, cut, n. rewrite Hrun. split; [done|]. split; [done|]. split; [done|].
  intros bound Hbound. by eapply Hbound.
Qed.

Lemma X26_connected_graph_gives_a_proper_cut_witness :
  (∃ cut partitions n,
     singleRun (fun _ => 0%nat) inputExample emptyWorld
     = (Returns (cut, partitions), advance n emptyWorld)
     ∧ properCut inputExample cut partitions)
  ∧ ∃ best cut n,
      execute (fun _ => 0%nat) inputExample defaultOptions emptyWorld
      = (Returns (runResult (resolveIterations inputExample defaultOptions) best),
         advance n emptyWorld)
      ∧ bestCut best = Some cut
      ∧ properCut inputExample cut (bestPartitions best)
      ∧ ∀ bound : nat,
          (∀ cut' partitions', properCut inputExample cut' partitions' ->
             (bound <= cut')%nat) ->
          (bound <= cut)%nat.
Proof.
  apply (X26_connected_graph_gives_a_proper_cut (fun _ => 0%nat) inputExample
           defaultOptions emptyWorld).
  - apply validInput_inputExample.
  - apply plainName_inputExample.
  - apply connected_inputExample.
Defined.

(** ** The handler as a whole *)

Lemma contractLoop_frame rnd fuel step components edges w :
  ∃ n, snd (contractLoop rnd fuel step components edges w) = advance n w.
Proof.
  revert step components edges w.
  induction fuel as [|fuel IH]; intros step components edges w; simpl.
  { exists 0%nat. by rewrite advance_0. }
  destruct (_ && _).
  2:{ exists 0%nat. by rewrite advance_0. }
  unfold_monad. unfold randomIndexBelow.
  destruct (edges !! _) as [[rawFrom rawTo]|]; [|by exists 1%nat].
  destruct (findRepresentative rawFrom components) as [from|]; [|by exists 1%nat].
  destruct (findRepresentative rawTo components) as [to|]; [|by exists 1%nat].
  destruct (String.eqb from to).
  - match goal with
    | |- context [contractLoop rnd fuel ?s ?c ?es (advance 1 w)] =>
        destruct (IH s c es (advance 1 w)) as [n Hn]
    end.
    exists (n + 1)%nat. by rewrite Hn, advance_advance.
  - destruct (mergeComponents from to components (S step)) as [merged|]; [|by exists 1%nat].
    match goal with
    | |- context [contractLoop rnd fuel ?s ?c ?es (advance 1 w)] =>
        destruct (IH s c es (advance 1 w)) as [n Hn]
    end.
    exists (n + 1)%nat. by rewrite Hn, advance_advance.
Qed.

Lemma singleRun_frame rnd input w : ∃ n, snd (singleRun rnd input w) = advance n w.
Proof.
  unfold singleRun, contract. unfold_monad.
  match goal with
  | |- context [contractLoop rnd ?f ?s ?c ?es w] =>
      destruct (contractLoop_frame rnd f s c es w) as [n Hn];
      destruct (contractLoop rnd f s c es w) as [[final|e] w']
  end; by exists n.
Qed.

Lemma runIterations_frame rnd remaining iteration input best w :
  ∃ n, snd (runIterations rnd remaining iteration input best w) = advance n w.
Proof.
  revert iteration best w. induction remaining as [|remaining IH]; intros iteration best w; simpl.
  { exists 0%nat. by rewrite advance_0. }
  unfold_monad. destruct (singleRun_frame rnd input w) as [n Hn].
  destruct (singleRun rnd input w) as [[run|e] w1]; simpl in Hn; subst w1; [|by exists n].
  match goal with
  | |- context [runIterations rnd remaining ?i input ?b (advance n w)] =>
      destruct (IH i b (advance n w)) as [n' Hn']
  end.
  exists (n' + n)%nat. by rewrite Hn', advance_advance.
Qed.

Lemma execute_frame rnd input options w :
  ∃ n, snd (execute rnd input options w) = advance n w.
Proof.
  unfold execute. unfold_monad.
  match goal with
  | |- context [runIterations rnd ?k ?i input ?b w] =>
      destruct (runIterations_frame rnd k i input b w) as [n Hn];
      destruct (runIterations rnd k i input b w) as [[best|e] w1]
  end; by exists n.
Qed.

Lemma requestFrame_refl w : requestFrame w w.
Proof. split; try done. by left. Qed.

Lemma requestFrame_advance n w : requestFrame w (advance n w).
Proof. split; try done; [simpl; lia|by left]. Qed.

(** What a run request can come to. *)
Lemma handleRunAlgorithm_outcome host body w :
  let result := handleRunAlgorithm host body w in
  requestFrame w (snd result)
  ∧ match fst result with
    | Returns response =>
        headers response = baseHeaders
        ∧ (statusCode response = 200 ∨ (statusCode response = 400 ∨ statusCode response = 404)
                                        ∧ snd result = w)
        ∧ (table (snd result) ≠ table w -> statusCode response = 200)
    | Throws e =>
        table (snd result) = table w
        ∧ (((∃ msg, e = ClientError msg) ∨ e = typeError) ∧ snd result = w
           ∨ getFault w = Some e ∨ putFault w = Some e)
    end.
Proof.
  cbv zeta. unfold handleRunAlgorithm.
  destruct (parseJson host body) as [payload|[msg|msg|]];
    try (cbn; split; [apply requestFrame_refl|]; split; [done|]; split; [tauto|done]).
  destruct (prop payload "algorithmId") as [[| | |[|c rest]| |]|];
    try (cbn; split; [apply requestFrame_refl|]; split; [done|]; split; [tauto|done]).
  destruct (negb (registry_has (String c rest)));
    try (cbn; split; [apply requestFrame_refl|]; split; [done|]; split; [tauto|done]).
  unfold_monad.
  destruct (prepare host _ _) as [[input options]|e] eqn:Hprep.
  2:{ cbn. split; [apply requestFrame_refl|]. split; [done|]. left.
      split; [by eapply prepare_throws|done]. }
  cbn [fst snd]. unfold dynamoGet.
  destruct (getFault w) as [e|] eqn:Hget.
  { cbn. split; [apply requestFrame_refl|]. split; [done|]. right. by left. }
  destruct (cachedResult (table w !! _)) as [stored|] eqn:Hcached.
  { cbn. split; [apply requestFrame_refl|]. split; [done|]. split; [tauto|done]. }
  destruct (execute_frame (Math_random host) input options w) as [n Hn].
  destruct (execute (Math_random host) input options w) as [[run|e] w1] eqn:Hrun;
    simpl in Hn; subst w1.
  2:{ exfalso. destruct (prepare_inv _ _ _ _ _ Hprep) as [Hin _].
      destruct (execute_returns (Math_random host) input options w (parseInput_valid _ _ Hin))
        as (best & n' & Hrun' & _). congruence. }
  unfold toISOString, dynamoPut. cbn [putFault advance clock].
  destruct (putFault w) as [e|] eqn:Hput.
  { cbn. split; [apply requestFrame_advance|]. split; [done|]. right. by right. }
  cbn. split; [|split; [done|]; split; [by left|done]].
  split; cbn; try done; [lia|]. right. eexists _, _. split; [done|]. split; [done|].
  split; reflexivity.
Qed.

Lemma handler_outcome host event w :
  let result := handler host event w in
  requestFrame w (snd result)
  ∧ headers (fst result) = baseHeaders
  ∧ knownStatus (statusCode (fst result))
  ∧ (table (snd result) ≠ table w -> statusCode (fst result) = 200)
  ∧ (statusCode (fst result) = 500 ->
     is_Some (getFault w) ∨ is_Some (putFault w)
     ∨ result = (buildResponse 500 (messageBody "Cannot convert object to primitive value"), w))
  ∧ (statusCode (fst result) = 404 ∨ statusCode (fst result) = 204 -> snd result = w).
Proof.
  cbv zeta. unfold handler, knownStatus.
  destruct (String.eqb _ "OPTIONS").
  { cbn. split; [apply requestFrame_refl|]. repeat split; try done; try tauto; lia. }
  unfold route.
  destruct (_ && _).
  { cbn. split; [apply requestFrame_refl|]. repeat split; try done; try tauto; lia. }
  destruct (_ && _).
  2:{ destruct (_ && _); cbn; (split; [apply requestFrame_refl|]);
        repeat split; try done; try tauto; lia. }
  pose proof (handleRunAlgorithm_outcome host (default EmptyString (body event)) w) as Hrun.
  cbv zeta in Hrun.
  destruct (handleRunAlgorithm host (default EmptyString (body event)) w) as [[response|e] w'].
  - cbn [fst snd] in *. destruct Hrun as (Hframe & Hheaders & Hstatus & Htable).
    split; [done|]. split; [done|]. split; [tauto|]. split; [done|]. split.
    + intros H500. destruct Hstatus as [?|[[?|?] _]]; lia.
    + intros [H404|H204]; destruct Hstatus as [?|[[?|?] ?]]; (done || lia).
  - cbn [fst snd] in *. destruct Hrun as (Hframe & Htable & Hcause).
    split; [done|]. split; [by destruct e|].
    split; [destruct e; cbn; tauto|]. split; [done|]. split.
    + intros H500. destruct Hcause as [[[[msg ->]| ->] ->]|[H|H]];
        [done | by right; right | left; by eexists | right; left; by eexists].
    + destruct e; cbn; intros [?|?]; lia.
Qed.

(** X14.  Whatever the request and the state of the store, the handler
    answers with the fixed CORS and content-type headers and with one of
    the status codes 200, 204, 400, 404 and 500. *)
Theorem X14_every_response_has_base_headers_and_known_status
    (host : Platform) (event : LambdaFunctionUrlEvent) (w : World) :
  headers (fst (handler host event w)) = baseHeaders
  ∧ knownStatus (statusCode (fst (handler host event w))).
Proof.
  destruct (handler_outcome host event w) as (_ & Hheaders & Hstatus & _). done.
Qed.

(** X15.  A request changes the world only within a frame: it may draw
    random numbers; and it writes to the table at most once, one item,
    under a key at which the table held no usable result, with that key
    as its [id] and the time of the request as [createdAt].  Nothing is
    ever deleted.  The table changes only when the answer is 200, and
    answers 204 and 404 leave the whole world as it was. *)
Theorem X15_handler_writes_one_item_on_a_miss_only
    (host : Platform) (event : LambdaFunctionUrlEvent) (w : World) :
  requestFrame w (snd (handler host event w))
  ∧ (table (snd (handler host event w)) ≠ table w ->
     statusCode (fst (handler host event w)) = 200)
  ∧ (statusCode (fst (handler host event w)) = 404
     ∨ statusCode (fst (handler host event w)) = 204 ->
     snd (handler host event w) = w).
Proof.
  destruct (handler_outcome host event w) as (Hframe & _ & _ & Htable & _ & Hsame). done.
Qed.

(** X16.  While the store works, a request is answered with status 500
    only when a conversion fails during validation: the answer carries
    the text of that [TypeError], and the world is left as it was.  The
    internal failures of the contraction (a label missing from the
    component map, a merge of groups that do not exist) cannot occur on
    a validated input. *)
Theorem X16_status_500_with_a_working_store
    (host : Platform) (event : LambdaFunctionUrlEvent) (w : World) :
  getFault w = None ->
  putFault w = None ->
  statusCode (fst (handler host event w)) = 500 ->
  handler host event w
  = (buildResponse 500 (messageBody "Cannot convert object to primitive value"), w).
Proof.
  intros Hget Hput H500.
  destruct (handler_outcome host event w) as (_ & _ & _ & _ & Hcause & _).
  destruct (Hcause H500) as [[e He]|[[e He]|Hconv]]; congruence.
Qed.

Lemma X16_status_500_with_a_working_store_witness :
  handler (exampleHost unconvertibleRequest) (postRun unconvertibleRequest) emptyWorld
  = (buildResponse 500 (messageBody "Cannot convert object to primitive value"), emptyWorld).
Proof.
  apply (X16_status_500_with_a_working_store (exampleHost unconvertibleRequest)
           (postRun unconvertibleRequest) emptyWorld);
    reflexivity.
Defined.

(** ** Run requests *)

Lemma obj_set_obj_set entries k v v' :
  obj_set (obj_set entries k v) k v' = obj_set entries k v'.
Proof.
  induction entries as [|[k0 v0] entries IH]; simpl.
  - by rewrite String.eqb_refl.
  - destruct (String.eqb_spec k0 k) as [->|Hne]; simpl.
    + by rewrite String.eqb_refl.
    + destruct (String.eqb_spec k0 k); [done|]. by rewrite IH.
Qed.

Lemma augmentResultWithOptions_twice result options options' :
  augmentResultWithOptions (augmentResultWithOptions result options) options'
  = augmentResultWithOptions result options'.
Proof.
  unfold augmentResultWithOptions. cbn [spread prop].
  rewrite obj_get_obj_set_eq. cbn [spread].
  by rewrite !obj_set_obj_set.
Qed.

(** X17.  Recording the options in a result, an object with the
    entries [stored], touches nothing but [diagnostics.optionsUsed]: the
    entries keep their order, with [diagnostics] added last when there
    was none; under every key but [diagnostics] the result has what
    [stored] has, and under every key but [optionsUsed] its diagnostics
    have what the diagnostics of [stored] had; the options recorded are
    the ones given; and recording twice is recording the last options,
    so that a result that already carries options, such as a stored one,
    ends with the new options only. *)
Theorem X17_augmentResultWithOptions_records_last_options
    (stored : list (string * json)) (options options' : list (string * json)) :
  ∃ entries diagnostics,
    augmentResultWithOptions (JObject stored) options = JObject entries
    ∧ map fst entries
      = (if bool_decide ("diagnostics" ∈ map fst stored)
         then map fst stored
         else (map fst stored ++ ["diagnostics"])%list)
    ∧ obj_get entries "diagnostics" = Some (JObject diagnostics)
    ∧ (∀ k, k ≠ "diagnostics" -> obj_get entries k = obj_get stored k)
    ∧ obj_get diagnostics "optionsUsed" = Some (JObject options)
    ∧ (∀ before, obj_get stored "diagnostics" = Some (JObject before) ->
         ∀ k, k ≠ "optionsUsed" -> obj_get diagnostics k = obj_get before k)
    ∧ (obj_get stored "diagnostics" = None ->
         diagnostics = [("optionsUsed", JObject options)])
    ∧ augmentResultWithOptions (augmentResultWithOptions (JObject stored) options) options'
      = augmentResultWithOptions (JObject stored) options'.
Proof.
  eexists _, _. split; [reflexivity|]. cbn [spread prop].
  split; [apply map_fst_obj_set|]. split; [apply obj_get_obj_set_eq|].
  split; [intros k Hk; by apply obj_get_obj_set_ne|].
  split; [apply obj_get_obj_set_eq|]. split; [|split].
  - intros before Hbefore k Hk. rewrite Hbefore. cbn [spread].
    by apply obj_get_obj_set_ne.
  - by intros ->.
  - apply augmentResultWithOptions_twice.
Qed.

(** X18.  A run request that was computed is answered from the store
    when it comes again, in whatever form: with a working store, the
    first request runs the algorithm and stores the result under the
    fingerprint; a request that validates to the same input and options
    (the same request, or one that writes the edges or the options
    differently) then gets the same result on the world the first one
    left, now with [cached = true], without drawing a random number or
    writing again. *)
Theorem X18_repeated_request_is_answered_from_the_store
    (host : Platform) (event event' : LambdaFunctionUrlEvent) (w : World)
    (payload payload' : json) (input : KargerInput) (options : list (string * json)) :
  method event = Some "POST" ->
  normalisePath host (path event) = "/run" ->
  parseJson host (default EmptyString (body event)) = Returns payload ->
  prop payload "algorithmId" = Some (JString karger_id) ->
  prepare host (default (JObject []) (nullish (prop payload "input") None))
               (default (JObject []) (nullish (prop payload "options") None))
  = Returns (input, options) ->
  method event' = Some "POST" ->
  normalisePath host (path event') = "/run" ->
  parseJson host (default EmptyString (body event')) = Returns payload' ->
  prop payload' "algorithmId" = Some (JString karger_id) ->
  prepare host (default (JObject []) (nullish (prop payload' "input") None))
               (default (JObject []) (nullish (prop payload' "options") None))
  = Returns (input, options) ->
  getFault w = None ->
  putFault w = None ->
  cachedResult (table w !! createCacheKey (localeCompare host) (sha256_hex host) karger_id
                             (inputJson input) (JObject options)) = None ->
  ∃ result w1,
    handler host event w
    = (buildResponse 200
         (JSON_stringify (JObject [("algorithmId", JString karger_id);
                                   ("cached", JBool false);
                                   ("result", result)])), w1)
    ∧ handler host event' w1
      = (buildResponse 200
           (JSON_stringify (JObject [("algorithmId", JString karger_id);
                                     ("cached", JBool true);
                                     ("result", result)])), w1)
    ∧ handler host event w1 = handler host event' w1.
Proof.
  intros Hm Hp Hjson Hid Hprep Hm' Hp' Hjson' Hid' Hprep' Hget Hput Hmiss.
  destruct (handler_cache_miss host event w payload input options
              Hm Hp Hjson Hid Hprep Hget Hput Hmiss) as (best & n & _ & _ & Hfirst).
  eexists _, _. split; [exact Hfirst|].
  assert (Hagain : ∀ ev pl,
    method ev = Some "POST" ->
    normalisePath host (path ev) = "/run" ->
    parseJson host (default EmptyString (body ev)) = Returns pl ->
    prop pl "algorithmId" = Some (JString karger_id) ->
    prepare host (default (JObject []) (nullish (prop pl "input") None))
                 (default (JObject []) (nullish (prop pl "options") None))
    = Returns (input, options) ->
    handler host ev (snd (handler host event w))
    = (buildResponse 200
         (JSON_stringify
            (JObject [("algorithmId", JString karger_id);
                      ("cached", JBool true);
                      ("result",
                         augmentResultWithOptions
                           (runResult (resolveIterations input options) best) options)])),
       snd (handler host event w))).
  { intros ev pl Hm0 Hp0 Hjson0 Hid0 Hprep0. rewrite Hfirst. cbn [snd].
    rewrite handler_post_run by done.
    unfold handleRunAlgorithm. rewrite Hjson0, Hid0.
    unfold karger_id in *. cbv beta iota.
    change (registry_has "karger-min-cut") with true. cbn [negb].
    unfold_monad. rewrite Hprep0. cbn [fst snd].
    unfold dynamoGet. cbn [getFault withItem advance table]. rewrite Hget.
    rewrite lookup_insert_eq. unfold cachedResult. cbn [mbind option_bind prop obj_get].
    cbn [String.eqb Ascii.eqb Bool.eqb].
    unfold augmentResultWithOptions at 1. cbn [truthy].
    by rewrite augmentResultWithOptions_twice. }
  rewrite Hfirst in Hagain. cbn [snd] in Hagain.
  split; [by eapply Hagain|]. by rewrite (Hagain event payload), (Hagain event' payload').
Qed.

Lemma X18_repeated_request_is_answered_from_the_store_witness :
  ∃ result w1,
    handler (exampleHostFor [orderedRequest; reorderedRequest]) (postRun orderedRequest)
      emptyWorld
    = (buildResponse 200
         (JSON_stringify (JObject [("algorithmId", JString karger_id);
                                   ("cached", JBool false);
                                   ("result", result)])), w1)
    ∧ handler (exampleHostFor [orderedRequest; reorderedRequest]) (postRun reorderedRequest) w1
      = (buildResponse 200
           (JSON_stringify (JObject [("algorithmId", JString karger_id);
                                     ("cached", JBool true);
                                     ("result", result)])), w1)
    ∧ handler (exampleHostFor [orderedRequest; reorderedRequest]) (postRun orderedRequest) w1
      = handler (exampleHostFor [orderedRequest; reorderedRequest])
          (postRun reorderedRequest) w1.
Proof.
  apply (X18_repeated_request_is_answered_from_the_store
           (exampleHostFor [orderedRequest; reorderedRequest])
           (postRun orderedRequest) (postRun reorderedRequest) emptyWorld
           orderedRequest reorderedRequest
           {| vertices := ["A"; "B"; "C"]; edges := [("A", "B"); ("A", "C")] |}
           defaultOptions); vm_compute; reflexivity.
Defined.

Lemma parseJson_throws host body e :
  parseJson host body = Throws e -> ∃ msg, e = ClientError msg.
Proof.
  unfold parseJson. destruct (String.eqb body EmptyString); [intros [= <-]; by eexists|].
  destruct (JSON_parse host body) as [parsed|]; [|intros [= <-]; by eexists].
  destruct (negb _); [intros [= <-]; by eexists|done].
Qed.

(** X19.  A run request that does not pass validation is answered
    without the store being read or written, so also while the store
    fails, and leaves the world as it was.  A body that is missing,
    empty, no JSON or no JSON object gives 400 with the message of the
    parser; an [algorithmId] that is missing, empty or no string gives
    400; an unknown [algorithmId] gives 404 and names it; an input or
    options that fail validation give 400 with the message of the
    validator, or, when a value cannot be converted, 500 with the text
    of the [TypeError]. *)
Theorem X19_invalid_run_request_never_reaches_the_store
    (host : Platform) (event : LambdaFunctionUrlEvent) (w : World) :
  method event = Some "POST" ->
  normalisePath host (path event) = "/run" ->
  (∀ e, parseJson host (default EmptyString (body event)) = Throws e ->
     ∃ msg, e = ClientError msg
            ∧ handler host event w = (buildResponse 400 (messageBody msg), w))
  ∧ (∀ payload, parseJson host (default EmptyString (body event)) = Returns payload ->
       ((∀ algorithmId, prop payload "algorithmId" = Some (JString algorithmId) ->
           algorithmId = EmptyString) ->
        handler host event w
        = (buildResponse 400
             (messageBody (cat ["Missing required property "; dq; "algorithmId"; dq; "."])),
           w))
       ∧ (∀ algorithmId,
            prop payload "algorithmId" = Some (JString algorithmId) ->
            algorithmId ≠ EmptyString ->
            algorithmId ≠ karger_id ->
            handler host event w
            = (buildResponse 404
                 (messageBody (cat ["Algorithm with id "; dq; algorithmId; dq;
                                    " was not found."])), w))
       ∧ (∀ e,
            prop payload "algorithmId" = Some (JString karger_id) ->
            prepare host (default (JObject []) (nullish (prop payload "input") None))
                         (default (JObject []) (nullish (prop payload "options") None))
            = Throws e ->
            (∃ msg, e = ClientError msg
                    ∧ handler host event w = (buildResponse 400 (messageBody msg), w))
            ∨ (e = typeError
               ∧ handler host event w
                 = (buildResponse 500
                      (messageBody "Cannot convert object to primitive value"), w)))).
Proof.
  intros Hm Hp. rewrite handler_post_run by done. unfold handleRunAlgorithm. split.
  - intros e He. destruct (parseJson_throws _ _ _ He) as [msg ->]. exists msg.
    split; [done|]. by rewrite He.
  - intros payload ->. split; [|split].
    + intros Hid. destruct (prop payload "algorithmId") as [[| | |[|c rest]| |]|]; try done.
      by specialize (Hid _ eq_refl).
    + intros algorithmId -> Hne Hother. destruct algorithmId as [|c rest]; [done|].
      unfold registry_has. destruct (String.eqb_spec (String c rest) karger_id); done.
    + intros e -> Hprep. unfold karger_id in *. cbv beta iota.
      change (registry_has "karger-min-cut") with true. cbn [negb].
      unfold_monad. rewrite Hprep.
      destruct (prepare_throws _ _ _ _ Hprep) as [[msg ->]| ->];
        [left; by exists msg | by right].
Qed.

Lemma X19_invalid_run_request_never_reaches_the_store_witness :
  handler (exampleHost nullUInput) (postRun nullUInput)
    (readFails (OtherError "Requested resource not found"))
  = (buildResponse 400
       (messageBody (cat ["Missing required property "; dq; "algorithmId"; dq; "."])),
     readFails (OtherError "Requested resource not found")).
Proof.
  destruct (X19_invalid_run_request_never_reaches_the_store
              (exampleHost nullUInput) (postRun nullUInput)
              (readFails (OtherError "Requested resource not found")))
    as [_ Hpayload]; [reflexivity|reflexivity|].
  destruct (Hpayload nullUInput) as [Hmissing _]; [reflexivity|].
  apply Hmissing. intros algorithmId Hid. vm_compute in Hid. discriminate.
Defined.

(** X20.  Outside the run route the answer depends on the method and
    the normalised path only: it is the same for every body and every
    state of the world, and it leaves the world as it was.  The method
    OPTIONS gives 204 on every path; GET on [/algorithms] and on
    [/health] gives 200; every other combination gives 404.  A request
    without a method counts as GET. *)
Theorem X20_answers_outside_the_run_route_are_fixed
    (host : Platform) (m p : option string) :
  (default "GET" m = "POST" ∧ normalisePath host p = "/run")
  ∨ ∃ response,
      (∀ b w, handler host {| method := m; path := p; body := b |} w = (response, w))
      ∧ statusCode response
        = if String.eqb (default "GET" m) "OPTIONS" then 204
          else if String.eqb (default "GET" m) "GET"
                  && (String.eqb (normalisePath host p) "/algorithms"
                      || String.eqb (normalisePath host p) "/health")
          then 200 else 404.
Proof.
  unfold handler, route. cbn [method path body].
  destruct (String.eqb (default "GET" m) "OPTIONS") eqn:Hoptions.
  { right. eexists. split; [by intros b w|done]. }
  destruct (String.eqb_spec (default "GET" m) "GET") as [Hget|Hget]; cbn [andb].
  - rewrite Hget. cbn [String.eqb Ascii.eqb Bool.eqb andb].
    destruct (String.eqb (normalisePath host p) "/algorithms"); cbn [orb];
      [right; eexists; split; [by intros b w|done]|].
    destruct (String.eqb (normalisePath host p) "/health");
      right; eexists; (split; [by intros b w|done]).
  - destruct (String.eqb_spec (default "GET" m) "POST") as [Hpost|Hpost]; cbn [andb].
    + destruct (String.eqb_spec (normalisePath host p) "/run") as [Hrun|Hrun]; [by left|].
      right. eexists. split; [by intros b w|done].
    + right. eexists. split; [by intros b w|done].
Qed.

(** X21.  A normalised path is never empty and never ends with a slash,
    the root path [/] apart; this holds whatever URL parsing makes of
    the path, and also when it fails. *)
Theorem X21_normalisePath_has_no_trailing_slash (host : Platform) (p : option string) :
  normalisePath host p = "/"
  ∨ (normalisePath host p ≠ EmptyString
     ∧ lastUnit (normalisePath host p) ≠ Some "/"%char).
Proof.
  assert (H : ∀ s, orSlash (stripTrailingSlashes s) = "/"
                   ∨ (orSlash (stripTrailingSlashes s) ≠ EmptyString
                      ∧ lastUnit (orSlash (stripTrailingSlashes s)) ≠ Some "/"%char)).
  { intros s. pose proof (lastUnit_stripTrailingSlashes s) as Hlast.
    destruct (stripTrailingSlashes s) as [|c rest]; [by left|]. right. by split. }
  unfold normalisePath. destruct p as [[|c s]|]; [by left| |by left].
  destruct (URL_pathname host (String c s)); apply H.
Qed.

(** ** The canonical encoder as a composition, and what is hashed *)

Lemma Forall_map_eq {A B : Type} (f g : A -> B) (l : list A) :
  Forall (fun x => f x = g x) l -> map f l = map g l.
Proof. induction 1 as [|x l Hx _ IH]; simpl; [done|]. by rewrite Hx, IH. Qed.

(** X22.  The canonical encoding of a value is the ordinary JSON text
    of the value with the entries of every object, at every depth,
    sorted by key; sorting changes the order of entries only, and the
    elements of arrays keep their places.  This holds for every
    collation. *)
Theorem X22_stableStringify_is_JSON_of_sorted_value
    (lc : string -> string -> comparison) (value : json) :
  stableStringify lc value = JSON_stringify (sortKeys lc value)
  ∧ jsonEquiv value (sortKeys lc value).
Proof.
  induction value as [|b|n|s|items IH|entries IH] using json_deep_ind;
    try (split; [done|constructor]).
  - split.
    + cbn [stableStringify sortKeys JSON_stringify]. rewrite map_map.
      rewrite (Forall_map_eq (stableStringify lc) (fun x => JSON_stringify (sortKeys lc x)) items);
        [done|].
      eapply Forall_impl; [exact IH|]. by intros x [Hx _].
    + cbn [sortKeys]. constructor.
      induction IH as [|x items [_ Hx] _ IHitems]; simpl; constructor; done.
  - split.
    + rewrite stableStringify_JObject. cbn [sortKeys JSON_stringify]. unfold sortedEntries.
      rewrite (Array_sort_map (fun kv : string * json => (fst kv, sortKeys lc (snd kv)))
                 (fun a b => lc (fst a) (fst b))) by done.
      rewrite map_map. cbn [fst snd].
      match goal with
      | |- cat [_; join _ (map ?f ?l); _] = cat [_; join _ (map ?g ?l); _] =>
          rewrite (Forall_map_eq f g l); [done|]
      end.
      assert (Hsorted : Forall (fun kv : string * json =>
                stableStringify lc (snd kv) = JSON_stringify (sortKeys lc (snd kv)))
                (Array_sort (fun a b => lc (fst a) (fst b)) entries)).
      { eapply Permutation_Forall; [symmetry; apply Array_sort_Permutation|].
        eapply Forall_impl; [exact IH|]. by intros kv [H _]. }
      eapply Forall_impl; [exact Hsorted|]. intros kv Hkv. cbn beta. by rewrite Hkv.
    + cbn [sortKeys]. unfold sortedEntries.
      rewrite (Array_sort_map (fun kv : string * json => (fst kv, sortKeys lc (snd kv)))
                 (fun a b => lc (fst a) (fst b))) by done.
      eapply (equiv_object _ (Array_sort (fun a b => lc (fst a) (fst b)) entries)).
      * symmetry. apply Array_sort_Permutation.
      * assert (Hsorted : Forall (fun kv : string * json => jsonEquiv (snd kv)
                                     (sortKeys lc (snd kv)))
                  (Array_sort (fun a b => lc (fst a) (fst b)) entries)).
        { eapply Permutation_Forall; [symmetry; apply Array_sort_Permutation|].
          eapply Forall_impl; [exact IH|]. by intros kv [_ H]. }
        induction Hsorted as [|kv l Hkv _ IHl]; simpl; constructor; done.
Qed.

Lemma append_assoc (a b c : string) : (a +:+ b) +:+ c = a +:+ (b +:+ c).
Proof.
  induction a as [|x a IH]; [reflexivity|].
  change (String x ((a +:+ b) +:+ c) = String x (a +:+ (b +:+ c))). by rewrite IH.
Qed.

Lemma append_inj_l (a x y : string) : a +:+ x = a +:+ y -> x = y.
Proof.
  induction a as [|c a IH]; [done|].
  change (String c (a +:+ x) = String c (a +:+ y) -> x = y). intros [= H]. by apply IH.
Qed.

Lemma readLiteral_escapeCodeUnit c text :
  readLiteral (escapeCodeUnit c +:+ text)
  = match readLiteral text with
    | Some (s, tail) => Some (String c s, tail)
    | None => None
    end.
Proof. destruct c as [[] [] [] [] [] [] [] []]; reflexivity. Qed.

Lemma readLiteral_escapeString s tail :
  readLiteral (escapeString s +:+ String dquote tail) = Some (s, tail).
Proof.
  induction s as [|c s IH]; [reflexivity|].
  cbn [escapeString]. by rewrite append_assoc, readLiteral_escapeCodeUnit, IH.
Qed.

Lemma quoteJSONString_append s tail :
  quoteJSONString s +:+ tail = String dquote (escapeString s +:+ String dquote tail).
Proof.
  unfold quoteJSONString.
  change (String dquote ((escapeString s +:+ String dquote EmptyString) +:+ tail)
          = String dquote (escapeString s +:+ String dquote tail)).
  by rewrite append_assoc.
Qed.

(** A string literal at the head of a text can be read back. *)
Lemma quoteJSONString_inj s s' tail tail' :
  quoteJSONString s +:+ tail = quoteJSONString s' +:+ tail' -> s = s' ∧ tail = tail'.
Proof.
  rewrite !quoteJSONString_append. intros [= Heq]. apply (f_equal readLiteral) in Heq.
  rewrite !readLiteral_escapeString in Heq. by injection Heq as -> ->.
Qed.

Lemma createCacheKey_text lc algorithmId input options :
  createCacheKey lc (fun text => text) algorithmId input options
  = "{" +:+ quoteJSONString "algorithmId" +:+ ":"
    +:+ quoteJSONString algorithmId +:+ ","
    +:+ quoteJSONString "input" +:+ ":"
    +:+ quoteJSONString (stableStringify lc input) +:+ ","
    +:+ quoteJSONString "options" +:+ ":"
    +:+ quoteJSONString (stableStringify lc options) +:+ "}".
Proof.
  unfold createCacheKey. cbn [JSON_stringify map fst snd]. unfold cat, join.
  cbn [String.concat]. rewrite !append_assoc. reflexivity.
Qed.

Lemma hashed_text_inj lc algorithmId algorithmId' input input' options options' :
  createCacheKey lc (fun text => text) algorithmId input options
  = createCacheKey lc (fun text => text) algorithmId' input' options' ->
  algorithmId = algorithmId'
  ∧ stableStringify lc input = stableStringify lc input'
  ∧ stableStringify lc options = stableStringify lc options'.
Proof.
  rewrite !createCacheKey_text. intros Heq.
  do 3 apply append_inj_l in Heq.
  apply quoteJSONString_inj in Heq as [-> Heq]. split; [done|].
  do 3 apply append_inj_l in Heq.
  apply quoteJSONString_inj in Heq as [Hinput Heq]. split; [done|].
  do 3 apply append_inj_l in Heq.
  by apply quoteJSONString_inj in Heq as [Hoptions _].
Qed.

(** X23.  The fingerprint is the digest of one text, and that text can
    be read back: two requests with the same text have the same
    algorithm id, the same canonical encoding of the input and the same
    canonical encoding of the options.  The three parts are written as
    JSON string literals, so no choice of id, input or options makes the
    parts run into each other; two requests that differ in one of the
    three can share a fingerprint only through the digest. *)
Theorem X23_hashed_text_determines_id_and_encodings
    (lc : string -> string -> comparison)
    (algorithmId algorithmId' : string) (input input' options options' : json) :
  (∀ sha, createCacheKey lc sha algorithmId input options
          = sha (createCacheKey lc (fun text => text) algorithmId input options))
  ∧ (createCacheKey lc (fun text => text) algorithmId input options
     = createCacheKey lc (fun text => text) algorithmId' input' options' ->
     algorithmId = algorithmId'
     ∧ stableStringify lc input = stableStringify lc input'
     ∧ stableStringify lc options = stableStringify lc options').
Proof. split; [done|]. apply hashed_text_inj. Qed.

(** ** What the fingerprint tells apart *)

Lemma append_nil_r (s : string) : s +:+ EmptyString = s.
Proof.
  induction s as [|c s IH]; [reflexivity|].
  change (String c (s +:+ EmptyString) = String c s). by rewrite IH.
Qed.

Lemma append_length (a b : string) :
  String.length (a +:+ b) = (String.length a + String.length b)%nat.
Proof.
  induction a as [|c a IH]; [reflexivity|].
  change (S (String.length (a +:+ b)) = S (String.length a + String.length b)).
  by rewrite IH.
Qed.

Lemma append_inj_r (a b tail : string) : a +:+ tail = b +:+ tail -> a = b.
Proof.
  revert b. induction a as [|c a IH]; intros [|c' b].
  - done.
  - intros H. apply (f_equal String.length) in H. rewrite !append_length in H.
    simpl in H. lia.
  - intros H. apply (f_equal String.length) in H. rewrite !append_length in H.
    simpl in H. lia.
  - change (String c (a +:+ tail) = String c' (b +:+ tail) -> String c a = String c' b).
    intros [= -> H]. by rewrite (IH _ H).
Qed.

Lemma cat_three (a b c : string) : cat [a; b; c] = a +:+ b +:+ c.
Proof. reflexivity. Qed.

Lemma join_arrayTail {A : Type} (enc : A -> string) item items rest :
  join "," (map enc (item :: items)) +:+ String "]" rest
  = enc item +:+ arrayTail enc items rest.
Proof.
  revert item. induction items as [|next items IH]; intros item; [reflexivity|].
  change (join "," (map enc (item :: next :: items)))
    with (enc item +:+ "," +:+ join "," (map enc (next :: items))).
  rewrite !append_assoc.
  change ("," +:+ ?s) with (String "," s). by rewrite IH.
Qed.

Lemma array_text {A : Type} (enc : A -> string) (items : list A) (rest : string) :
  cat ["["; join "," (map enc items); "]"] +:+ rest = String "[" (arrayBody enc items rest).
Proof.
  rewrite cat_three, !append_assoc.
  change ("[" +:+ ?s) with (String "[" s). change ("]" +:+ rest) with (String "]" rest).
  f_equal. destruct items as [|item items]; [reflexivity|]. apply join_arrayTail.
Qed.

Section ArrayText.
Context {A : Type} (enc : A -> string).
Hypothesis enc_inj : ∀ a a' rest rest', enc a +:+ rest = enc a' +:+ rest' -> a = a' ∧ rest = rest'.
Hypothesis enc_head : ∀ a rest tail, enc a +:+ rest ≠ String "]" tail.

Lemma arrayTail_inj items items' rest rest' :
  arrayTail enc items rest = arrayTail enc items' rest' -> items = items' ∧ rest = rest'.
Proof.
  revert items'. induction items as [|item items IH]; intros [|item' items']; cbn [arrayTail];
    try done.
  - by intros [= ->].
  - intros [= H]. apply enc_inj in H as [-> H]. by destruct (IH _ H) as [-> ->].
Qed.

Lemma arrayBody_inj items items' rest rest' :
  arrayBody enc items rest = arrayBody enc items' rest' -> items = items' ∧ rest = rest'.
Proof.
  destruct items as [|item items], items' as [|item' items']; cbn [arrayBody].
  - by intros [= ->].
  - intros H. symmetry in H. by apply enc_head in H.
  - intros H. by apply enc_head in H.
  - intros H. apply enc_inj in H as [-> H]. by destruct (arrayTail_inj _ _ _ _ H) as [-> ->].
Qed.
End ArrayText.

Lemma edgeText_inj e e' rest rest' :
  edgeText e +:+ rest = edgeText e' +:+ rest' -> e = e' ∧ rest = rest'.
Proof.
  destruct e as [a b], e' as [a' b']. unfold edgeText. cbn [fst snd].
  rewrite !append_assoc. intros H. apply append_inj_l in H.
  apply quoteJSONString_inj in H as [-> H].
  apply append_inj_l in H. apply quoteJSONString_inj in H as [-> H].
  by apply append_inj_l in H as ->.
Qed.

Lemma stableStringify_strings lc items rest :
  stableStringify lc (stringsJson items) +:+ rest
  = String "[" (arrayBody quoteJSONString items rest).
Proof.
  unfold stringsJson. cbn [stableStringify]. rewrite map_map. cbn [stableStringify JSON_stringify].
  apply array_text.
Qed.

Lemma stableStringify_edges lc (items : list (string * string)) rest :
  stableStringify lc
    (JArray (map (fun e => JArray [JString (fst e); JString (snd e)]) items)) +:+ rest
  = String "[" (arrayBody edgeText items rest).
Proof.
  cbn [stableStringify]. rewrite map_map. rewrite <- array_text.
  rewrite (List.map_ext _ edgeText); [done|].
  intros [a b]. cbn [stableStringify JSON_stringify map fst snd]. unfold edgeText.
  rewrite cat_three. cbn [fst snd]. unfold join. cbn [String.concat].
  by rewrite !append_assoc.
Qed.

Lemma inputJson_text_inj lc input input' :
  stableStringify lc (inputJson input) = stableStringify lc (inputJson input') ->
  input = input'.
Proof.
  destruct input as [vs es], input' as [vs' es'].
  unfold inputJson. rewrite !stableStringify_JObject. cbn [vertices edges].
  unfold sortedEntries. cbn [Array_sort sort_insert fst snd].
  assert (Hq : ∀ a rest tail, quoteJSONString a +:+ rest ≠ String "]" tail).
  { intros a rest tail. by rewrite quoteJSONString_append. }
  assert (He : ∀ a rest tail, edgeText a +:+ rest ≠ String "]" tail).
  { intros a rest tail. unfold edgeText. by rewrite !append_assoc. }
  destruct (lc "vertices" "edges"); cbn [map fst snd]; unfold cat, join;
    cbn [String.concat]; rewrite !append_assoc;
    rewrite ?stableStringify_strings, ?stableStringify_edges; intros H;
    repeat apply append_inj_l in H; injection H as H.
  - apply (arrayBody_inj _ quoteJSONString_inj Hq) in H as [-> H].
    repeat apply append_inj_l in H. injection H as H.
    by apply (arrayBody_inj _ edgeText_inj He) in H as [-> _].
  - apply (arrayBody_inj _ quoteJSONString_inj Hq) in H as [-> H].
    repeat apply append_inj_l in H. injection H as H.
    by apply (arrayBody_inj _ edgeText_inj He) in H as [-> _].
  - apply (arrayBody_inj _ edgeText_inj He) in H as [-> H].
    repeat apply append_inj_l in H. injection H as H.
    by apply (arrayBody_inj _ quoteJSONString_inj Hq) in H as [-> _].
Qed.

(** A number that a double holds exactly with all its digits is
    printed with all its digits. *)
Lemma Number_toString_exact n : Z.abs n <= 2 ^ 53 -> Number_toString n = pretty n.
Proof. intros Hn. unfold Number_toString. by destruct (Z.leb_spec (Z.abs n) (2 ^ 53)); [|lia]. Qed.

(** X27.  The fingerprint tells validated requests apart completely:
    two run requests are hashed from the same text exactly when they
    validate to the same input, with the same vertices in the same
    order and the same edges in the same order and direction, and to
    the same options.  So two requests can share a stored result only
    if they validate alike or the digests of two different texts
    collide; and the same graph with its edges listed in another order
    or direction is computed and stored anew. *)
Theorem X27_hashed_text_identifies_the_validated_request
    (host : Platform) (rawInput rawOptions rawInput' rawOptions' : json)
    (input input' : KargerInput) (options options' : list (string * json)) :
  prepare host rawInput rawOptions = Returns (input, options) ->
  prepare host rawInput' rawOptions' = Returns (input', options') ->
  createCacheKey (localeCompare host) (fun text => text) karger_id
    (inputJson input) (JObject options)
  = createCacheKey (localeCompare host) (fun text => text) karger_id
      (inputJson input') (JObject options')
  <-> input = input' ∧ options = options'.
Proof.
  intros Hprep Hprep'. split; [|by intros [-> ->]].
  intros Hkey. apply hashed_text_inj in Hkey as (_ & Hinput & Hoptions).
  split; [by eapply inputJson_text_inj|].
  destruct (prepare_inv _ _ _ _ _ Hprep) as [_ Hopt].
  destruct (prepare_inv _ _ _ _ _ Hprep') as [_ Hopt'].
  destruct (parseOptions_karger _ _ _ Hopt) as (n & -> & Hn).
  destruct (parseOptions_karger _ _ _ Hopt') as (n' & -> & Hn').
  rewrite !stableStringify_JObject in Hoptions.
  unfold sortedEntries in Hoptions. cbn [Array_sort sort_insert map fst snd] in Hoptions.
  cbn [stableStringify JSON_stringify] in Hoptions.
  unfold cat, join in Hoptions. cbn [String.concat] in Hoptions.
  rewrite !append_assoc in Hoptions. repeat apply append_inj_l in Hoptions.
  change (EmptyString +:+ "}") with "}" in Hoptions.
  apply append_inj_r in Hoptions.
  rewrite !Number_toString_exact in Hoptions by lia.
  apply (inj pretty) in Hoptions. by subst.
Qed.

Lemma X27_hashed_text_identifies_the_validated_request_witness :
  createCacheKey collate (fun text => text) karger_id
    (inputJson {| vertices := ["A"; "B"; "C"]; edges := [("A", "B"); ("A", "C")] |})
    (JObject defaultOptions)
  = createCacheKey collate (fun text => text) karger_id
      (inputJson {| vertices := ["A"; "B"; "C"]; edges := [("A", "C"); ("A", "B")] |})
      (JObject defaultOptions)
  <-> {| vertices := ["A"; "B"; "C"]; edges := [("A", "B"); ("A", "C")] |}
      = {| vertices := ["A"; "B"; "C"]; edges := [("A", "C"); ("A", "B")] |}
      ∧ defaultOptions = defaultOptions.
Proof.
  apply (X27_hashed_text_identifies_the_validated_request (exampleHost JNull)
           exampleInputOrdered (JObject [])
           (JObject [("vertices", JArray [JString "A"; JString "B"; JString "C"]);
                     ("edges", JArray [JArray [JString "A"; JString "C"];
                                       JArray [JString "A"; JString "B"]])])
           (JObject [])); reflexivity.
Defined.

(** ** The registry and [run] *)

Lemma registry_get_app (algorithms more : AlgorithmRegistry) id :
  registry_get (algorithms ++ more)%list id
  = match registry_get algorithms id with
    | Some algorithm => Some algorithm
    | None => registry_get more id
    end.
Proof.
  unfold registry_get. induction algorithms as [|[k a] algorithms IH]; simpl; [done|].
  destruct (String.eqb k id); [done|]. exact IH.
Qed.

(** X24.  Registering an algorithm fails, with an error that is no
    client error, exactly when its id is already registered.  When it
    succeeds, the algorithm is found under its id, every other id finds
    what it found before, and the list of metadata is the old list
    followed by the metadata of the new algorithm.  The registry after
    start-up holds the minimum-cut algorithm and nothing else, and
    registering that algorithm again fails. *)
Theorem X24_register_adds_one_algorithm_once
    (algorithm : Algorithm) (algorithms : AlgorithmRegistry) :
  match register algorithm algorithms with
  | Returns registered =>
      registry_get algorithms (algorithm_id algorithm) = None
      ∧ registry_get registered (algorithm_id algorithm) = Some algorithm
      ∧ (∀ id, id ≠ algorithm_id algorithm ->
           registry_get registered id = registry_get algorithms id)
      ∧ registry_list registered
        = (registry_list algorithms ++ [algorithm_metadata algorithm])%list
  | Throws e =>
      is_Some (registry_get algorithms (algorithm_id algorithm))
      ∧ ∃ msg, e = OtherError msg
  end
  ∧ ∃ atStart,
      registry = Returns atStart
      ∧ registry_list atStart = [getMetadata]
      ∧ (∀ id, is_Some (registry_get atStart id) <-> registry_has id = true)
      ∧ ∃ msg, register kargerMinCut atStart = Throws (OtherError msg).
Proof.
  split.
  - unfold register.
    destruct (registry_get algorithms (algorithm_id algorithm)) as [found|] eqn:Hget.
    { split; [by eexists|by eexists]. }
    split; [done|]. split; [|split].
    + rewrite registry_get_app, Hget. unfold registry_get. simpl.
      by rewrite String.eqb_refl.
    + intros id Hid. rewrite registry_get_app. destruct (registry_get algorithms id); [done|].
      unfold registry_get. simpl.
      destruct (String.eqb_spec (algorithm_id algorithm) id) as [Heq|_]; [|done].
      by destruct Hid.
    + unfold registry_list. by rewrite map_app.
  - exists [(karger_id, kargerMinCut)]. split; [reflexivity|]. split; [reflexivity|]. split.
    + intros id. unfold registry_get, registry_has. cbn [find fst].
      rewrite (String.eqb_sym id). destruct (String.eqb karger_id id); cbn [fmap option_fmap option_map].
      * split; [done|intros _; by eexists].
      * split; [by intros [? ?]|done].
    + by eexists.
Qed.

(** X25.  Running an algorithm on raw input and options fails only
    where validation fails, with a client error or with the [TypeError]
    of a value that cannot be converted, and then touches nothing;
    otherwise it returns the result of the validated input, having drawn
    random numbers only.  The internal errors of the contraction are
    never thrown. *)
Theorem X25_run_fails_in_validation_only
    (host : Platform) (rawInput rawOptions : json) (w : World) :
  match prepare host rawInput rawOptions with
  | Throws e =>
      ((∃ msg, e = ClientError msg) ∨ e = typeError)
      ∧ run host rawInput rawOptions w = (Throws e, w)
  | Returns (input, options) =>
      ∃ best n,
        run host rawInput rawOptions w
        = (Returns (runResult (resolveIterations input options) best), advance n w)
        ∧ runWithPrepared host (input, options) w = run host rawInput rawOptions w
        ∧ length (runHistory best) = Z.to_nat (resolveIterations input options)
  end.
Proof.
  unfold run, runWithPrepared. unfold_monad.
  destruct (prepare host rawInput rawOptions) as [[input options]|e] eqn:Hprep.
  - destruct (prepare_inv _ _ _ _ _ Hprep) as [Hin _].
    destruct (execute_returns (Math_random host) input options w (parseInput_valid _ _ Hin))
      as (best & n & Hrun & Hlen).
    exists best, n. cbn [fst snd]. by rewrite Hrun.
  - split; [by eapply prepare_throws|done].
Qed.
